(** * Ordered map on an AVL tree with subtree statistics (Main.cpp)

    A shallow embedding of the classes [BSTMap], [AVLTreeMap] and
    [TreeMapStats] of Main.cpp, and the verification of their invariants.

    The C++ objects live in a store: a finite map from addresses to node
    records.  A [Node*] is an [option addr] ([None] is NULL), member
    functions are computations in a state-and-failure monad over the store,
    the root pointer and the entry counter [n].  A computation fails on a
    NULL or dangling dereference and when a loop runs out of fuel; the public
    operations are proved to succeed on every state the program reaches.

    C++ [int] is embedded as [Z]: the arithmetic of the program (heights,
    counters, sums of values) is taken exactly; signed overflow has no
    defined behaviour in C++ and lies outside this model. *)

From stdpp Require Import gmap list fin_maps sorting.
From Stdlib Require Import ZArith Lia.

Local Open Scope Z_scope.

(* The set solver clears hypotheses it has already consumed. *)
Set Warnings "-clear-no-such-hyp".

(** ** Machine integers *)

(** An [int] has 32 bits.  Keys and values are [int]s that the program only
    stores and compares.  The one place where it adds values is the sum of
    [Stats::updateStats], and an addition of two [int]s gives the sum
    reduced to the range of [int].  The counts and the heights are bounded
    by the number of records of the store. *)
Definition int_min : Z := - 2 ^ 31.
Definition int_max : Z := 2 ^ 31 - 1.
Definition in_int (z : Z) : Prop := int_min ≤ z ≤ int_max.
Definition wrap (z : Z) : Z := (z + 2 ^ 31) mod 2 ^ 32 - 2 ^ 31.
Definition add_int (a b : Z) : Z := wrap (a + b).

(** ** The store *)

Definition addr := positive.
Abbreviation ptr := (option addr).

(** [TreeMapStats::Node::Stats]: the fields [num], [sum], [min], [max],
    named after their getters. *)
Record Stats := mkStats { getNum : Z; getSum : Z; getMin : Z; getMax : Z }.

(** The most derived node type, [TreeMapStats::Node]: the fields of
    [BSTMap::Node], the height [ht] of [AVLTreeMap::Node] and the statistics
    [info].  [info] is an owned [Stats*] that every constructor call of the
    program sets; it is embedded as the record it points to. *)
Record Node := mkNode {
  key : Z; value : Z;
  left : ptr; right : ptr; parent : ptr;
  ht : Z;
  info : Stats
}.

(** The map object: the nodes it owns, [root] and [n]. *)
Record State := mkState { heap : gmap addr Node; root : ptr; n : Z }.

Definition with_key (k : Z) (x : Node) : Node :=
  mkNode k (value x) (left x) (right x) (parent x) (ht x) (info x).
Definition with_value (v : Z) (x : Node) : Node :=
  mkNode (key x) v (left x) (right x) (parent x) (ht x) (info x).
Definition with_left (c : ptr) (x : Node) : Node :=
  mkNode (key x) (value x) c (right x) (parent x) (ht x) (info x).
Definition with_right (c : ptr) (x : Node) : Node :=
  mkNode (key x) (value x) (left x) c (parent x) (ht x) (info x).
Definition with_parent (p : ptr) (x : Node) : Node :=
  mkNode (key x) (value x) (left x) (right x) p (ht x) (info x).
Definition with_ht (h : Z) (x : Node) : Node :=
  mkNode (key x) (value x) (left x) (right x) (parent x) h (info x).
Definition with_info (s : Stats) (x : Node) : Node :=
  mkNode (key x) (value x) (left x) (right x) (parent x) (ht x) s.

(** ** The monad of member functions *)

Definition M (A : Type) : Type := State -> option (A * State).

Definition ret {A} (x : A) : M A := fun st => Some (x, st).
Definition bind {A B} (m : M A) (f : A -> M B) : M B :=
  fun st => match m st with Some (x, st') => f x st' | None => None end.
Definition fail {A} : M A := fun _ => None.

Declare Scope m_scope.
Delimit Scope m_scope with M.
Notation "x <- m ;; k" := (bind m (fun x => k))
  (at level 100, m at next level, k at level 200, right associativity) : m_scope.
Notation "m ;; k" := (bind m (fun _ => k))
  (at level 100, k at level 200, right associativity) : m_scope.
Local Open Scope m_scope.

(** [w->f]: read a field through a pointer. *)
Definition get {A} (f : Node -> A) (w : ptr) : M A :=
  fun st => match w with
            | Some a => match heap st !! a with
                        | Some x => Some (f x, st)
                        | None => None
                        end
            | None => None
            end.

(** [w->f = ...]: write a field through a pointer. *)
Definition set (w : ptr) (f : Node -> Node) : M unit :=
  fun st => match w with
            | Some a => match heap st !! a with
                        | Some x => Some (tt, mkState (<[a := f x]> (heap st)) (root st) (n st))
                        | None => None
                        end
            | None => None
            end.

(** [new Node(...)]: the node is placed at an address the store does not use. *)
Definition alloc (x : Node) : M ptr :=
  fun st => let a := fresh (dom (heap st)) in
            Some (Some a, mkState (<[a := x]> (heap st)) (root st) (n st)).

(** [delete w]. *)
Definition free (w : ptr) : M unit :=
  fun st => match w with
            | Some a => match heap st !! a with
                        | Some _ => Some (tt, mkState (delete a (heap st)) (root st) (n st))
                        | None => None
                        end
            | None => None
            end.

Definition get_root : M ptr := fun st => Some (root st, st).
Definition set_root (r : ptr) : M unit :=
  fun st => Some (tt, mkState (heap st) r (n st)).
Definition get_n : M Z := fun st => Some (n st, st).
Definition set_n (m : Z) : M unit :=
  fun st => Some (tt, mkState (heap st) (root st) m).

(** Pointer comparison [p == q]. *)
Definition ptr_eqb (p q : ptr) : bool := bool_decide (p = q).

(** Loops are written by recursion on fuel; a loop that walks the tree takes
    one unit more than the number of nodes in the store. *)
Definition with_fuel {A} (f : nat -> M A) : M A :=
  fun st => f (S (size (heap st))) st.

(** ** BSTMap *)

Module BSTMap.

Definition makeChild (p c : ptr) (isLeft : bool) : M unit :=
  (if p is Some _ then
     if isLeft then set p (with_left c) else set p (with_right c)
   else ret tt) ;;
  (if c is Some _ then set c (with_parent p) else ret tt).

Definition removeNode (w : ptr) : M ptr :=
  z <- get parent w ;;
  wl <- get left w ;;
  wr <- get right w ;;
  let x := if wl is Some _ then wl else wr in
  isLeft <- (if z is Some _ then zl <- get left z ;; ret (ptr_eqb zl w)
             else ret true) ;;
  makeChild z x isLeft ;;
  (if z is Some _ then ret tt else set_root x) ;;
  free w ;;
  m <- get_n ;;
  set_n (m - 1) ;;
  ret z.

Fixpoint findNode_loop (fuel : nat) (k : Z) (w z : ptr) : M ptr :=
  match fuel with
  | O => fail
  | S fuel' =>
      match w with
      | None => ret z
      | Some _ =>
          wk <- get key w ;;
          if wk =? k then ret w
          else
            w' <- (if wk >? k then get left w else get right w) ;;
            findNode_loop fuel' k w' w
      end
  end.

Definition findNode (k : Z) : M ptr :=
  w <- get_root ;;
  with_fuel (fun fuel => findNode_loop fuel k w None).

Definition find (k : Z) : M ptr :=
  w <- findNode k ;;
  match w with
  | Some _ => wk <- get key w ;; ret (if wk =? k then w else None)
  | None => ret None
  end.

Section Virtual.
(** [createNode] is virtual. *)
Variable createNode : Z -> Z -> ptr -> ptr -> ptr -> M ptr.

Definition putNode (k v : Z) : M ptr :=
  w <- findNode k ;;
  found <- (if w is Some _ then wk <- get key w ;; ret (wk =? k) else ret false) ;;
  if found then
    set w (with_value v) ;;
    ret w
  else
    x <- createNode k v None None w ;;
    (if w is Some _ then
       wk <- get key w ;;
       makeChild w x (wk >? k)
     else set_root x) ;;
    m <- get_n ;;
    set_n (m + 1) ;;
    ret x.
End Virtual.

Fixpoint youngestAncestorType_loop (fuel : nat) (check_left : bool) (z x : ptr) : M ptr :=
  match fuel with
  | O => fail
  | S fuel' =>
      match x with
      | None => ret x
      | Some _ =>
          c <- (if check_left then get left x else get right x) ;;
          if ptr_eqb c z then
            x' <- get parent x ;;
            youngestAncestorType_loop fuel' check_left x x'
          else ret x
      end
  end.

Definition youngestAncestorType (w : ptr) (check_left : bool) : M ptr :=
  match w with
  | None => ret None
  | Some _ =>
      x <- get parent w ;;
      with_fuel (fun fuel => youngestAncestorType_loop fuel check_left w x)
  end.

Fixpoint youngestDescendantType_loop (fuel : nat) (check_left : bool) (w : ptr) : M ptr :=
  match fuel with
  | O => fail
  | S fuel' =>
      c <- (if check_left then get left w else get right w) ;;
      match c with
      | Some _ => youngestDescendantType_loop fuel' check_left c
      | None => ret w
      end
  end.

Definition youngestDescendantType (w : ptr) (check_left : bool) : M ptr :=
  match w with
  | None => ret None
  | Some _ => with_fuel (fun fuel => youngestDescendantType_loop fuel check_left w)
  end.

Definition successor (w : ptr) : M ptr :=
  match w with
  | None => ret None
  | Some _ =>
      r <- get right w ;;
      match r with
      | Some _ => youngestDescendantType r true
      | None => youngestAncestorType w true
      end
  end.

Definition predecessor (w : ptr) : M ptr :=
  match w with
  | None => ret None
  | Some _ =>
      l <- get left w ;;
      match l with
      | Some _ => youngestDescendantType l false
      | None => youngestAncestorType w false
      end
  end.

Definition eraseNode (k : Z) : M ptr :=
  w <- findNode k ;;
  absent <- (if w is Some _ then wk <- get key w ;; ret (negb (wk =? k)) else ret true) ;;
  if absent then ret w
  else
    wl <- get left w ;;
    wr <- get right w ;;
    match wl, wr with
    | Some _, Some _ =>
        s <- successor w ;;
        sk <- get key s ;;
        set w (with_key sk) ;;
        sv <- get value s ;;
        set w (with_value sv) ;;
        removeNode s
    | _, _ => removeNode w
    end.

Definition size : M Z := get_n.

Definition empty : M bool :=
  r <- get_root ;; ret (if r is Some _ then false else true).

(** [deleteAll], the body of the destructor: the walk goes down to a node
    without children, unhooks it from its parent, deletes it and goes on
    from the parent. *)
Fixpoint deleteAll_loop (fuel : nat) (w : ptr) : M unit :=
  match fuel with
  | O => fail
  | S fuel' =>
      match w with
      | None => ret tt
      | Some _ =>
          wl <- get left w ;;
          wr <- get right w ;;
          match wl, wr with
          | None, None =>
              let x := w in
              w' <- get parent w ;;
              (match w' with
               | Some _ =>
                   w'l <- get left w' ;;
                   if ptr_eqb w'l x then set w' (with_left None)
                   else set w' (with_right None)
               | None => ret tt
               end) ;;
              free x ;;
              m <- get_n ;;
              set_n (m - 1) ;;
              deleteAll_loop fuel' w'
          | _, _ => deleteAll_loop fuel' (if wl is Some _ then wl else wr)
          end
      end
  end.

(** The walk enters and leaves every node once: twice the number of nodes,
    and one more step to see the end. *)
Definition deleteAll : M unit :=
  w <- get_root ;;
  fun st => deleteAll_loop (S (2 * base.size (heap st))) w st.

End BSTMap.

(** ** AVLTreeMap *)

Module AVLTreeMap.

Definition height (w : ptr) : M Z :=
  match w with
  | Some _ => get ht w
  | None => ret 0
  end.

Definition tallestChild (w : ptr) (breakLeft : bool) : M ptr :=
  wl <- get left w ;;
  l_ht <- height wl ;;
  wr <- get right w ;;
  r_ht <- height wr ;;
  if (l_ht >? r_ht) || ((l_ht =? r_ht) && breakLeft) then get left w else get right w.

Definition resetHeight (w : ptr) : M unit :=
  wl <- get left w ;;
  hl <- height wl ;;
  wr <- get right w ;;
  hr <- height wr ;;
  set w (with_ht (Z.max hl hr + 1)).

Definition balanced (w : ptr) : M bool :=
  wl <- get left w ;;
  hl <- height wl ;;
  wr <- get right w ;;
  hr <- height wr ;;
  ret (Z.abs (hl - hr) <=? 1).

(** [AVLTreeMap::singleRotation], the base implementation. *)
Definition singleRotation (y z : ptr) : M unit :=
  zp <- get parent z ;;
  (match zp with
   | Some _ =>
       zpl <- get left zp ;;
       BSTMap.makeChild zp y (ptr_eqb zpl z)
   | None =>
       set y (with_parent None) ;;
       set_root y
   end) ;;
  zr <- get right z ;;
  let rotateLeft := ptr_eqb y zr in
  t <- (if rotateLeft then get left y else get right y) ;;
  BSTMap.makeChild z t (negb rotateLeft) ;;
  BSTMap.makeChild y z rotateLeft ;;
  resetHeight z ;;
  resetHeight y.

Section Virtual.
(** [singleRotation] and [createNode] are virtual. *)
Variable this_singleRotation : ptr -> ptr -> M unit.
Variable this_createNode : Z -> Z -> ptr -> ptr -> ptr -> M ptr.

Definition doubleRotation (x y z : ptr) : M unit :=
  this_singleRotation x y ;;
  this_singleRotation x z.

Definition rebalance (z : ptr) : M ptr :=
  y <- tallestChild z true ;;
  x0 <- tallestChild y true ;;
  zr <- get right z ;;
  x <- (if ptr_eqb zr y then tallestChild y false else ret x0) ;;
  zl <- get left z ;;
  yl <- get left y ;;
  zr' <- get right z ;;
  yr <- get right y ;;
  if (ptr_eqb y zl && ptr_eqb x yl) || (ptr_eqb y zr' && ptr_eqb x yr) then
    this_singleRotation y z ;;
    ret y
  else
    doubleRotation x y z ;;
    ret x.

Fixpoint rebalanceAncestors_loop (fuel : nat) (w : ptr) : M unit :=
  match fuel with
  | O => fail
  | S fuel' =>
      match w with
      | None => ret tt
      | Some _ =>
          x <- get parent w ;;
          old_height <- height w ;;
          b <- balanced w ;;
          w1 <- (if b then resetHeight w ;; ret w
                 else
                   w' <- rebalance w ;;
                   (if x is Some _ then ret tt else set_root w') ;;
                   ret w') ;;
          h <- height w1 ;;
          rebalanceAncestors_loop fuel' (if old_height =? h then None else x)
      end
  end.

Definition rebalanceAncestors (w : ptr) : M unit :=
  with_fuel (fun fuel => rebalanceAncestors_loop fuel w).

Definition putNode (k v : Z) : M ptr :=
  z <- BSTMap.putNode this_createNode k v ;;
  (match z with
   | Some _ => zp <- get parent z ;; rebalanceAncestors zp
   | None => ret tt
   end) ;;
  ret z.

Definition eraseNode (k : Z) : M ptr :=
  z <- BSTMap.eraseNode k ;;
  rebalanceAncestors z ;;
  ret z.
End Virtual.

End AVLTreeMap.

(** ** TreeMapStats *)

Module TreeMapStats.

(** [Stats::updateStats]. *)
Definition updateStats (value : Z) (l r : option Stats) : Stats :=
  let newNum := 1 + (if l is Some s then getNum s else 0) + (if r is Some s then getNum s else 0) in
  let newSum := add_int (add_int value (if l is Some s then getSum s else 0))
                        (if r is Some s then getSum s else 0) in
  let newMin := Z.min value (Z.min (if l is Some s then getMin s else value)
                                   (if r is Some s then getMin s else value)) in
  let newMax := Z.max value (Z.max (if l is Some s then getMax s else value)
                                   (if r is Some s then getMax s else value)) in
  mkStats newNum newSum newMin newMax.

(** [left ? left->info : NULL]. *)
Definition info_or_null (w : ptr) : M (option Stats) :=
  match w with
  | Some _ => s <- get info w ;; ret (Some s)
  | None => ret None
  end.

(** [Node::updateInfo], called as [u->updateInfo(l, r, value)]. *)
Definition updateInfo (u l r : ptr) (value : Z) : M unit :=
  li <- info_or_null l ;;
  ri <- info_or_null r ;;
  set u (with_info (updateStats value li ri)).

(** The constructor chain [Node(k,v,l,r,p)] of the three node classes. *)
Definition createNode (k v : Z) (l r p : ptr) : M ptr :=
  hl <- (if l is Some _ then get ht l else ret 0) ;;
  hr <- (if r is Some _ then get ht r else ret 0) ;;
  alloc (mkNode k v l r p (1 + Z.max hl hr) (mkStats 1 v v v)).

Fixpoint updateTree_loop (fuel : nat) (u : ptr) : M unit :=
  match fuel with
  | O => fail
  | S fuel' =>
      match u with
      | None => ret tt
      | Some _ =>
          l <- get left u ;;
          r <- get right u ;;
          p <- get parent u ;;
          v <- get value u ;;
          updateInfo u l r v ;;
          updateTree_loop fuel' p
      end
  end.

Definition updateTree (w : ptr) : M unit :=
  match w with
  | None => ret tt
  | Some _ => with_fuel (fun fuel => updateTree_loop fuel w)
  end.

Definition singleRotation (y z : ptr) : M unit :=
  AVLTreeMap.singleRotation y z ;;
  let w := y in
  let x := z in
  xl <- get left x ;;
  xr <- get right x ;;
  xv <- get value x ;;
  updateInfo x xl xr xv ;;
  (if w is Some _ then updateTree w else ret tt).

Definition rebalance : ptr -> M ptr := AVLTreeMap.rebalance singleRotation.
Definition rebalanceAncestors : ptr -> M unit := AVLTreeMap.rebalanceAncestors singleRotation.

Definition putNode (key value : Z) : M ptr :=
  w <- AVLTreeMap.putNode singleRotation createNode key value ;;
  (if w is Some _ then updateTree w else ret tt) ;;
  ret w.

Definition eraseNode (key : Z) : M ptr :=
  w <- AVLTreeMap.eraseNode singleRotation key ;;
  (if w is Some _ then updateTree w else ret tt) ;;
  ret w.

(** [BSTMap::put] and [BSTMap::erase] on a [TreeMapStats] object: the
    virtual calls reach the overrides above. *)
Definition put (k v : Z) : M unit := putNode k v ;; ret tt.
Definition erase (k : Z) : M unit := eraseNode k ;; ret tt.

End TreeMapStats.

(** The map a constructor call [TreeMapStats L;] builds. *)
Definition empty_map : State := mkState ∅ None 0.

(** The calls [put(k, v)] and [erase(k)] of the public interface. *)
Inductive op := Put (k v : Z) | Erase (k : Z).

Definition exec (o : op) : M unit :=
  match o with
  | Put k v => TreeMapStats.put k v
  | Erase k => TreeMapStats.erase k
  end.

Fixpoint run (ops : list op) (st : State) : option State :=
  match ops with
  | [] => Some st
  | o :: ops' =>
      match exec o st with
      | Some (_, st') => run ops' st'
      | None => None
      end
  end.

(** * The trees a store represents *)

(** A tree with the address of every node: the shape, keys, values, stored
    heights and stored statistics of the nodes reachable from [root]. *)
Inductive tree :=
| Leaf
| Nd (a : addr) (l : tree) (k v h : Z) (s : Stats) (r : tree).

Definition rootp (t : tree) : ptr :=
  match t with Leaf => None | Nd a _ _ _ _ _ _ => Some a end.
Definition ht_of (t : tree) : Z :=
  match t with Leaf => 0 | Nd _ _ _ _ h _ _ => h end.
Definition info_of (t : tree) : option Stats :=
  match t with Leaf => None | Nd _ _ _ _ _ s _ => Some s end.

Fixpoint addrs (t : tree) : list addr :=
  match t with
  | Leaf => []
  | Nd a l _ _ _ _ r => addrs l ++ a :: addrs r
  end.

(** The entries in key order of the walk: address, key and value. *)
Fixpoint inorder (t : tree) : list (addr * (Z * Z)) :=
  match t with
  | Leaf => []
  | Nd a l k v _ _ r => inorder l ++ (a, (k, v)) :: inorder r
  end.

Definition keys (t : tree) : list Z := (inorder t).*2.*1.
Definition vals (t : tree) : list Z := (inorder t).*2.*2.

(** The node records of a tree whose root has parent pointer [p]. *)
Fixpoint cells (p : ptr) (t : tree) : list (addr * Node) :=
  match t with
  | Leaf => []
  | Nd a l k v h s r =>
      cells (Some a) l ++ (a, mkNode k v (rootp l) (rootp r) p h s) :: cells (Some a) r
  end.

Definition heap_of (t : tree) : gmap addr Node := list_to_map (cells None t).

(** The state of a map object whose nodes form the tree [t]. *)
Definition stt (t : tree) (m : Z) : State := mkState (heap_of t) (rootp t) m.
Definition st_of (t : tree) : State := stt t (Z.of_nat (length (addrs t))).

(** One-hole contexts: the path from a node up to the root.  [Fr d a ...]
    is the node [a] with the hole as its left ([d = true]) or right child
    and [sib] as the other child. *)
Inductive frame := Fr (d : bool) (a : addr) (k v h : Z) (s : Stats) (sib : tree).

Definition fill (f : frame) (t : tree) : tree :=
  match f with
  | Fr true a k v h s sib => Nd a t k v h s sib
  | Fr false a k v h s sib => Nd a sib k v h s t
  end.

Fixpoint plug (ctx : list frame) (t : tree) : tree :=
  match ctx with
  | [] => t
  | f :: ctx' => plug ctx' (fill f t)
  end.

Definition frame_addr (f : frame) : addr := match f with Fr _ a _ _ _ _ _ => a end.
Definition frame_sib (f : frame) : tree := match f with Fr _ _ _ _ _ _ sib => sib end.

Definition ctx_parent (ctx : list frame) : ptr :=
  match ctx with [] => None | f :: _ => Some (frame_addr f) end.

Fixpoint addrs_ctx (ctx : list frame) : list addr :=
  match ctx with
  | [] => []
  | f :: ctx' => frame_addr f :: addrs (frame_sib f) ++ addrs_ctx ctx'
  end.

(** The node records of a context whose hole holds the pointer [c]. *)
Fixpoint cells_ctx (ctx : list frame) (c : ptr) : list (addr * Node) :=
  match ctx with
  | [] => []
  | Fr d a k v h s sib :: ctx' =>
      (a, mkNode k v (if d then c else rootp sib) (if d then rootp sib else c)
                 (ctx_parent ctx') h s)
        :: cells (Some a) sib ++ cells_ctx ctx' (Some a)
  end.

(** [holds h L]: the store [h] contains the records [L]. *)
Definition holds (h : gmap addr Node) (L : list (addr * Node)) : Prop :=
  Forall (fun c => h !! c.1 = Some c.2) L.

Section Representation.

Lemma cells_addrs p t : (cells p t).*1 = addrs t.
Proof.
  revert p; induction t as [|a l IHl k v h s r IHr]; intros p; simpl; [done|].
  by rewrite fmap_app, fmap_cons, IHl, IHr.
Qed.

Lemma inorder_addrs t : (inorder t).*1 = addrs t.
Proof.
  induction t as [|a l IHl k v h s r IHr]; simpl; [done|].
  by rewrite fmap_app, fmap_cons, IHl, IHr.
Qed.

Lemma cells_ctx_addrs ctx c : (cells_ctx ctx c).*1 = addrs_ctx ctx.
Proof.
  revert c; induction ctx as [|[d a k v h s sib] ctx IH]; intros c; simpl; [done|].
  by rewrite fmap_app, cells_addrs, IH.
Qed.

Lemma addrs_plug ctx t : addrs (plug ctx t) ≡ₚ addrs t ++ addrs_ctx ctx.
Proof.
  revert t; induction ctx as [|[d a k v h s sib] ctx IH]; intros t; simpl.
  - by rewrite app_nil_r.
  - rewrite IH. destruct d; simpl; solve_Permutation.
Qed.

Lemma holds_plug h ctx t :
  holds h (cells None (plug ctx t)) ↔
  holds h (cells (ctx_parent ctx) t) ∧ holds h (cells_ctx ctx (rootp t)).
Proof.
  unfold holds. revert t; induction ctx as [|[d a k v hh s sib] ctx IH]; intros t; simpl.
  - rewrite Forall_nil. tauto.
  - rewrite IH. destruct d; simpl;
      rewrite ?Forall_app, ?Forall_cons, ?Forall_app; tauto.
Qed.

Lemma holds_heap_of t : NoDup (addrs t) → holds (heap_of t) (cells None t).
Proof.
  intros Hnd. apply Forall_forall. intros [a x] Hin. simpl.
  apply elem_of_list_to_map_1; [by rewrite cells_addrs|done].
Qed.

Lemma dom_heap_of t : dom (heap_of t) = list_to_set (addrs t).
Proof. unfold heap_of. by rewrite dom_list_to_map_L, cells_addrs. Qed.

Lemma size_heap_of t : NoDup (addrs t) → size (heap_of t) = length (addrs t).
Proof.
  intros Hnd. unfold heap_of.
  rewrite <- size_dom, dom_list_to_map_L, cells_addrs.
  by rewrite size_list_to_set.
Qed.

(** A store that holds the records of [t] and nothing else is [heap_of t]. *)
Lemma heap_of_intro h t :
  NoDup (addrs t) →
  holds h (cells None t) →
  (∀ a, a ∈ dom h → a ∈ addrs t) →
  h = heap_of t.
Proof.
  intros Hnd Hh Hdom. apply map_eq. intros a.
  destruct (heap_of t !! a) as [x|] eqn:E.
  - apply elem_of_list_to_map_2 in E.
    unfold holds in Hh. rewrite Forall_forall in Hh. apply (Hh _ E).
  - destruct (h !! a) as [x|] eqn:E'; [|done].
    assert (a ∈ dom (heap_of t)) as Hin.
    { rewrite dom_heap_of. apply elem_of_list_to_set. apply Hdom.
      apply elem_of_dom. eauto. }
    apply elem_of_dom in Hin. rewrite E in Hin. by destruct Hin.
Qed.

Lemma holds_insert_ne h L a x :
  a ∉ L.*1 → holds h L → holds (<[a := x]> h) L.
Proof.
  unfold holds. rewrite !Forall_forall. intros Hni Hh [b y] Hin. simpl.
  rewrite lookup_insert_ne; [by apply (Hh _ Hin)|].
  intros ->. apply Hni. apply list_elem_of_fmap. by exists (b, y).
Qed.

Lemma holds_delete_ne h L a :
  a ∉ L.*1 → holds h L → holds (delete a h) L.
Proof.
  unfold holds. rewrite !Forall_forall. intros Hni Hh [b y] Hin. simpl.
  rewrite lookup_delete_ne; [by apply (Hh _ Hin)|].
  intros ->. apply Hni. apply list_elem_of_fmap. by exists (b, y).
Qed.

End Representation.

(** * Running member functions on a represented tree *)

Arguments bind : simpl never.
Arguments ret : simpl never.
Arguments fail : simpl never.
Arguments get : simpl never.
Arguments set : simpl never.
Arguments alloc : simpl never.
Arguments free : simpl never.
Arguments get_root : simpl never.
Arguments set_root : simpl never.
Arguments get_n : simpl never.
Arguments set_n : simpl never.
Arguments ptr_eqb : simpl never.
Arguments with_fuel : simpl never.

Section MonadSteps.
Context {A B : Type}.
Implicit Types (k : A → M B) (st : State).

Lemma bind_ret (x : A) k st : bind (ret x) k st = k x st.
Proof. done. Qed.

Lemma bind_bind {C} (m : M C) (f : C → M A) k st :
  bind (bind m f) k st = bind m (fun y => bind (f y) k) st.
Proof. unfold bind. by destruct (m st) as [[y st']|]. Qed.

Lemma bind_get (f : Node → A) a x k h r m :
  h !! a = Some x →
  bind (get f (Some a)) k (mkState h r m) = k (f x) (mkState h r m).
Proof. intros E. unfold bind, get. simpl. by rewrite E. Qed.

End MonadSteps.

Lemma bind_get_root {B} (k : ptr → M B) h r m :
  bind get_root k (mkState h r m) = k r (mkState h r m).
Proof. done. Qed.

Lemma bind_get_n {B} (k : Z → M B) h r m :
  bind get_n k (mkState h r m) = k m (mkState h r m).
Proof. done. Qed.

Section MonadStepsUnit.
Context {B : Type}.
Implicit Types (k : unit → M B).

Lemma bind_set a x g k h r m :
  h !! a = Some x →
  bind (set (Some a) g) k (mkState h r m) = k tt (mkState (<[a := g x]> h) r m).
Proof. intros E. unfold bind, set. simpl. by rewrite E. Qed.

Lemma bind_set_root p k h r m :
  bind (set_root p) k (mkState h r m) = k tt (mkState h p m).
Proof. done. Qed.

Lemma bind_set_n m' k h r m :
  bind (set_n m') k (mkState h r m) = k tt (mkState h r m').
Proof. done. Qed.

Lemma bind_free a x k h r m :
  h !! a = Some x →
  bind (free (Some a)) k (mkState h r m) = k tt (mkState (delete a h) r m).
Proof. intros E. unfold bind, free. simpl. by rewrite E. Qed.
End MonadStepsUnit.

Lemma run_set a x g h r m :
  h !! a = Some x →
  set (Some a) g (mkState h r m) = Some (tt, mkState (<[a := g x]> h) r m).
Proof. intros E. unfold set. simpl. by rewrite E. Qed.

Lemma ptr_eqb_refl p : ptr_eqb p p = true.
Proof. unfold ptr_eqb. by rewrite bool_decide_eq_true. Qed.

Lemma ptr_eqb_ne p q : p ≠ q → ptr_eqb p q = false.
Proof. unfold ptr_eqb. by rewrite bool_decide_eq_false. Qed.

Lemma rootp_ne t a : a ∉ addrs t → rootp t ≠ Some a.
Proof.
  destruct t; simpl; [done|]. intros Hni [= ->]. apply Hni.
  apply elem_of_app. right. apply list_elem_of_here.
Qed.

Lemma rootp_ne' t a : a ∉ addrs t → Some a ≠ rootp t.
Proof. intros H E. by apply (rootp_ne t a). Qed.

(** Reading the node in the hole of a context. *)
Lemma lookup_plug ctx a l k v h s r :
  NoDup (addrs (plug ctx (Nd a l k v h s r))) →
  heap_of (plug ctx (Nd a l k v h s r)) !! a
  = Some (mkNode k v (rootp l) (rootp r) (ctx_parent ctx) h s).
Proof.
  intros Hnd. pose proof (holds_heap_of _ Hnd) as Hh.
  apply holds_plug in Hh as [Hh _]. simpl in Hh. unfold holds in Hh.
  rewrite Forall_app, Forall_cons in Hh. by destruct Hh as (_ & Hh & _).
Qed.

(** The search of [findNode]: the context of the node it stops at, and the
    subtree there ([Leaf] when the key is absent). *)
Fixpoint descend (k : Z) (ctx : list frame) (t : tree) : list frame * tree :=
  match t with
  | Leaf => (ctx, Leaf)
  | Nd a l k' v h s r =>
      if k' =? k then (ctx, t)
      else if k' >? k then descend k (Fr true a k' v h s r :: ctx) l
           else descend k (Fr false a k' v h s l :: ctx) r
  end.

Definition last_visited (z : list frame * tree) : ptr :=
  match z.2 with Leaf => ctx_parent z.1 | Nd a _ _ _ _ _ _ => Some a end.

Lemma findNode_loop_spec k m sub : ∀ ctx fuel,
  NoDup (addrs (plug ctx sub)) →
  (length (addrs sub) < fuel)%nat →
  BSTMap.findNode_loop fuel k (rootp sub) (ctx_parent ctx) (stt (plug ctx sub) m)
  = Some (last_visited (descend k ctx sub), stt (plug ctx sub) m).
Proof.
  induction sub as [|a l IHl k' v h s r IHr]; intros ctx fuel Hnd Hfuel.
  - destruct fuel; [simpl in Hfuel; lia|]. done.
  - destruct fuel as [|fuel]; [simpl in Hfuel; lia|].
    simpl in Hfuel. rewrite length_app in Hfuel. simpl in Hfuel.
    simpl. unfold stt at 1.
    rewrite (bind_get _ _ _ _ _ _ _ (lookup_plug _ _ _ _ _ _ _ _ Hnd)). simpl.
    destruct (k' =? k) eqn:Ek; [done|].
    destruct (k' >? k) eqn:Eg.
    + rewrite (bind_get _ _ _ _ _ _ _ (lookup_plug _ _ _ _ _ _ _ _ Hnd)). simpl.
      apply (IHl (Fr true a k' v h s r :: ctx)); [done|lia].
    + rewrite (bind_get _ _ _ _ _ _ _ (lookup_plug _ _ _ _ _ _ _ _ Hnd)). simpl.
      apply (IHr (Fr false a k' v h s l :: ctx)); [done|lia].
Qed.

(** ** Symbolic execution on the store *)

Lemma bind_height {B} t p (k : Z → M B) h r m :
  holds h (cells p t) →
  bind (AVLTreeMap.height (rootp t)) k (mkState h r m) = k (ht_of t) (mkState h r m).
Proof.
  destruct t as [|a l kk v hh s rr]; simpl; [done|].
  unfold holds. rewrite Forall_app, Forall_cons. intros (_ & E & _).
  simpl in E. by rewrite (bind_get _ _ _ _ _ _ _ E).
Qed.

Lemma bind_info_or_null {B} t p (k : option Stats → M B) h r m :
  holds h (cells p t) →
  bind (TreeMapStats.info_or_null (rootp t)) k (mkState h r m)
  = k (info_of t) (mkState h r m).
Proof.
  destruct t as [|a l kk v hh s rr]; simpl; [done|].
  unfold holds. rewrite Forall_app, Forall_cons. intros (_ & E & _).
  simpl in E. rewrite bind_bind. by rewrite (bind_get _ _ _ _ _ _ _ E).
Qed.

Lemma bind_run {A B} (c : M A) (k : A → M B) st x st' :
  c st = Some (x, st') → bind c k st = k x st'.
Proof. intros E. unfold bind. by rewrite E. Qed.

Lemma bind_with_fuel {A B} (f : nat → M A) (k : A → M B) t m :
  NoDup (addrs t) →
  bind (with_fuel f) k (stt t m) = bind (f (S (length (addrs t)))) k (stt t m).
Proof. intros Hnd. unfold bind, with_fuel. simpl. by rewrite size_heap_of. Qed.

Lemma run_with_fuel {A} (f : nat → M A) t m :
  NoDup (addrs t) →
  with_fuel f (stt t m) = f (S (length (addrs t))) (stt t m).
Proof. intros Hnd. unfold with_fuel. simpl. by rewrite size_heap_of. Qed.

Lemma rootp_plug ctx t t' : rootp t = rootp t' → rootp (plug ctx t) = rootp (plug ctx t').
Proof.
  revert t t'. induction ctx as [|[[] a k v h s sib] ctx IH]; intros t t' E; simpl; [done|..];
    by apply IH.
Qed.

Lemma stt_intro h r m t :
  NoDup (addrs t) →
  holds h (cells None t) →
  (∀ a, a ∈ dom h → a ∈ addrs t) →
  r = rootp t →
  mkState h r m = stt t m.
Proof. intros Hnd Hh Hdom ->. unfold stt. f_equal. by apply heap_of_intro. Qed.

Lemma stt_plug_intro ctx sub h r m :
  NoDup (addrs (plug ctx sub)) →
  holds h (cells (ctx_parent ctx) sub) →
  holds h (cells_ctx ctx (rootp sub)) →
  (∀ a, a ∈ dom h → a ∈ addrs (plug ctx sub)) →
  r = rootp (plug ctx sub) →
  mkState h r m = stt (plug ctx sub) m.
Proof. intros Hnd Hh Hc Hdom ->. apply stt_intro; [done| |done..]. by apply holds_plug. Qed.

(** Side conditions on addresses are read off the decomposed [NoDup] of the
    addresses at hand. *)
Ltac nd_decomp H :=
  simpl in H; rewrite ?app_nil_r in H;
  repeat (rewrite NoDup_app in H || rewrite NoDup_cons in H);
  destruct_and? H.

Ltac mem :=
  first [ assumption
        | apply list_elem_of_here
        | apply list_elem_of_further; mem
        | apply elem_of_app; left; mem
        | apply elem_of_app; right; mem ].

Ltac nd_false a :=
  match goal with
  | H : a ∉ _ |- False => apply H; mem
  | H : ∀ x, x ∈ _ → x ∉ _ |- False => apply (H a); mem
  end.

Ltac nd_solve :=
  lazymatch goal with
  | |- ?a ∉ _ => let Hin := fresh in intros Hin; nd_false a
  | |- Some ?a ≠ Some ?b =>
      let Heq := fresh in intros Heq; injection Heq as Heq;
      first [ subst a; nd_false b | subst b; nd_false a ]
  | |- ?a ≠ ?b =>
      let Heq := fresh in intros Heq;
      first [ subst a; nd_false b | subst b; nd_false a ]
  end.

Ltac solve_ne :=
  first [ nd_solve | apply rootp_ne; nd_solve | apply rootp_ne'; nd_solve | done ].

Ltac heap_lookup :=
  repeat first [ rewrite lookup_insert_eq
               | rewrite lookup_insert_ne by solve_ne
               | rewrite lookup_delete_ne by solve_ne ];
  first [reflexivity | eassumption].

Ltac solve_holds :=
  repeat first
    [ apply holds_insert_ne; [rewrite ?cells_addrs, ?cells_ctx_addrs; nd_solve|]
    | apply holds_delete_ne; [rewrite ?cells_addrs, ?cells_ctx_addrs; nd_solve|] ];
  eassumption.

Ltac mstep :=
  lazymatch goal with
  | |- context [ptr_eqb ?p ?p] => rewrite (ptr_eqb_refl p)
  | |- context [ptr_eqb ?p ?q] =>
      first [ rewrite (ptr_eqb_ne p q) by solve_ne
            | rewrite (ptr_eqb_ne p q) by (apply not_eq_sym; solve_ne) ]
  | |- bind (bind _ _) _ _ = _ => rewrite bind_bind
  | |- bind (ret _) _ _ = _ => rewrite bind_ret
  | |- bind (get _ (Some _)) _ (mkState _ _ _) = _ =>
      erewrite bind_get; [|heap_lookup]
  | |- bind (set (Some _) _) _ (mkState _ _ _) = _ =>
      erewrite bind_set; [|heap_lookup]
  | |- bind (AVLTreeMap.height (rootp _)) _ (mkState _ _ _) = _ =>
      erewrite bind_height; [|solve_holds]
  | |- bind (AVLTreeMap.height (Some _)) _ (mkState _ _ _) = _ =>
      unfold AVLTreeMap.height at 1
  | |- bind (TreeMapStats.info_or_null (rootp _)) _ (mkState _ _ _) = _ =>
      erewrite bind_info_or_null; [|solve_holds]
  | |- bind (TreeMapStats.info_or_null (Some _)) _ (mkState _ _ _) = _ =>
      unfold TreeMapStats.info_or_null at 1
  | |- bind (TreeMapStats.info_or_null None) _ (mkState _ _ _) = _ =>
      unfold TreeMapStats.info_or_null at 1
  | |- bind (AVLTreeMap.height None) _ (mkState _ _ _) = _ =>
      unfold AVLTreeMap.height at 1
  | |- bind (set_root _) _ (mkState _ _ _) = _ => rewrite bind_set_root
  | |- bind get_root _ (mkState _ _ _) = _ => rewrite bind_get_root
  | |- bind (set_n _) _ (mkState _ _ _) = _ => rewrite bind_set_n
  | |- bind get_n _ (mkState _ _ _) = _ => rewrite bind_get_n
  | |- bind (free (Some _)) _ (mkState _ _ _) = _ =>
      erewrite bind_free; [|heap_lookup]
  | |- set (Some _) _ (mkState _ _ _) = _ =>
      erewrite run_set; [|heap_lookup]
  end; simpl.

Ltac fold_holds :=
  repeat match goal with
    | |- context [Forall (λ c, ?h !! c.1 = Some c.2) ?L] =>
        change (Forall (λ c, h !! c.1 = Some c.2) L) with (holds h L)
    end.

Ltac split_holds H :=
  unfold holds in H; simpl in H;
  rewrite ?Forall_app, ?Forall_cons, ?Forall_app, ?Forall_cons,
     ?Forall_app, ?Forall_cons, ?Forall_nil in H;
  simpl in H;
  repeat match type of H with
    | context [Forall (λ c, ?h !! c.1 = Some c.2) ?L] =>
        change (Forall (λ c, h !! c.1 = Some c.2) L) with (holds h L) in H
    end.

Ltac split_holds_goal :=
  simpl; unfold holds;
  rewrite ?Forall_app, ?Forall_cons, ?Forall_app, ?Forall_cons,
     ?Forall_app, ?Forall_cons, ?Forall_nil; simpl;
  fold_holds;
  split_and?; first [ solve_holds | heap_lookup | done ].

Ltac solve_dom Hdom :=
  let a := fresh "a" in let Ha := fresh "Ha" in let Hd := fresh "Hd" in
  intros a; rewrite ?dom_insert, ?dom_delete; rewrite ?addrs_plug; intros Ha;
  pose proof (Hdom a) as Hd; simpl in *; clear -Ha Hd; set_solver.

Ltac solve_nd Hnd0 :=
  eapply NoDup_Permutation_proper; [|exact Hnd0];
  rewrite ?addrs_plug; simpl; solve_Permutation.

(** Close a goal [Some (x, mkState h r m) = Some (x, stt t m)]. *)
Ltac finish_stt Hnd0 Hdom :=
  unfold ret; f_equal; f_equal;
  first
    [ apply stt_plug_intro;
      [ solve_nd Hnd0 | split_holds_goal | split_holds_goal | solve_dom Hdom
        | first [ by apply rootp_plug | done ] ]
    | apply stt_intro; [ solve_nd Hnd0 | split_holds_goal | solve_dom Hdom | done] ].

Lemma dom_heap_of_plug ctx t a :
  a ∈ dom (heap_of (plug ctx t)) → a ∈ addrs t ++ addrs_ctx ctx.
Proof. rewrite dom_heap_of, elem_of_list_to_set. by rewrite addrs_plug. Qed.

(** The facts a proof about the hole of a context starts from. *)
Ltac start_focus Hnd0 Hh Hctx Hdom Hnd h0 :=
  match goal with
  | |- context [stt (plug ?ctx ?t) _] =>
      pose proof (holds_heap_of _ Hnd0) as Hh;
      pose proof (dom_heap_of_plug ctx t) as Hdom;
      apply holds_plug in Hh as [Hh Hctx];
      pose proof Hnd0 as Hnd; rewrite addrs_plug in Hnd;
      unfold stt at 1;
      set (h0 := heap_of (plug ctx t)) in *; clearbody h0
  end.

(** The same for a function that only reads. *)
Ltac start_focus_ro Hnd0 Hh Hctx Hnd :=
  match goal with
  | |- context [stt (plug ?ctx ?t) _] =>
      pose proof (holds_heap_of _ Hnd0) as Hh;
      apply holds_plug in Hh as [Hh Hctx];
      pose proof Hnd0 as Hnd; rewrite addrs_plug in Hnd;
      unfold stt
  end.

(** ** Rotations *)

(** [AVLTreeMap::singleRotation(y, z)] for [y] the right child of [z]. *)
Definition arotL (t : tree) : tree :=
  match t with
  | Nd z A kz vz hz sz (Nd y B ky vy hy sy C) =>
      let hz' := Z.max (ht_of A) (ht_of B) + 1 in
      Nd y (Nd z A kz vz hz' sz B) ky vy (Z.max hz' (ht_of C) + 1) sy C
  | _ => t
  end.

(** [AVLTreeMap::singleRotation(y, z)] for [y] the left child of [z]. *)
Definition arotR (t : tree) : tree :=
  match t with
  | Nd z (Nd y A ky vy hy sy B) kz vz hz sz C =>
      let hz' := Z.max (ht_of B) (ht_of C) + 1 in
      Nd y A ky vy (Z.max (ht_of A) hz' + 1) sy (Nd z B kz vz hz' sz C)
  | _ => t
  end.

Lemma singleRotation_left ctx z A kz vz hz sz y B ky vy hy sy C m :
  let t := Nd z A kz vz hz sz (Nd y B ky vy hy sy C) in
  NoDup (addrs (plug ctx t)) →
  AVLTreeMap.singleRotation (Some y) (Some z) (stt (plug ctx t) m)
  = Some (tt, stt (plug ctx (arotL t)) m).
Proof.
  intros t Hnd0. subst t.
  start_focus Hnd0 Hh Hctx Hdom Hnd h0.
  unfold AVLTreeMap.singleRotation, BSTMap.makeChild, AVLTreeMap.resetHeight.
  destruct ctx as [|[[] p kp vp hp sp sib] ctx];
  destruct B as [|b Bl kb vb hb sb Br];
  split_holds Hh; split_holds Hctx; destruct_and?; nd_decomp Hnd;
  repeat mstep; finish_stt Hnd0 Hdom.
Qed.

Lemma singleRotation_right ctx z A ky vy hy sy y B kz vz hz sz C m :
  let t := Nd z (Nd y A ky vy hy sy B) kz vz hz sz C in
  NoDup (addrs (plug ctx t)) →
  AVLTreeMap.singleRotation (Some y) (Some z) (stt (plug ctx t) m)
  = Some (tt, stt (plug ctx (arotR t)) m).
Proof.
  intros t Hnd0. subst t.
  start_focus Hnd0 Hh Hctx Hdom Hnd h0.
  unfold AVLTreeMap.singleRotation, BSTMap.makeChild, AVLTreeMap.resetHeight.
  destruct ctx as [|[[] p kp vp hp sp sib] ctx];
  destruct B as [|b Bl kb vb hb sb Br];
  split_holds Hh; split_holds Hctx; destruct_and?; nd_decomp Hnd;
  repeat mstep; finish_stt Hnd0 Hdom.
Qed.

(** ** Operations on the node in the hole *)

Definition reset_t (t : tree) : tree :=
  match t with
  | Leaf => Leaf
  | Nd a l k v _ s r => Nd a l k v (Z.max (ht_of l) (ht_of r) + 1) s r
  end.

Definition refresh_t (t : tree) : tree :=
  match t with
  | Leaf => Leaf
  | Nd a l k v h _ r => Nd a l k v h (TreeMapStats.updateStats v (info_of l) (info_of r)) r
  end.

Definition balanced_t (t : tree) : bool :=
  match t with
  | Leaf => true
  | Nd _ l _ _ _ _ r => Z.abs (ht_of l - ht_of r) <=? 1
  end.

Definition tallest_left (breakLeft : bool) (t : tree) : bool :=
  match t with
  | Leaf => true
  | Nd _ l _ _ _ _ r => (ht_of l >? ht_of r) || ((ht_of l =? ht_of r) && breakLeft)
  end.

Section Focus.
Variables (ctx : list frame) (a : addr) (l r : tree) (k v h : Z) (s : Stats) (m : Z).
Let t := Nd a l k v h s r.
Hypothesis Hnd0 : NoDup (addrs (plug ctx t)).

Lemma get_spec {A} (f : Node → A) :
  get f (Some a) (stt (plug ctx t) m)
  = Some (f (mkNode k v (rootp l) (rootp r) (ctx_parent ctx) h s), stt (plug ctx t) m).
Proof. unfold get, stt. simpl. subst t. by rewrite lookup_plug. Qed.

Lemma height_spec :
  AVLTreeMap.height (Some a) (stt (plug ctx t) m) = Some (h, stt (plug ctx t) m).
Proof. unfold AVLTreeMap.height. by rewrite get_spec. Qed.

Lemma balanced_spec :
  AVLTreeMap.balanced (Some a) (stt (plug ctx t) m)
  = Some (balanced_t t, stt (plug ctx t) m).
Proof.
  subst t. start_focus_ro Hnd0 Hh Hctx Hnd.
  unfold AVLTreeMap.balanced.
  split_holds Hh; destruct_and?; nd_decomp Hnd.
  by repeat mstep.
Qed.

Lemma tallestChild_spec b :
  AVLTreeMap.tallestChild (Some a) b (stt (plug ctx t) m)
  = Some (if tallest_left b t then rootp l else rootp r, stt (plug ctx t) m).
Proof.
  subst t. start_focus_ro Hnd0 Hh Hctx Hnd.
  unfold AVLTreeMap.tallestChild.
  split_holds Hh; destruct_and?; nd_decomp Hnd.
  repeat mstep.
  destruct ((ht_of l >? ht_of r) || (ht_of l =? ht_of r) && b);
    unfold get; simpl; by match goal with H : _ !! a = _ |- _ => rewrite H end.
Qed.

Lemma resetHeight_spec :
  AVLTreeMap.resetHeight (Some a) (stt (plug ctx t) m)
  = Some (tt, stt (plug ctx (reset_t t)) m).
Proof.
  subst t. start_focus Hnd0 Hh Hctx Hdom Hnd h0.
  unfold AVLTreeMap.resetHeight.
  split_holds Hh; destruct_and?; nd_decomp Hnd.
  repeat mstep. finish_stt Hnd0 Hdom.
Qed.

Lemma updateInfo_spec :
  TreeMapStats.updateInfo (Some a) (rootp l) (rootp r) v (stt (plug ctx t) m)
  = Some (tt, stt (plug ctx (refresh_t t)) m).
Proof.
  subst t. start_focus Hnd0 Hh Hctx Hdom Hnd h0.
  unfold TreeMapStats.updateInfo.
  split_holds Hh; destruct_and?; nd_decomp Hnd.
  repeat mstep. finish_stt Hnd0 Hdom.
Qed.

Lemma set_key_spec k' :
  set (Some a) (with_key k') (stt (plug ctx t) m)
  = Some (tt, stt (plug ctx (Nd a l k' v h s r)) m).
Proof.
  subst t. start_focus Hnd0 Hh Hctx Hdom Hnd h0.
  split_holds Hh; destruct_and?; nd_decomp Hnd.
  repeat mstep. finish_stt Hnd0 Hdom.
Qed.

Lemma set_value_spec v' :
  set (Some a) (with_value v') (stt (plug ctx t) m)
  = Some (tt, stt (plug ctx (Nd a l k v' h s r)) m).
Proof.
  subst t. start_focus Hnd0 Hh Hctx Hdom Hnd h0.
  split_holds Hh; destruct_and?; nd_decomp Hnd.
  repeat mstep. finish_stt Hnd0 Hdom.
Qed.
End Focus.

(** ** The statistics walk *)

Definition frame_info (f : frame) : Stats := match f with Fr _ _ _ _ _ s _ => s end.

(** [updateInfo] at the node of a frame whose hole holds a subtree with
    statistics [c]. *)
Definition refresh_frame (c : option Stats) (f : frame) : frame :=
  match f with
  | Fr d a k v h _ sib =>
      Fr d a k v h (TreeMapStats.updateStats v (if d then c else info_of sib)
                                                (if d then info_of sib else c)) sib
  end.

Fixpoint refresh_ctx (c : option Stats) (ctx : list frame) : list frame :=
  match ctx with
  | [] => []
  | f :: ctx' =>
      let f' := refresh_frame c f in
      f' :: refresh_ctx (Some (frame_info f')) ctx'
  end.

(** [updateTree] from the node in the hole. *)
Definition updateTree_z (ctx : list frame) (t : tree) : list frame * tree :=
  (refresh_ctx (info_of (refresh_t t)) ctx, refresh_t t).

Lemma fill_refresh f t :
  fill (refresh_frame (info_of t) f) t = refresh_t (fill f t).
Proof. by destruct f as [[] a k v h s sib]. Qed.

Lemma rootp_fill f t : rootp (fill f t) = Some (frame_addr f).
Proof. by destruct f as [[] a k v h s sib]. Qed.

Lemma info_of_fill f t : info_of (fill f t) = Some (frame_info f).
Proof. by destruct f as [[] a k v h s sib]. Qed.

Lemma refresh_ctx_length c ctx : length (refresh_ctx c ctx) = length ctx.
Proof. revert c; induction ctx as [|f ctx IH]; intros c; simpl; [done|]. by rewrite IH. Qed.

Lemma updateTree_loop_spec m ctx : ∀ t fuel,
  t ≠ Leaf →
  NoDup (addrs (plug ctx t)) →
  (S (length ctx) < fuel)%nat →
  TreeMapStats.updateTree_loop fuel (rootp t) (stt (plug ctx t) m)
  = Some (tt, stt (plug (updateTree_z ctx t).1 (updateTree_z ctx t).2) m).
Proof.
  induction ctx as [|f ctx IH]; intros t fuel Ht Hnd Hfuel;
    (destruct t as [|a l k v h s r]; [done|]);
    (destruct fuel as [|fuel]; [simpl in Hfuel; lia|]); simpl in Hfuel; simpl.
  - rewrite (bind_run _ _ _ _ _ (get_spec [] a l r k v h s m Hnd _)).
    rewrite (bind_run _ _ _ _ _ (get_spec [] a l r k v h s m Hnd _)).
    rewrite (bind_run _ _ _ _ _ (get_spec [] a l r k v h s m Hnd _)).
    rewrite (bind_run _ _ _ _ _ (get_spec [] a l r k v h s m Hnd _)).
    simpl.
    rewrite (bind_run _ _ _ _ _ (updateInfo_spec [] a l r k v h s m Hnd)).
    destruct fuel; [lia|]. done.
  - rewrite (bind_run _ _ _ _ _ (get_spec (f :: ctx) a l r k v h s m Hnd _)).
    rewrite (bind_run _ _ _ _ _ (get_spec (f :: ctx) a l r k v h s m Hnd _)).
    rewrite (bind_run _ _ _ _ _ (get_spec (f :: ctx) a l r k v h s m Hnd _)).
    rewrite (bind_run _ _ _ _ _ (get_spec (f :: ctx) a l r k v h s m Hnd _)).
    simpl.
    rewrite (bind_run _ _ _ _ _ (updateInfo_spec (f :: ctx) a l r k v h s m Hnd)).
    simpl.
    set (t' := Nd a l k v h (TreeMapStats.updateStats v (info_of l) (info_of r)) r).
    assert (NoDup (addrs (plug ctx (fill f t')))) as Hnd'.
    { revert Hnd. simpl. rewrite !addrs_plug. by destruct f as [[] ? ? ? ? ? ?]. }
    rewrite <- (rootp_fill f t').
    rewrite (IH (fill f t') fuel); [| by destruct f as [[] ? ? ? ? ? ?] | done | lia].
    unfold updateTree_z. simpl.
    change (Some (TreeMapStats.updateStats v (info_of l) (info_of r))) with (info_of t').
    rewrite <- fill_refresh. by rewrite info_of_fill.
Qed.

Lemma length_addrs_plug ctx t :
  length (addrs (plug ctx t)) = (length (addrs t) + length (addrs_ctx ctx))%nat.
Proof. by rewrite addrs_plug, length_app. Qed.

Lemma length_addrs_ctx ctx : (length ctx ≤ length (addrs_ctx ctx))%nat.
Proof.
  induction ctx as [|f ctx IH]; simpl; [lia|]. rewrite length_app. lia.
Qed.

Lemma fuel_plug ctx t :
  t ≠ Leaf → (S (length ctx) < S (length (addrs (plug ctx t))))%nat.
Proof.
  intros Ht. rewrite length_addrs_plug. pose proof (length_addrs_ctx ctx).
  destruct t; [done|]. simpl. rewrite length_app. simpl. lia.
Qed.

Lemma updateTree_spec m ctx t :
  t ≠ Leaf →
  NoDup (addrs (plug ctx t)) →
  TreeMapStats.updateTree (rootp t) (stt (plug ctx t) m)
  = Some (tt, stt (plug (updateTree_z ctx t).1 (updateTree_z ctx t).2) m).
Proof.
  intros Ht Hnd. destruct t as [|a l k v h s r]; [done|]. unfold TreeMapStats.updateTree.
  simpl rootp. cbv iota. etrans; [apply (run_with_fuel _ _ _ Hnd)|].
  apply (updateTree_loop_spec m ctx (Nd a l k v h s r)); [done..|].
  by apply fuel_plug.
Qed.

(** [TreeMapStats::singleRotation(y, z)] for [y] the right child of [z]:
    the rotation, then the statistics of [z], then the walk from [y]. *)
Definition srotL (ctx : list frame) (t : tree) : list frame * tree :=
  match arotL t with
  | Nd y Z ky vy hy sy C => updateTree_z ctx (Nd y (refresh_t Z) ky vy hy sy C)
  | Leaf => (ctx, Leaf)
  end.

(** The same for [y] the left child of [z]. *)
Definition srotR (ctx : list frame) (t : tree) : list frame * tree :=
  match arotR t with
  | Nd y A ky vy hy sy Z => updateTree_z ctx (Nd y A ky vy hy sy (refresh_t Z))
  | Leaf => (ctx, Leaf)
  end.

Lemma tms_singleRotation_left ctx z A kz vz hz sz y B ky vy hy sy C m :
  let t := Nd z A kz vz hz sz (Nd y B ky vy hy sy C) in
  NoDup (addrs (plug ctx t)) →
  TreeMapStats.singleRotation (Some y) (Some z) (stt (plug ctx t) m)
  = Some (tt, stt (plug (srotL ctx t).1 (srotL ctx t).2) m).
Proof.
  intros t Hnd. subst t. unfold TreeMapStats.singleRotation.
  rewrite (bind_run _ _ _ _ _ (singleRotation_left ctx z A kz vz hz sz y B ky vy hy sy C m Hnd)).
  assert (NoDup (addrs (plug ctx (arotL (Nd z A kz vz hz sz (Nd y B ky vy hy sy C)))))) as Hnd'.
  { solve_nd Hnd. }
  simpl arotL in *.
  set (hz' := ht_of A `max` ht_of B + 1) in *.
  set (hy' := hz' `max` ht_of C + 1) in *.
  pose proof (fun T => @get_spec (Fr true y ky vy hy' sy C :: ctx) z A B kz vz hz' sz m Hnd' T) as Hg.
  simpl plug in Hg.
  rewrite (bind_run _ _ _ _ _ (Hg _ _)).
  rewrite (bind_run _ _ _ _ _ (Hg _ _)).
  rewrite (bind_run _ _ _ _ _ (Hg _ _)). cbn [left right value].
  pose proof (updateInfo_spec (Fr true y ky vy hy' sy C :: ctx) z A B kz vz hz' sz m Hnd') as Hu.
  simpl plug in Hu.
  rewrite (bind_run _ _ _ _ _ Hu).
  apply (updateTree_spec m ctx
           (Nd y (refresh_t (Nd z A kz vz hz' sz B)) ky vy hy' sy C)); [done|].
  revert Hnd'. by rewrite !addrs_plug.
Qed.

Lemma tms_singleRotation_right ctx z A ky vy hy sy y B kz vz hz sz C m :
  let t := Nd z (Nd y A ky vy hy sy B) kz vz hz sz C in
  NoDup (addrs (plug ctx t)) →
  TreeMapStats.singleRotation (Some y) (Some z) (stt (plug ctx t) m)
  = Some (tt, stt (plug (srotR ctx t).1 (srotR ctx t).2) m).
Proof.
  intros t Hnd. subst t. unfold TreeMapStats.singleRotation.
  rewrite (bind_run _ _ _ _ _ (singleRotation_right ctx z A ky vy hy sy y B kz vz hz sz C m Hnd)).
  assert (NoDup (addrs (plug ctx (arotR (Nd z (Nd y A ky vy hy sy B) kz vz hz sz C))))) as Hnd'.
  { solve_nd Hnd. }
  simpl arotR in *.
  set (hz' := ht_of B `max` ht_of C + 1) in *.
  set (hy' := ht_of A `max` hz' + 1) in *.
  pose proof (fun T => @get_spec (Fr false y ky vy hy' sy A :: ctx) z B C kz vz hz' sz m Hnd' T) as Hg.
  simpl plug in Hg.
  rewrite (bind_run _ _ _ _ _ (Hg _ _)).
  rewrite (bind_run _ _ _ _ _ (Hg _ _)).
  rewrite (bind_run _ _ _ _ _ (Hg _ _)). cbn [left right value].
  pose proof (updateInfo_spec (Fr false y ky vy hy' sy A :: ctx) z B C kz vz hz' sz m Hnd') as Hu.
  simpl plug in Hu.
  rewrite (bind_run _ _ _ _ _ Hu).
  apply (updateTree_spec m ctx
           (Nd y A ky vy hy' sy (refresh_t (Nd z B kz vz hz' sz C)))); [done|].
  revert Hnd'. by rewrite !addrs_plug.
Qed.

(** ** Rebalancing *)

(** [AVLTreeMap::rebalance(z)] on a [TreeMapStats] object, for [z] the node
    in the hole; [None] where the code would dereference NULL. *)
Definition rebalance_z (ctx : list frame) (t : tree) : option (list frame * tree) :=
  match t with
  | Nd z L kz vz hz sz R =>
      if tallest_left true t then
        match L with
        | Nd y A ky vy hy sy B =>
            if tallest_left true L then Some (srotR ctx t)
            else
              match B with
              | Nd _ _ _ _ _ _ _ =>
                  let z1 := srotL (Fr true z kz vz hz sz R :: ctx) L in
                  match z1.1 with
                  | f :: ctx1 => Some (srotR ctx1 (fill f z1.2))
                  | [] => None
                  end
              | Leaf => None
              end
        | Leaf => None
        end
      else
        match R with
        | Nd y B ky vy hy sy C =>
            if tallest_left false R then
              match B with
              | Nd _ _ _ _ _ _ _ =>
                  let z1 := srotR (Fr false z kz vz hz sz L :: ctx) R in
                  match z1.1 with
                  | f :: ctx1 => Some (srotL ctx1 (fill f z1.2))
                  | [] => None
                  end
              | Leaf => None
              end
            else Some (srotL ctx t)
        | Leaf => None
        end
  | Leaf => None
  end.

Lemma addrs_ctx_refresh c ctx : addrs_ctx (refresh_ctx c ctx) = addrs_ctx ctx.
Proof.
  revert c; induction ctx as [|[d a k v h s sib] ctx IH]; intros c; simpl; [done|].
  by rewrite IH.
Qed.

Ltac solve_nd_r Hnd0 :=
  eapply NoDup_Permutation_proper; [|exact Hnd0];
  rewrite ?addrs_plug, ?addrs_ctx_refresh; simpl; solve_Permutation.

Ltac run_spec H := rewrite (bind_run _ _ _ _ _ H); cbn [left right parent key value ht info].

Lemma rebalance_spec ctx z L kz vz hz sz R m res :
  let t := Nd z L kz vz hz sz R in
  NoDup (addrs (plug ctx t)) →
  rebalance_z ctx t = Some res →
  TreeMapStats.rebalance (Some z) (stt (plug ctx t) m)
  = Some (rootp res.2, stt (plug res.1 res.2) m).
Proof.
  intros t Hnd0 Hres. subst t.
  unfold TreeMapStats.rebalance, AVLTreeMap.rebalance, AVLTreeMap.doubleRotation.
  pose proof (fun T => @get_spec ctx z L R kz vz hz sz m Hnd0 T) as Hgz.
  run_spec (tallestChild_spec ctx z L R kz vz hz sz m Hnd0 true).
  unfold rebalance_z in Hres.
  destruct (tallest_left true (Nd z L kz vz hz sz R)) eqn:Ez.
  - destruct L as [|y A ky vy hy sy B]; [done|]. simpl rootp.
    assert (NoDup (addrs (plug (Fr true z kz vz hz sz R :: ctx) (Nd y A ky vy hy sy B)))) as Hndy by done.
    pose proof (fun T => @get_spec _ y A B ky vy hy sy m Hndy T) as Hgy. simpl plug in Hgy.
    pose proof (tallestChild_spec _ y A B ky vy hy sy m Hndy) as Hty. simpl plug in Hty.
    pose proof Hnd0 as Hnd. rewrite addrs_plug in Hnd. nd_decomp Hnd.
    run_spec (Hty true).
    run_spec (Hgz _ right).
    rewrite (ptr_eqb_ne (rootp R) (Some y)) by solve_ne.
    rewrite bind_ret.
    run_spec (Hgz _ left). run_spec (Hgy _ left).
    run_spec (Hgz _ right). run_spec (Hgy _ right).
    cbn [rootp]. rewrite (ptr_eqb_refl (Some y)). rewrite (ptr_eqb_ne (Some y) (rootp R)) by solve_ne.
    destruct (tallest_left true (Nd y A ky vy hy sy B)) eqn:Ey.
    + rewrite ptr_eqb_refl. simpl. injection Hres as <-.
      run_spec (tms_singleRotation_right ctx z A ky vy hy sy y B kz vz hz sz R m Hnd0).
      done.
    + destruct B as [|x B1 kx vx hx sx B2]; [done|].
      cbn [rootp]. rewrite (ptr_eqb_ne (Some x) (rootp A)) by solve_ne.
      cbn [andb orb].
      rewrite bind_bind.
      pose proof (tms_singleRotation_left (Fr true z kz vz hz sz R :: ctx)
                  y A ky vy hy sy x B1 kx vx hx sx B2 m Hndy) as Hl.
      simpl in Hl. run_spec Hl.
      simpl in Hres. injection Hres as <-.
      match goal with
      | |- context [stt (plug ?c (Nd z (Nd x ?Y ?k1 ?v1 ?h1 ?s1 ?Bb) kz vz hz ?s2 R)) m] =>
          pose proof (tms_singleRotation_right c z Y k1 v1 h1 s1 x Bb kz vz hz s2 R m) as Hr
      end.
      simpl in Hr.
      match type of Hr with ?P → _ => assert P as Hnd1 by solve_nd_r Hnd0 end.
      run_spec (Hr Hnd1). done.
  - destruct R as [|y B ky vy hy sy C]; [done|]. cbn [rootp].
    assert (NoDup (addrs (plug (Fr false z kz vz hz sz L :: ctx) (Nd y B ky vy hy sy C)))) as Hndy by done.
    pose proof (fun T => @get_spec _ y B C ky vy hy sy m Hndy T) as Hgy. simpl plug in Hgy.
    pose proof (tallestChild_spec _ y B C ky vy hy sy m Hndy) as Hty. simpl plug in Hty.
    pose proof Hnd0 as Hnd. rewrite addrs_plug in Hnd. nd_decomp Hnd.
    run_spec (Hty true).
    run_spec (Hgz _ right). cbn [rootp].
    rewrite (ptr_eqb_refl (Some y)).
    run_spec (Hty false).
    run_spec (Hgz _ left). run_spec (Hgy _ left).
    run_spec (Hgz _ right). run_spec (Hgy _ right).
    cbn [rootp]. rewrite (ptr_eqb_refl (Some y)). rewrite (ptr_eqb_ne (Some y) (rootp L)) by solve_ne.
    cbn [andb orb].
    destruct (tallest_left false (Nd y B ky vy hy sy C)) eqn:Ey.
    + destruct B as [|x B1 kx vx hx sx B2]; [done|].
      cbn [rootp]. rewrite (ptr_eqb_ne (Some x) (rootp C)) by solve_ne.
      rewrite bind_bind.
      pose proof (tms_singleRotation_right (Fr false z kz vz hz sz L :: ctx)
                  y B1 kx vx hx sx x B2 ky vy hy sy C m Hndy) as Hl.
      simpl in Hl. run_spec Hl.
      simpl in Hres. injection Hres as <-.
      match goal with
      | |- context [stt (plug ?c (Nd z L kz vz hz ?s2 (Nd x ?Bb ?k1 ?v1 ?h1 ?s1 ?Y))) m] =>
          pose proof (tms_singleRotation_left c z L kz vz hz s2 x Bb k1 v1 h1 s1 Y m) as Hr
      end.
      simpl in Hr.
      match type of Hr with ?P → _ => assert P as Hnd1 by solve_nd_r Hnd0 end.
      run_spec (Hr Hnd1). done.
    + rewrite ptr_eqb_refl. injection Hres as <-.
      run_spec (tms_singleRotation_left ctx z L kz vz hz sz y B ky vy hy sy C m Hnd0).
      done.
Qed.

(** ** The walk of [rebalanceAncestors] *)

(** The entries to the left and to the right of the hole. *)
Fixpoint lefts (ctx : list frame) : list (addr * (Z * Z)) :=
  match ctx with
  | [] => []
  | Fr true _ _ _ _ _ _ :: ctx' => lefts ctx'
  | Fr false a k v _ _ sib :: ctx' => lefts ctx' ++ inorder sib ++ [(a, (k, v))]
  end.

Fixpoint rights (ctx : list frame) : list (addr * (Z * Z)) :=
  match ctx with
  | [] => []
  | Fr true a k v _ _ sib :: ctx' => (a, (k, v)) :: inorder sib ++ rights ctx'
  | Fr false _ _ _ _ _ _ :: ctx' => rights ctx'
  end.

Lemma inorder_plug ctx t : inorder (plug ctx t) = lefts ctx ++ inorder t ++ rights ctx.
Proof.
  revert t. induction ctx as [|[[] a k v h s sib] ctx IH]; intros t; simpl.
  - by rewrite app_nil_r.
  - rewrite IH. simpl. by rewrite <- !app_assoc.
  - rewrite IH. simpl. by rewrite <- !app_assoc.
Qed.

Lemma lefts_refresh c ctx : lefts (refresh_ctx c ctx) = lefts ctx.
Proof.
  revert c; induction ctx as [|[[] a k v h s sib] ctx IH]; intros c; simpl; [done|..];
    by rewrite IH.
Qed.

Lemma rights_refresh c ctx : rights (refresh_ctx c ctx) = rights ctx.
Proof.
  revert c; induction ctx as [|[[] a k v h s sib] ctx IH]; intros c; simpl; [done|..];
    by rewrite IH.
Qed.

Lemma ctx_parent_refresh c ctx : ctx_parent (refresh_ctx c ctx) = ctx_parent ctx.
Proof. by destruct ctx as [|[d a k v h s sib] ctx]. Qed.

Lemma refresh_ctx_idem c c' ctx : refresh_ctx c (refresh_ctx c' ctx) = refresh_ctx c ctx.
Proof.
  revert c c'; induction ctx as [|[d a k v h s sib] ctx IH]; intros c c'; simpl; [done|].
  by rewrite IH.
Qed.

Lemma inorder_refresh_t t : inorder (refresh_t t) = inorder t.
Proof. by destruct t. Qed.

Lemma inorder_reset_t t : inorder (reset_t t) = inorder t.
Proof. by destruct t. Qed.

(** What a rebalancing step returns: the context with its statistics
    recomputed, and a nonempty subtree with the same entries in order. *)
Definition step_result (ctx : list frame) (t : tree) (res : list frame * tree) : Prop :=
  (∃ c, res.1 = refresh_ctx c ctx) ∧ res.2 ≠ Leaf ∧ inorder res.2 = inorder t.

Lemma srotL_result ctx z A kz vz hz sz y B ky vy hy sy C :
  let t := Nd z A kz vz hz sz (Nd y B ky vy hy sy C) in
  step_result ctx t (srotL ctx t).
Proof.
  simpl. split; [by eexists|]. split; [done|]. simpl.
  by rewrite <- app_assoc.
Qed.

Lemma srotR_result ctx z A ky vy hy sy y B kz vz hz sz C :
  let t := Nd z (Nd y A ky vy hy sy B) kz vz hz sz C in
  step_result ctx t (srotR ctx t).
Proof.
  simpl. split; [by eexists|]. split; [done|]. simpl.
  by rewrite <- app_assoc.
Qed.

Lemma rebalance_z_result ctx t res :
  rebalance_z ctx t = Some res → step_result ctx t res.
Proof.
  unfold rebalance_z.
  destruct t as [|z L kz vz hz sz R]; [done|].
  destruct (tallest_left true _).
  - destruct L as [|y A ky vy hy sy B]; [done|].
    destruct (tallest_left true _).
    + intros [= <-]. apply srotR_result.
    + destruct B as [|x B1 kx vx hx sx B2]; [done|].
      simpl. intros [= <-]. split; [|split; [done|]]; simpl.
      * eexists. by rewrite refresh_ctx_idem.
      * by repeat (rewrite <- app_assoc; simpl).
  - destruct R as [|y B ky vy hy sy C]; [done|].
    destruct (tallest_left false _).
    + destruct B as [|x B1 kx vx hx sx B2]; [done|].
      simpl. intros [= <-]. split; [|split; [done|]]; simpl.
      * eexists. by rewrite refresh_ctx_idem.
      * by repeat (rewrite <- app_assoc; simpl).
    + intros [= <-]. apply srotL_result.
Qed.

(** One iteration of the loop at the node in the hole. *)
Definition step_z (ctx : list frame) (t : tree) : option (list frame * tree) :=
  if balanced_t t then Some (ctx, reset_t t) else rebalance_z ctx t.

(** The loop from the node in the hole; [fuel] bounds the nodes visited. *)
Fixpoint rebal (fuel : nat) (ctx : list frame) (t : tree) : option tree :=
  match fuel with
  | O => None
  | S fuel' =>
      match t with
      | Leaf => Some (plug ctx t)
      | Nd _ _ _ _ _ _ _ =>
          match step_z ctx t with
          | None => None
          | Some (ctx1, t1) =>
              if ht_of t =? ht_of t1 then Some (plug ctx1 t1)
              else
                match ctx1 with
                | [] => Some t1
                | f :: ctx' => rebal fuel' ctx' (fill f t1)
                end
          end
      end
  end.

Lemma step_z_result ctx t res :
  t ≠ Leaf → step_z ctx t = Some res →
  (res.1 = ctx ∨ ∃ c, res.1 = refresh_ctx c ctx) ∧ res.2 ≠ Leaf ∧ inorder res.2 = inorder t.
Proof.
  unfold step_z. intros Ht. destruct (balanced_t t).
  - intros [= <-]. simpl. split; [by left|]. split; [by destruct t|].
    apply inorder_reset_t.
  - intros H. destruct (rebalance_z_result _ _ _ H) as (Hc & Hn & Hi). eauto.
Qed.

Lemma addrs_plug_inorder ctx t ctx' t' :
  inorder (plug ctx' t') = inorder (plug ctx t) →
  addrs (plug ctx' t') = addrs (plug ctx t).
Proof. intros E. by rewrite <- !inorder_addrs, E. Qed.

Lemma step_z_inorder ctx t res :
  t ≠ Leaf → step_z ctx t = Some res →
  inorder (plug res.1 res.2) = inorder (plug ctx t).
Proof.
  intros Ht H. destruct (step_z_result _ _ _ Ht H) as (Hc & _ & Hi).
  rewrite !inorder_plug, Hi.
  destruct Hc as [->|[c ->]]; [done|]. by rewrite lefts_refresh, rights_refresh.
Qed.

Lemma step_z_spec ctx a l k v h s r m res :
  let t := Nd a l k v h s r in
  NoDup (addrs (plug ctx t)) →
  step_z ctx t = Some res →
  (b <- AVLTreeMap.balanced (Some a) ;;
   if b then AVLTreeMap.resetHeight (Some a) ;; ret (Some a)
   else
     w' <- TreeMapStats.rebalance (Some a) ;;
     (if ctx_parent ctx is Some _ then ret tt else set_root w') ;;
     ret w') (stt (plug ctx t) m)
  = Some (rootp res.2, stt (plug res.1 res.2) m).
Proof.
  intros t Hnd Hres. subst t.
  run_spec (balanced_spec ctx a l r k v h s m Hnd).
  unfold step_z in Hres. destruct (balanced_t _).
  - injection Hres as <-.
    run_spec (resetHeight_spec ctx a l r k v h s m Hnd). done.
  - run_spec (rebalance_spec ctx a l k v h s r m res Hnd Hres).
    destruct (rebalance_z_result _ _ _ Hres) as ([c Hc] & Hn & Hi).
    destruct ctx as [|f ctx]; simpl ctx_parent; cbv iota.
    + rewrite Hc. simpl. unfold stt at 1. by rewrite bind_set_root.
    + by rewrite bind_ret.
Qed.

Lemma rebal_spec m : ∀ j ctx t fuel res,
  NoDup (addrs (plug ctx t)) →
  rebal j ctx t = Some res →
  (j < fuel)%nat →
  AVLTreeMap.rebalanceAncestors_loop TreeMapStats.singleRotation fuel (rootp t)
    (stt (plug ctx t) m)
  = Some (tt, stt res m).
Proof.
  induction j as [|j IH]; intros ctx t fuel res Hnd Hres Hfuel; [done|].
  destruct fuel as [|fuel]; [lia|].
  destruct t as [|a l k v h s r].
  { simpl in *. by injection Hres as <-. }
  simpl in Hres. cbn [AVLTreeMap.rebalanceAncestors_loop rootp].
  destruct (step_z ctx (Nd a l k v h s r)) as [[ctx1 t1]|] eqn:Est; [|done].
  run_spec (get_spec ctx a l r k v h s m Hnd parent).
  run_spec (height_spec ctx a l r k v h s m Hnd).
  rewrite <- bind_bind.
  pose proof (step_z_spec ctx a l k v h s r m _ Hnd Est) as Hst. simpl in Hst.
  change TreeMapStats.rebalance with (AVLTreeMap.rebalance TreeMapStats.singleRotation) in Hst.
  run_spec Hst. clear Hst.
  assert (Nd a l k v h s r ≠ Leaf) as Hne by done.
  destruct (step_z_result _ _ _ Hne Est) as (Hc & Hn & Hi). simpl in Hc, Hn, Hi.
  assert (NoDup (addrs (plug ctx1 t1))) as Hnd1.
  { rewrite (addrs_plug_inorder ctx (Nd a l k v h s r)); [done|].
    apply (step_z_inorder _ _ _ Hne Est). }
  destruct t1 as [|a1 l1 k1 v1 h1 s1 r1]; [done|].
  run_spec (height_spec ctx1 a1 l1 r1 k1 v1 h1 s1 m Hnd1).
  simpl ht_of in Hres.
  destruct (h =? h1).
  - injection Hres as <-. destruct fuel; [lia|]. done.
  - assert (ctx_parent ctx = ctx_parent ctx1) as ->.
    { destruct Hc as [->|[c ->]]; [done|]. by rewrite ctx_parent_refresh. }
    destruct ctx1 as [|f ctx1].
    + injection Hres as <-. destruct fuel; [lia|]. done.
    + simpl ctx_parent. rewrite <- (rootp_fill f (Nd a1 l1 k1 v1 h1 s1 r1)).
      apply (IH ctx1 (fill f (Nd a1 l1 k1 v1 h1 s1 r1))); [done|done|lia].
Qed.

(** ** Insertion in the search tree *)

Lemma descend_plug k t : ∀ ctx,
  plug (descend k ctx t).1 (descend k ctx t).2 = plug ctx t.
Proof.
  induction t as [|a l IHl k' v h s r IHr]; intros ctx; simpl; [done|].
  destruct (k' =? k); [done|]. destruct (k' >? k).
  - by rewrite IHl.
  - by rewrite IHr.
Qed.

Lemma descend_found k t : ∀ ctx a l k' v h s r,
  (descend k ctx t).2 = Nd a l k' v h s r → k' = k.
Proof.
  induction t as [|a0 l0 IHl k0 v0 h0 s0 r0 IHr]; intros ctx a l k' v h s r; simpl; [done|].
  destruct (k0 =? k) eqn:E.
  - simpl. intros [= -> -> -> -> -> -> ->]. lia.
  - destruct (k0 >? k); eauto.
Qed.

(** A frame the search for [k] went through: its key differs from [k] and
    the hole is on the side of [k]. *)
Definition on_path (k : Z) (f : frame) : Prop :=
  match f with Fr d _ k' _ _ _ _ => k' ≠ k ∧ d = (k' >? k) end.

Lemma descend_on_path k t : ∀ ctx,
  Forall (on_path k) ctx → Forall (on_path k) (descend k ctx t).1.
Proof.
  induction t as [|a l IHl k' v h s r IHr]; intros ctx Hctx; simpl; [done|].
  destruct (k' =? k) eqn:E; [done|].
  destruct (k' >? k) eqn:E'.
  - apply IHl. constructor; [|done]. simpl. split; [lia|done].
  - apply IHr. constructor; [|done]. simpl. split; [lia|done].
Qed.

Lemma findNode_spec k t m :
  NoDup (addrs t) →
  BSTMap.findNode k (stt t m) = Some (last_visited (descend k [] t), stt t m).
Proof.
  intros Hnd. unfold BSTMap.findNode. unfold stt at 1. rewrite bind_get_root.
  etrans; [apply (run_with_fuel _ _ _ Hnd)|].
  apply (findNode_loop_spec k m t []); [done|lia].
Qed.

Lemma bind_alloc {B} x (k : ptr → M B) h r m :
  bind (alloc x) k (mkState h r m)
  = k (Some (fresh (dom h))) (mkState (<[fresh (dom h) := x]> h) r m).
Proof. done. Qed.

Definition new_leaf (x : addr) (k v : Z) : tree :=
  Nd x Leaf k v 1 (mkStats 1 v v v) Leaf.

Definition next_addr (t : tree) : addr := fresh (dom (heap_of t)).

Lemma next_addr_fresh t : next_addr t ∉ addrs t.
Proof.
  unfold next_addr. intros Hin.
  pose proof (is_fresh (dom (heap_of t))) as Hf. apply Hf.
  rewrite dom_heap_of in *. by apply elem_of_list_to_set.
Qed.

(** [BSTMap::putNode]: the context of the node that holds [k] afterwards,
    and that node ([x] is the address of a new node). *)
Definition put_z (x : addr) (k v : Z) (t : tree) : list frame * tree :=
  let z := descend k [] t in
  match z.2 with
  | Leaf => (z.1, new_leaf x k v)
  | Nd a l _ _ h s r => (z.1, Nd a l k v h s r)
  end.

Lemma putNode_leaf_spec ctx k v m :
  let x := next_addr (plug ctx Leaf) in
  NoDup (addrs (plug ctx Leaf)) →
  Forall (on_path k) ctx →
  (x0 <- TreeMapStats.createNode k v None None (ctx_parent ctx) ;;
   (if ctx_parent ctx is Some _ then
      wk <- get key (ctx_parent ctx) ;;
      BSTMap.makeChild (ctx_parent ctx) x0 (wk >? k)
    else set_root x0) ;;
   m' <- get_n ;;
   set_n (m' + 1) ;;
   ret x0) (stt (plug ctx Leaf) m)
  = Some (Some x, stt (plug ctx (new_leaf x k v)) (m + 1)).
Proof.
  intros x Hnd0 Hpath.
  pose proof (next_addr_fresh (plug ctx Leaf)) as Hx. fold x in Hx.
  assert (NoDup (addrs (plug ctx (new_leaf x k v)))) as Hnd1.
  { revert Hnd0 Hx. rewrite !addrs_plug. simpl. intros. by apply NoDup_cons. }
  pose proof (holds_heap_of _ Hnd0) as Hh.
  pose proof (dom_heap_of_plug ctx Leaf) as Hdom.
  apply holds_plug in Hh as [_ Hctx].
  pose proof Hnd1 as Hnd. rewrite addrs_plug in Hnd.
  unfold stt at 1.
  assert (fresh (dom (heap_of (plug ctx Leaf))) = x) as Hxe by done.
  clearbody x.
  set (h0 := heap_of (plug ctx Leaf)) in *. clearbody h0.
  unfold TreeMapStats.createNode, BSTMap.makeChild, new_leaf in *.
  destruct ctx as [|[d p kp vp hp sp sib] ctx].
  - simpl in *. repeat mstep. rewrite bind_alloc, Hxe.
    repeat mstep. nd_decomp Hnd. finish_stt Hnd1 Hdom.
  - apply Forall_cons in Hpath as [[Hk Hd] _].
    simpl ctx_parent. cbv iota. repeat mstep. rewrite bind_alloc, Hxe.
    split_holds Hctx. destruct_and?. nd_decomp Hnd.
    repeat mstep. rewrite <- Hd. destruct d; repeat mstep; finish_stt Hnd1 Hdom.
Qed.

Lemma putNode_spec k v t m :
  let x := next_addr t in
  let z := put_z x k v t in
  NoDup (addrs t) →
  BSTMap.putNode TreeMapStats.createNode k v (stt t m)
  = Some (rootp z.2,
          stt (plug z.1 z.2) (match (descend k [] t).2 with Leaf => m + 1 | _ => m end)).
Proof.
  intros x z Hnd. unfold BSTMap.putNode.
  run_spec (findNode_spec k t m Hnd).
  pose proof (descend_plug k t []) as Hp. simpl in Hp.
  pose proof (descend_on_path k t [] ltac:(constructor)) as Hpath.
  pose proof (descend_found k t []) as Hf.
  subst z. unfold put_z, last_visited in *.
  destruct (descend k [] t) as [ctx sub]. simpl in *. subst t.
  destruct sub as [|a l k' v' h s r]; simpl.
  - destruct ctx as [|[d p kp vp hp sp sib] ctx]; simpl ctx_parent; cbv iota.
    + rewrite bind_ret. cbv iota. apply (putNode_leaf_spec [] k v m Hnd Hpath).
    + pose proof Hpath as [[Hk Hd] _]%Forall_cons.
      pose proof (putNode_leaf_spec (Fr d p kp vp hp sp sib :: ctx) k v m Hnd Hpath) as Hl.
      simpl ctx_parent in Hl. cbv iota in Hl.
      assert (get key (Some p) (stt (plug (Fr d p kp vp hp sp sib :: ctx) Leaf) m)
              = Some (kp, stt (plug (Fr d p kp vp hp sp sib :: ctx) Leaf) m)) as Hg.
      { destruct d; simpl in *; by rewrite get_spec. }
      rewrite bind_bind. run_spec Hg. rewrite bind_ret.
      apply Z.eqb_neq in Hk. rewrite Hk. exact Hl.
  - specialize (Hf _ _ _ _ _ _ _ eq_refl) as ->.
    rewrite bind_bind. run_spec (get_spec ctx a l r k v' h s m Hnd key).
    rewrite bind_ret, Z.eqb_refl.
    run_spec (set_value_spec ctx a l r k v' h s m Hnd v). done.
Qed.

(** ** Removal from the search tree *)

(** What [removeNode] puts in the place of a node with at most one child. *)
Definition splice (t : tree) : tree :=
  match t with
  | Leaf => Leaf
  | Nd _ l _ _ _ _ r => match l with Leaf => r | Nd _ _ _ _ _ _ _ => l end
  end.

Lemma splice_sublist t : addrs (splice t) `sublist_of` addrs t.
Proof.
  destruct t as [|a l k v h s r]; simpl; [done|].
  destruct l; simpl.
  - by apply sublist_cons.
  - by apply sublist_inserts_r.
Qed.

Lemma NoDup_plug_sublist ctx t t' :
  addrs t' `sublist_of` addrs t →
  NoDup (addrs (plug ctx t)) → NoDup (addrs (plug ctx t')).
Proof.
  rewrite !addrs_plug. intros Hs Hnd. refine (sublist_NoDup _ _ Hnd _). by apply sublist_app.
Qed.

Lemma removeNode_spec ctx a l k v h s r m :
  let t := Nd a l k v h s r in
  NoDup (addrs (plug ctx t)) →
  l = Leaf ∨ r = Leaf →
  BSTMap.removeNode (Some a) (stt (plug ctx t) m)
  = Some (ctx_parent ctx, stt (plug ctx (splice t)) (m - 1)).
Proof.
  intros t Hnd0 Hlr. subst t.
  pose proof (NoDup_plug_sublist ctx _ _ (splice_sublist (Nd a l k v h s r)) Hnd0) as Hnd1.
  start_focus Hnd0 Hh Hctx Hdom Hnd h0.
  unfold BSTMap.removeNode, BSTMap.makeChild.
  destruct ctx as [|[[] p kp vp hp sp sib] ctx];
  (destruct Hlr as [-> | ->];
   [destruct r as [|c cl kc vc hc sc cr] | destruct l as [|c cl kc vc hc sc cr]]);
  split_holds Hh; split_holds Hctx; destruct_and?; nd_decomp Hnd;
  repeat mstep; finish_stt Hnd1 Hdom.
Qed.

(** The walk of [youngestDescendantType(w, true)]: the context of the
    leftmost node below the hole, and the subtree there. *)
Fixpoint descend_min (ctx : list frame) (t : tree) : list frame * tree :=
  match t with
  | Leaf => (ctx, Leaf)
  | Nd a l k v h s r =>
      match l with
      | Leaf => (ctx, t)
      | Nd _ _ _ _ _ _ _ => descend_min (Fr true a k v h s r :: ctx) l
      end
  end.

Lemma descend_min_plug t : ∀ ctx,
  plug (descend_min ctx t).1 (descend_min ctx t).2 = plug ctx t.
Proof.
  induction t as [|a l IHl k v h s r _]; intros ctx; simpl; [done|].
  destruct l; [done|]. by rewrite IHl.
Qed.

Lemma descend_min_app t : ∀ ctx,
  descend_min ctx t = ((descend_min [] t).1 ++ ctx, (descend_min [] t).2).
Proof.
  induction t as [|a l IHl k v h s r _]; intros ctx; simpl; [done|].
  destruct l as [|a' l' k' v' h' s' r']; [done|].
  rewrite (IHl (_ :: ctx)), (IHl [_]). simpl. by rewrite <- app_assoc.
Qed.

Lemma descend_min_snd t ctx : (descend_min ctx t).2 = (descend_min [] t).2.
Proof. by rewrite descend_min_app. Qed.

Lemma descend_min_shape t ctx :
  t ≠ Leaf → ∃ a k v h s r, (descend_min ctx t).2 = Nd a Leaf k v h s r.
Proof.
  revert ctx. induction t as [|a l IHl k v h s r _]; intros ctx Ht; [done|]. simpl.
  destruct l as [|a' l' k' v' h' s' r']; [by eauto 10|].
  by apply IHl.
Qed.

Lemma youngestDescendantType_loop_spec m t : ∀ ctx fuel,
  t ≠ Leaf →
  NoDup (addrs (plug ctx t)) →
  (length (addrs t) < fuel)%nat →
  BSTMap.youngestDescendantType_loop fuel true (rootp t) (stt (plug ctx t) m)
  = Some (rootp (descend_min ctx t).2, stt (plug ctx t) m).
Proof.
  induction t as [|a l IHl k v h s r _]; intros ctx fuel Ht Hnd Hfuel; [done|].
  destruct fuel as [|fuel]; [lia|].
  simpl in Hfuel. rewrite length_app in Hfuel. simpl in Hfuel.
  simpl.
  run_spec (get_spec ctx a l r k v h s m Hnd left).
  destruct l as [|a' l' k' v' h' s' r']; [done|].
  apply (IHl (Fr true a k v h s r :: ctx)); [done|done|lia].
Qed.

Arguments BSTMap.successor : simpl never.
Arguments BSTMap.removeNode : simpl never.

Lemma successor_spec ctx a l k v h s r m :
  let t := Nd a l k v h s r in
  r ≠ Leaf →
  NoDup (addrs (plug ctx t)) →
  BSTMap.successor (Some a) (stt (plug ctx t) m)
  = Some (rootp (descend_min (Fr false a k v h s l :: ctx) r).2, stt (plug ctx t) m).
Proof.
  intros t Hr Hnd. subst t. unfold BSTMap.successor.
  run_spec (get_spec ctx a l r k v h s m Hnd right).
  destruct r as [|a' l' k' v' h' s' r']; [done|].
  unfold BSTMap.youngestDescendantType. cbn [rootp].
  etrans; [apply (run_with_fuel _ _ _ Hnd)|].
  apply (youngestDescendantType_loop_spec m (Nd a' l' k' v' h' s' r')
           (Fr false a k v h s l :: ctx)); [done|done|].
  rewrite length_addrs_plug. simpl. rewrite !length_app. simpl. rewrite !length_app. simpl. lia.
Qed.

(** [BSTMap::eraseNode]: the context of the removed node, with what took
    its place in the hole; for an absent key, the context of the leaf the
    search ended in. *)
Definition erase_z (k : Z) (t : tree) : list frame * tree :=
  let z := descend k [] t in
  match z.2 with
  | Leaf => z
  | Nd a l k0 v0 h s r =>
      match l, r with
      | Nd _ _ _ _ _ _ _, Nd _ _ _ _ _ _ _ =>
          match (descend_min [] r).2 with
          | Nd _ _ ks vs _ _ _ =>
              let zs := descend_min (Fr false a ks vs h s l :: z.1) r in
              (zs.1, splice zs.2)
          | Leaf => z
          end
      | _, _ => (z.1, splice z.2)
      end
  end.

Lemma eraseNode_spec k t m :
  let z := erase_z k t in
  NoDup (addrs t) →
  BSTMap.eraseNode k (stt t m)
  = Some (ctx_parent z.1,
          stt (plug z.1 z.2) (match (descend k [] t).2 with Leaf => m | _ => m - 1 end)).
Proof.
  intros z Hnd. unfold BSTMap.eraseNode.
  run_spec (findNode_spec k t m Hnd).
  pose proof (descend_plug k t []) as Hp. simpl in Hp.
  pose proof (descend_on_path k t [] ltac:(constructor)) as Hpath.
  pose proof (descend_found k t []) as Hf.
  subst z. unfold erase_z, last_visited in *.
  destruct (descend k [] t) as [ctx sub]. simpl in *. subst t.
  destruct sub as [|a l k' v' h s r]; simpl.
  - destruct ctx as [|[d p kp vp hp sp sib] ctx]; simpl ctx_parent; cbv iota.
    + by rewrite bind_ret.
    + pose proof Hpath as [[Hk Hd] _]%Forall_cons.
      assert (get key (Some p) (stt (plug (Fr d p kp vp hp sp sib :: ctx) Leaf) m)
              = Some (kp, stt (plug (Fr d p kp vp hp sp sib :: ctx) Leaf) m)) as Hg.
      { destruct d; simpl in *; by rewrite get_spec. }
      rewrite bind_bind. run_spec Hg. rewrite bind_ret.
      apply Z.eqb_neq in Hk. rewrite Hk. done.
  - specialize (Hf _ _ _ _ _ _ _ eq_refl) as ->.
    rewrite bind_bind. run_spec (get_spec ctx a l r k v' h s m Hnd key).
    rewrite bind_ret, Z.eqb_refl. cbn [negb].
    run_spec (get_spec ctx a l r k v' h s m Hnd left).
    run_spec (get_spec ctx a l r k v' h s m Hnd right).
    destruct l as [|la ll lk lv lh ls lr].
    { apply (removeNode_spec ctx a Leaf k v' h s r m Hnd). by left. }
    destruct r as [|ra rl rk rv rh rs rr].
    { apply (removeNode_spec ctx a _ k v' h s Leaf m Hnd). by right. }
    cbn [rootp]. cbv iota.
    set (l := Nd la ll lk lv lh ls lr) in *.
    set (r := Nd ra rl rk rv rh rs rr) in *.
    assert (r ≠ Leaf) as Hr by done.
    run_spec (successor_spec ctx a l k v' h s r m Hr Hnd).
    destruct (descend_min_shape r [] Hr) as (sa & ks & vs & hs & ss & sr & Hs).
    rewrite Hs.
    assert (∀ k1 v1, NoDup (addrs (plug ctx (Nd a l k1 v1 h s r)))) as Hnd'.
    { intros k1 v1. revert Hnd. by rewrite !addrs_plug. }
    assert (∀ k1 v1, plug (descend_min (Fr false a k1 v1 h s l :: ctx) r).1
                       (Nd sa Leaf ks vs hs ss sr) = plug ctx (Nd a l k1 v1 h s r)) as Hpl.
    { intros k1 v1. rewrite <- Hs, <- (descend_min_snd r (Fr false a k1 v1 h s l :: ctx)).
      by rewrite descend_min_plug. }
    assert (∀ k1 v1, NoDup (addrs (plug (descend_min (Fr false a k1 v1 h s l :: ctx) r).1
                                         (Nd sa Leaf ks vs hs ss sr)))) as Hnds.
    { intros k1 v1. rewrite Hpl. apply Hnd'. }
    rewrite (descend_min_snd r (_ :: ctx)), Hs. cbn [rootp].
    pose proof (get_spec _ sa Leaf sr ks vs hs ss m (Hnds k v') key) as Hgk.
    rewrite Hpl in Hgk. run_spec Hgk.
    run_spec (set_key_spec ctx a l r k v' h s m Hnd ks).
    pose proof (get_spec _ sa Leaf sr ks vs hs ss m (Hnds ks v') value) as Hgv.
    rewrite Hpl in Hgv. run_spec Hgv.
    run_spec (set_value_spec ctx a l r ks v' h s m (Hnd' ks v') vs).
    pose proof (removeNode_spec _ sa Leaf ks vs hs ss sr m (Hnds ks vs) ltac:(by left)) as Hrm.
    rewrite Hpl in Hrm. rewrite Hrm.
    by rewrite (descend_min_snd r (_ :: ctx)), Hs.
Qed.

(** ** The public operations *)

(** The context and subtree of the node at address [a]. *)
Fixpoint locate (a : addr) (ctx : list frame) (t : tree) : option (list frame * tree) :=
  match t with
  | Leaf => None
  | Nd b l k v h s r =>
      if decide (a = b) then Some (ctx, t)
      else
        match locate a (Fr true b k v h s r :: ctx) l with
        | Some z => Some z
        | None => locate a (Fr false b k v h s l :: ctx) r
        end
  end.

Lemma locate_plug a t : ∀ ctx z,
  locate a ctx t = Some z → plug z.1 z.2 = plug ctx t ∧ rootp z.2 = Some a.
Proof.
  induction t as [|b l IHl k v h s r IHr]; intros ctx z; simpl; [done|].
  destruct (decide (a = b)) as [->|Hne].
  - by intros [= <-].
  - destruct (locate a (Fr true b k v h s r :: ctx) l) as [z'|] eqn:El.
    + intros [= <-]. by apply IHl in El.
    + intros Hr. by apply IHr in Hr.
Qed.

Lemma locate_is_Some a t : ∀ ctx, a ∈ addrs t → is_Some (locate a ctx t).
Proof.
  induction t as [|b l IHl k v h s r IHr]; intros ctx; simpl.
  - by intros ?%elem_of_nil.
  - destruct (decide (a = b)) as [->|Hne]; [by eauto|].
    rewrite elem_of_app, elem_of_cons.
    intros [Hl|[?|Hr]]; [|done|].
    + destruct (IHl (Fr true b k v h s r :: ctx) Hl) as [z ->]. by eauto.
    + destruct (locate a _ l); [by eauto|]. by apply IHr.
Qed.

Definition rebal_up (j : nat) (z : list frame * tree) : option tree :=
  match z.1 with
  | [] => Some z.2
  | f :: ctx => rebal j ctx (fill f z.2)
  end.

Definition update_at (w : ptr) (t : tree) : option tree :=
  match w with
  | None => Some t
  | Some a =>
      match locate a [] t with
      | Some z => Some (plug (updateTree_z z.1 z.2).1 (updateTree_z z.1 z.2).2)
      | None => None
      end
  end.

(** [put] and [erase] on the represented tree. *)
Definition put_t (k v : Z) (t : tree) : option tree :=
  let z := put_z (next_addr t) k v t in
  match rebal_up (length (addrs (plug z.1 z.2))) z with
  | Some t1 => update_at (rootp z.2) t1
  | None => None
  end.

Definition erase_t (k : Z) (t : tree) : option tree :=
  let z := erase_z k t in
  match rebal_up (length (addrs (plug z.1 z.2))) z with
  | Some t1 => update_at (ctx_parent z.1) t1
  | None => None
  end.

Lemma rebal_inorder : ∀ j ctx t t',
  rebal j ctx t = Some t' → inorder t' = inorder (plug ctx t).
Proof.
  induction j as [|j IH]; intros ctx t t'; simpl; [done|].
  destruct t as [|a l k v h s r]; [by intros [= <-]|].
  destruct (step_z ctx (Nd a l k v h s r)) as [[ctx1 t1]|] eqn:Est; [|done].
  assert (Nd a l k v h s r ≠ Leaf) as Hne by done.
  pose proof (step_z_inorder _ _ _ Hne Est) as Hi. simpl in Hi.
  destruct (_ =? _); [by intros [= <-]|].
  destruct ctx1 as [|f ctx1]; [by intros [= <-]|].
  intros H. by rewrite (IH _ _ _ H).
Qed.

Lemma rebal_up_inorder j z t' :
  rebal_up j z = Some t' → inorder t' = inorder (plug z.1 z.2).
Proof.
  unfold rebal_up. destruct z as [[|f ctx] t]; simpl; [by intros [= <-]|].
  apply rebal_inorder.
Qed.

Lemma NoDup_inorder t t' : inorder t' = inorder t → NoDup (addrs t) → NoDup (addrs t').
Proof. intros E. by rewrite <- !inorder_addrs, E. Qed.

Lemma rebalanceAncestors_spec j z t' m :
  NoDup (addrs (plug z.1 z.2)) →
  rebal_up j z = Some t' →
  (j ≤ length (addrs (plug z.1 z.2)))%nat →
  TreeMapStats.rebalanceAncestors (ctx_parent z.1) (stt (plug z.1 z.2) m)
  = Some (tt, stt t' m).
Proof.
  intros Hnd Hr Hj. unfold TreeMapStats.rebalanceAncestors, AVLTreeMap.rebalanceAncestors.
  etrans; [apply (run_with_fuel _ _ _ Hnd)|].
  destruct z as [[|f ctx] t]; unfold rebal_up in Hr; cbn [fst snd ctx_parent plug] in *.
  - by injection Hr as <-.
  - rewrite <- (rootp_fill f t).
    apply (rebal_spec m j ctx (fill f t)); [done|done|lia].
Qed.

Arguments TreeMapStats.updateTree : simpl never.
Arguments updateTree_z : simpl never.

Lemma update_at_spec w t t' m :
  NoDup (addrs t) →
  update_at w t = Some t' →
  (if w is Some _ then TreeMapStats.updateTree w else ret tt) (stt t m)
  = Some (tt, stt t' m).
Proof.
  intros Hnd. unfold update_at. destruct w as [a|]; [|by intros [= <-]].
  destruct (locate a [] t) as [[ctx sub]|] eqn:El; [|done].
  intros [= <-]. apply locate_plug in El as [Hp Hr]. simpl in *. subst t.
  rewrite <- Hr. apply updateTree_spec; [|done]. by destruct sub.
Qed.

Lemma put_z_addrs x k v t :
  addrs (plug (put_z x k v t).1 (put_z x k v t).2)
  ≡ₚ match (descend k [] t).2 with Leaf => x :: addrs t | _ => addrs t end.
Proof.
  unfold put_z. pose proof (descend_plug k t []) as Hp. simpl in Hp.
  destruct (descend k [] t) as [ctx sub]. simpl in *. subst t.
  destruct sub as [|a l k' v' h s r]; simpl.
  - rewrite !addrs_plug. simpl. done.
  - rewrite !addrs_plug. simpl. done.
Qed.

Lemma put_z_NoDup k v t :
  NoDup (addrs t) →
  NoDup (addrs (plug (put_z (next_addr t) k v t).1 (put_z (next_addr t) k v t).2)).
Proof.
  intros Hnd. rewrite put_z_addrs. destruct (descend k [] t).2; [|done].
  apply NoDup_cons. split; [apply next_addr_fresh|done].
Qed.

Lemma addrs_plug_eq ctx : ∀ t t',
  addrs t = addrs t' → addrs (plug ctx t) = addrs (plug ctx t').
Proof.
  induction ctx as [|[[] ? ? ? ? ? ?] ctx IH]; intros t t' E; simpl; [done|..];
    apply IH; simpl; by rewrite E.
Qed.

Lemma erase_z_sublist k t :
  addrs (plug (erase_z k t).1 (erase_z k t).2) `sublist_of` addrs t.
Proof.
  unfold erase_z. pose proof (descend_plug k t []) as Hp. simpl in Hp.
  destruct (descend k [] t) as [ctx sub]. simpl in *. subst t.
  destruct sub as [|a l k' v' h s r]; simpl; [done|].
  assert (∀ c t t', addrs t' `sublist_of` addrs t →
                    addrs (plug c t') `sublist_of` addrs (plug c t)) as Hsub.
  { intros c. induction c as [|[[] ? ? ? ? ? ?] c IH]; intros t t' Ht; simpl; [done|..];
      apply IH; simpl.
    - by apply sublist_app.
    - by apply sublist_app; [|apply sublist_skip]. }
  destruct l as [|la ll lk lv lh ls lr]; [apply Hsub; simpl; by apply sublist_cons|].
  destruct r as [|ra rl rk rv rh rs rr]; [apply Hsub; simpl; by apply sublist_inserts_r|].
  set (l := Nd la ll lk lv lh ls lr) in *.
  set (r := Nd ra rl rk rv rh rs rr) in *.
  assert (r ≠ Leaf) as Hr by done.
  destruct (descend_min_shape r [] Hr) as (sa & ks & vs & hs & ss & sr & Hs).
  rewrite Hs. cbn [fst snd].
  etrans; [apply Hsub, splice_sublist|].
  rewrite descend_min_plug. cbn [plug fill].
  by rewrite (addrs_plug_eq ctx _ (Nd a l k' v' h s r)).
Qed.

Lemma erase_z_NoDup k t :
  NoDup (addrs t) → NoDup (addrs (plug (erase_z k t).1 (erase_z k t).2)).
Proof. intros Hnd. exact (sublist_NoDup _ _ Hnd (erase_z_sublist k t)). Qed.

Lemma put_spec k v t t' m :
  NoDup (addrs t) →
  put_t k v t = Some t' →
  TreeMapStats.put k v (stt t m)
  = Some (tt, stt t' (match (descend k [] t).2 with Leaf => m + 1 | _ => m end)).
Proof.
  intros Hnd Hput. unfold put_t in Hput.
  pose proof (put_z_NoDup k v t Hnd) as Hndz.
  set (z := put_z (next_addr t) k v t) in *.
  destruct (rebal_up _ z) as [t1|] eqn:Er; [|done].
  unfold TreeMapStats.put, TreeMapStats.putNode, AVLTreeMap.putNode.
  rewrite !bind_bind.
  run_spec (putNode_spec k v t m Hnd). fold z.
  set (m' := match (descend k [] t).2 with Leaf => m + 1 | _ => m end).
  assert (∃ a l k0 v0 h s r, z.2 = Nd a l k0 v0 h s r) as (a & l & k0 & v0 & h & s & r & Ez).
  { subst z. unfold put_z, new_leaf. destruct (descend k [] t).2; simpl; by eauto 10. }
  clearbody z. destruct z as [ctx sub]. cbn [fst snd] in *. subst sub.
  cbn [rootp]. cbv iota.
  rewrite !bind_bind.
  run_spec (get_spec ctx a l r k0 v0 h s m' Hndz parent).
  pose proof (rebalanceAncestors_spec _ (ctx, Nd a l k0 v0 h s r) t1 m' Hndz Er ltac:(done)) as Hra.
  change (AVLTreeMap.rebalanceAncestors TreeMapStats.singleRotation)
    with TreeMapStats.rebalanceAncestors.
  cbn [fst snd] in Hra. run_spec Hra. rewrite bind_ret, !bind_bind.
  assert (NoDup (addrs t1)) as Hnd1.
  { apply (NoDup_inorder _ _ (rebal_up_inorder _ _ _ Er) Hndz). }
  pose proof (update_at_spec (Some a) t1 t' m' Hnd1 Hput) as Hu.
  run_spec Hu. done.
Qed.

Lemma erase_spec k t t' m :
  NoDup (addrs t) →
  erase_t k t = Some t' →
  TreeMapStats.erase k (stt t m)
  = Some (tt, stt t' (match (descend k [] t).2 with Leaf => m | _ => m - 1 end)).
Proof.
  intros Hnd Her. unfold erase_t in Her.
  pose proof (erase_z_NoDup k t Hnd) as Hndz.
  set (z := erase_z k t) in *.
  destruct (rebal_up _ z) as [t1|] eqn:Er; [|done].
  unfold TreeMapStats.erase, TreeMapStats.eraseNode, AVLTreeMap.eraseNode.
  rewrite !bind_bind.
  run_spec (eraseNode_spec k t m Hnd). fold z.
  set (m' := match (descend k [] t).2 with Leaf => m | _ => m - 1 end).
  pose proof (rebalanceAncestors_spec _ z t1 m' Hndz Er ltac:(done)) as Hra.
  change (AVLTreeMap.rebalanceAncestors TreeMapStats.singleRotation)
    with TreeMapStats.rebalanceAncestors.
  rewrite ?bind_bind. run_spec Hra. rewrite bind_ret, ?bind_bind.
  assert (NoDup (addrs t1)) as Hnd1.
  { apply (NoDup_inorder _ _ (rebal_up_inorder _ _ _ Er) Hndz). }
  pose proof (update_at_spec (ctx_parent z.1) t1 t' m' Hnd1 Her) as Hu.
  run_spec Hu. done.
Qed.

(** * Invariants of the represented tree *)

(** ** Height balance *)

(** Every stored height is one more than the larger stored height of the
    children, and the children's heights differ by at most one. *)
Fixpoint avl (t : tree) : Prop :=
  match t with
  | Leaf => True
  | Nd _ l _ _ h _ r =>
      avl l ∧ avl r ∧ Z.abs (ht_of l - ht_of r) ≤ 1 ∧ h = Z.max (ht_of l) (ht_of r) + 1
  end.

(** A context whose hole expects a subtree of height [h0]. *)
Fixpoint ctx_avl (h0 : Z) (ctx : list frame) : Prop :=
  match ctx with
  | [] => True
  | Fr _ _ _ _ h _ sib :: ctx' =>
      avl sib ∧ Z.abs (h0 - ht_of sib) ≤ 1 ∧ h = Z.max h0 (ht_of sib) + 1 ∧ ctx_avl h ctx'
  end.

Lemma avl_ht_nonneg t : avl t → 0 ≤ ht_of t.
Proof.
  induction t as [|a l IHl k v h s r IHr]; simpl; [lia|].
  intros (Hl & Hr & Hb & ->). specialize (IHl Hl). lia.
Qed.

Lemma avl_plug ctx : ∀ t, avl (plug ctx t) ↔ avl t ∧ ctx_avl (ht_of t) ctx.
Proof.
  induction ctx as [|[[] a k v h s sib] ctx IH]; intros t; simpl.
  - tauto.
  - rewrite IH. simpl. tauto.
  - rewrite IH. simpl.
    rewrite (Z.max_comm (ht_of sib)).
    replace (Z.abs (ht_of sib - ht_of t)) with (Z.abs (ht_of t - ht_of sib)) by lia.
    tauto.
Qed.

Lemma ctx_avl_refresh c ctx : ∀ h0, ctx_avl h0 (refresh_ctx c ctx) ↔ ctx_avl h0 ctx.
Proof.
  revert c. induction ctx as [|[d a k v h s sib] ctx IH]; intros c h0; simpl; [done|].
  by rewrite IH.
Qed.

Lemma ht_of_Leaf_inv t : avl t → 0 < ht_of t → t ≠ Leaf.
Proof. destruct t; simpl; [lia|done]. Qed.

Lemma rebalance_z_avl ctx z L kz vz hz sz R :
  avl L → avl R → Z.abs (ht_of L - ht_of R) = 2 →
  ∃ res, rebalance_z ctx (Nd z L kz vz hz sz R) = Some res ∧ avl res.2 ∧
         Z.max (ht_of L) (ht_of R) ≤ ht_of res.2 ≤ Z.max (ht_of L) (ht_of R) + 1.
Proof.
  intros HL HR Hd.
  pose proof (avl_ht_nonneg _ HL) as HLn. pose proof (avl_ht_nonneg _ HR) as HRn.
  unfold rebalance_z, tallest_left.
  destruct (ht_of L >? ht_of R) eqn:E1; simpl orb.
  - destruct L as [|y A ky vy hy sy B]; [simpl in *; lia|].
    simpl in HL. destruct HL as (HA & HB & Hb & Hy).
    pose proof (avl_ht_nonneg _ HA). pose proof (avl_ht_nonneg _ HB).
    simpl ht_of in *.
    destruct ((ht_of A >? ht_of B) || (ht_of A =? ht_of B) && true) eqn:E2.
    + eexists. split; [done|]. simpl. split; [|lia]. split_and!; try done; lia.
    + destruct B as [|x B1 kx vx hx sx B2]; [simpl in *; lia|].
      simpl in HB. destruct HB as (HB1 & HB2 & Hbx & Hx).
      pose proof (avl_ht_nonneg _ HB1). pose proof (avl_ht_nonneg _ HB2).
      simpl ht_of in *.
      eexists. split; [done|]. simpl. split; [|lia]. split_and!; try done; lia.
  - assert ((ht_of L =? ht_of R) = false) as -> by lia. simpl.
    destruct R as [|y B ky vy hy sy C]; [simpl in *; lia|].
    simpl in HR. destruct HR as (HB & HC & Hb & Hy).
    pose proof (avl_ht_nonneg _ HB). pose proof (avl_ht_nonneg _ HC).
    simpl ht_of in *.
    destruct ((ht_of B >? ht_of C) || (ht_of B =? ht_of C) && false) eqn:E2.
    + destruct B as [|x B1 kx vx hx sx B2]; [simpl in *; lia|].
      simpl in HB. destruct HB as (HB1 & HB2 & Hbx & Hx).
      pose proof (avl_ht_nonneg _ HB1). pose proof (avl_ht_nonneg _ HB2).
      simpl ht_of in *.
      eexists. split; [done|]. simpl. split; [|lia]. split_and!; try done; lia.
    + eexists. split; [done|]. simpl. split; [|lia]. split_and!; try done; lia.
Qed.

Lemma rebal_avl : ∀ j ctx a l k v h0 s r,
  (length ctx < j)%nat →
  avl l → avl r → ctx_avl h0 ctx →
  Z.abs (ht_of l - ht_of r) ≤ 2 →
  h0 - 2 ≤ Z.max (ht_of l) (ht_of r) ≤ h0 →
  (Z.abs (ht_of l - ht_of r) = 2 → h0 - 1 ≤ Z.max (ht_of l) (ht_of r)) →
  ∃ t', rebal j ctx (Nd a l k v h0 s r) = Some t' ∧ avl t'.
Proof.
  induction j as [|j IH]; intros ctx a l k v h0 s r Hj Hl Hr Hctx Hd Hm Hm2; [lia|].
  simpl. unfold step_z. simpl balanced_t.
  assert (∃ ctx1 t1, (if Z.abs (ht_of l - ht_of r) <=? 1
                      then Some (ctx, reset_t (Nd a l k v h0 s r))
                      else rebalance_z ctx (Nd a l k v h0 s r)) = Some (ctx1, t1) ∧
                     avl t1 ∧ Z.abs (ht_of t1 - h0) ≤ 1 ∧
                     (ctx1 = ctx ∨ ∃ c, ctx1 = refresh_ctx c ctx))
    as (ctx1 & t1 & -> & Ht1 & Hh1 & Hc1).
  { destruct (Z.abs (ht_of l - ht_of r) <=? 1) eqn:Eb.
    - eexists _, _. split; [done|]. simpl. split_and!; try done; try lia. by left.
    - destruct (rebalance_z_avl ctx a l k v h0 s r Hl Hr ltac:(lia)) as ([c1 t1] & E & Ha & Hh).
      destruct (rebalance_z_result _ _ _ E) as (Hc & _). simpl in *.
      eexists _, _. split; [done|]. split_and!; try done; try lia. by right. }
  simpl ht_of.
  assert (ctx_avl h0 ctx1) as Hctx1.
  { destruct Hc1 as [->|[c ->]]; [done|]. by apply ctx_avl_refresh. }
  assert (length ctx1 = length ctx) as Hlen.
  { destruct Hc1 as [->|[c ->]]; [done|]. by rewrite refresh_ctx_length. }
  destruct (h0 =? ht_of t1) eqn:Eh.
  - eexists. split; [done|]. apply avl_plug. split; [done|].
    by replace (ht_of t1) with h0 by lia.
  - destruct ctx1 as [|[d a' k' v' h' s' sib] ctx1]; [by eauto|].
    simpl in Hctx1. destruct Hctx1 as (Hsib & Hds & Hh' & Hctx').
    pose proof (avl_ht_nonneg _ Hsib). pose proof (avl_ht_nonneg _ Ht1).
    simpl in Hlen.
    destruct d; simpl; apply IH; try done; try lia.
Qed.

Lemma rebal_up_avl j ctx sub h' :
  (length ctx ≤ j)%nat →
  avl sub → ctx_avl h' ctx → Z.abs (ht_of sub - h') ≤ 1 →
  ∃ t', rebal_up j (ctx, sub) = Some t' ∧ avl t'.
Proof.
  intros Hj Hs Hctx Hh. unfold rebal_up.
  destruct ctx as [|[d a k v h s sib] ctx]; simpl; [by eauto|].
  simpl in Hctx, Hj. destruct Hctx as (Hsib & Hds & Hh' & Hctx').
  pose proof (avl_ht_nonneg _ Hsib). pose proof (avl_ht_nonneg _ Hs).
  destruct d; simpl; apply rebal_avl; try done; try lia.
Qed.

(** ** Statistics *)

(** The statistics of a node are those [updateStats] computes from its
    value and the statistics stored in its children. *)
Definition lok1 (t : tree) : Prop :=
  match t with
  | Leaf => True
  | Nd _ l _ v _ s r => s = TreeMapStats.updateStats v (info_of l) (info_of r)
  end.

Fixpoint all_lok (t : tree) : Prop :=
  match t with
  | Leaf => True
  | Nd a l k v h s r => all_lok l ∧ all_lok r ∧ lok1 (Nd a l k v h s r)
  end.

(** The same for every node that is not on the path from the root to the
    node at address [f]: those are the nodes a later [updateTree(f)]
    recomputes. *)
Fixpoint lokx (f : addr) (t : tree) : Prop :=
  match t with
  | Leaf => True
  | Nd a l k v h s r =>
      lokx f l ∧ lokx f r ∧ (f ∈ addrs (Nd a l k v h s r) ∨ lok1 (Nd a l k v h s r))
  end.

Lemma all_lok_lokx f t : all_lok t → lokx f t.
Proof.
  induction t as [|a l IHl k v h s r IHr]; [done|].
  intros (Hl & Hr & H1). split_and!; auto.
Qed.

Lemma lokx_all_lok f t : f ∉ addrs t → lokx f t → all_lok t.
Proof.
  induction t as [|a l IHl k v h s r IHr]; [done|].
  intros Hf (Hl & Hr & H1). simpl in Hf.
  rewrite elem_of_app, elem_of_cons in Hf.
  split_and!; [apply IHl; tauto | apply IHr; tauto |].
  destruct H1 as [H1|H1]; [|done]. simpl in H1.
  rewrite elem_of_app, elem_of_cons in H1. tauto.
Qed.

Lemma addrs_fill f t : addrs (fill f t) ≡ₚ frame_addr f :: addrs t ++ addrs (frame_sib f).
Proof. destruct f as [[] a k v h s sib]; simpl; solve_Permutation. Qed.

Lemma lokx_fill f fr t :
  lokx f (fill fr t) ↔
  lokx f t ∧ lokx f (frame_sib fr) ∧
  (f ∈ addrs (fill fr t) ∨ lok1 (fill fr t)).
Proof. destruct fr as [[] a k v h s sib]; simpl; tauto. Qed.

Lemma lokx_plug_inv f ctx : ∀ t,
  lokx f (plug ctx t) → lokx f t ∧ Forall (fun fr => lokx f (frame_sib fr)) ctx.
Proof.
  induction ctx as [|fr ctx IH]; intros t; simpl; [by auto|].
  intros H. apply IH in H as [H1 H2]. apply lokx_fill in H1 as (Ht & Hs & _).
  split; [done|]. by constructor.
Qed.

Lemma lok1_fill_info fr t t' :
  info_of t' = info_of t → lok1 (fill fr t) → lok1 (fill fr t').
Proof. destruct fr as [[] a k v h s sib]; simpl; by intros ->. Qed.

(** Replacing the subtree in the hole. *)
Lemma lokx_plug_replace f ctx : ∀ t t',
  lokx f (plug ctx t) → lokx f t' →
  (f ∈ addrs t' ∨ info_of t' = info_of t) →
  (f ∈ addrs t → f ∈ addrs t') →
  lokx f (plug ctx t').
Proof.
  induction ctx as [|fr ctx IH]; intros t t' H Ht' Hi Ha; simpl in *; [done|].
  apply (IH (fill fr t)); [done| | |].
  - pose proof (lokx_plug_inv f ctx _ H) as [H1 _].
    apply lokx_fill in H1 as (_ & Hs & Hl). apply lokx_fill.
    split; [done|]. split; [done|].
    rewrite addrs_fill in *. rewrite !elem_of_cons, !elem_of_app in *.
    destruct Hi as [Hi|Hi]; [by auto|].
    destruct Hl as [Hl|Hl]; [left; tauto|]. right. by apply (lok1_fill_info fr t).
  - right. by rewrite !info_of_fill.
  - rewrite !addrs_fill. rewrite !elem_of_cons, !elem_of_app. tauto.
Qed.

Lemma frame_sib_refresh c fr : frame_sib (refresh_frame c fr) = frame_sib fr.
Proof. by destruct fr. Qed.

Lemma lok1_refresh t : lok1 (refresh_t t).
Proof. by destruct t. Qed.

(** After the walk of [updateTree] every node of the path is consistent. *)
Lemma lokx_refresh f ctx : ∀ t,
  Forall (fun fr => lokx f (frame_sib fr)) ctx → lokx f t →
  lokx f (plug (refresh_ctx (info_of t) ctx) t).
Proof.
  induction ctx as [|fr ctx IH]; intros t Hs Ht; simpl; [done|].
  apply Forall_cons in Hs as [Hs1 Hs2].
  rewrite fill_refresh, <- (info_of_fill (refresh_frame (info_of t) fr) t), fill_refresh.
  apply IH; [done|].
  assert (lokx f (fill fr t) ∨ True) as _ by auto.
  pose proof (lok1_refresh (fill fr t)) as H1.
  destruct fr as [[] a k v h s sib]; simpl in *; split_and!; auto.
Qed.

Lemma all_lok_refresh ctx : ∀ t,
  Forall (fun fr => all_lok (frame_sib fr)) ctx → all_lok t →
  all_lok (plug (refresh_ctx (info_of t) ctx) t).
Proof.
  induction ctx as [|fr ctx IH]; intros t Hs Ht; simpl; [done|].
  apply Forall_cons in Hs as [Hs1 Hs2].
  rewrite fill_refresh, <- (info_of_fill (refresh_frame (info_of t) fr) t), fill_refresh.
  apply IH; [done|].
  destruct fr as [[] a k v h s sib]; simpl in *; split_and!; auto.
Qed.

Lemma Forall_sib_refresh (P : tree → Prop) c ctx :
  Forall (fun fr => P (frame_sib fr)) (refresh_ctx c ctx) ↔
  Forall (fun fr => P (frame_sib fr)) ctx.
Proof.
  revert c. induction ctx as [|fr ctx IH]; intros c; simpl; [done|].
  by rewrite !Forall_cons, IH, frame_sib_refresh.
Qed.

Lemma rebalance_z_lokx f ctx t res :
  rebalance_z ctx t = Some res → lokx f (plug ctx t) → lokx f (plug res.1 res.2).
Proof.
  intros Hres H. apply lokx_plug_inv in H as [Ht Hs].
  revert Hres. unfold rebalance_z.
  destruct t as [|z L kz vz hz sz R]; [done|].
  destruct (tallest_left true _).
  - destruct L as [|y A ky vy hy sy B]; [done|].
    destruct (tallest_left true _).
    + intros [= <-]. simpl in *.
      apply (lokx_refresh f ctx (Nd y A _ _ _ _ (Nd z B _ _ _ _ R))); [done|].
      simpl. intuition.
    + destruct B as [|x B1 kx vx hx sx B2]; [done|].
      intros [= <-]. simpl in *. rewrite refresh_ctx_idem.
      apply (lokx_refresh f ctx (Nd x (Nd y A _ _ _ _ B1) _ _ _ _ (Nd z B2 _ _ _ _ R))); [done|].
      simpl. intuition.
  - destruct R as [|y B ky vy hy sy C]; [done|].
    destruct (tallest_left false _).
    + destruct B as [|x B1 kx vx hx sx B2]; [done|].
      intros [= <-]. simpl in *. rewrite refresh_ctx_idem.
      apply (lokx_refresh f ctx (Nd x (Nd z L _ _ _ _ B1) _ _ _ _ (Nd y B2 _ _ _ _ C))); [done|].
      simpl. intuition.
    + intros [= <-]. simpl in *.
      apply (lokx_refresh f ctx (Nd y (Nd z L _ _ _ _ B) _ _ _ _ C)); [done|].
      simpl. intuition.
Qed.

Lemma step_z_lokx f ctx t res :
  step_z ctx t = Some res → lokx f (plug ctx t) → lokx f (plug res.1 res.2).
Proof.
  unfold step_z. destruct (balanced_t t); [|apply rebalance_z_lokx].
  intros [= <-] H. simpl.
  apply (lokx_plug_replace f ctx t); [done| | |].
  - apply lokx_plug_inv in H as [H _]. by destruct t.
  - right. by destruct t.
  - by destruct t.
Qed.

Lemma rebal_lokx f : ∀ j ctx t t',
  rebal j ctx t = Some t' → lokx f (plug ctx t) → lokx f t'.
Proof.
  induction j as [|j IH]; intros ctx t t'; simpl; [done|].
  destruct t as [|a l k v h s r]; [by intros [= <-]|].
  destruct (step_z ctx (Nd a l k v h s r)) as [[ctx1 t1]|] eqn:Est; [|done].
  intros Hr H. pose proof (step_z_lokx f _ _ _ Est H) as H1. simpl in H1.
  destruct (_ =? _); [by injection Hr as <-|].
  destruct ctx1 as [|fr ctx1]; [by injection Hr as <-|].
  by apply (IH _ _ _ Hr).
Qed.

Lemma rebal_up_lokx f j z t' :
  rebal_up j z = Some t' → lokx f (plug z.1 z.2) → lokx f t'.
Proof.
  unfold rebal_up. destruct z as [[|fr ctx] t]; simpl; [by intros [= <-]|].
  apply rebal_lokx.
Qed.

Lemma sibs_all_lok a ctx :
  a ∉ addrs_ctx ctx →
  Forall (fun fr => lokx a (frame_sib fr)) ctx →
  Forall (fun fr => all_lok (frame_sib fr)) ctx.
Proof.
  induction ctx as [|fr ctx IH]; simpl; [done|].
  rewrite elem_of_cons, elem_of_app. intros Ha [H1 H2]%Forall_cons.
  constructor; [|apply IH; tauto].
  apply (lokx_all_lok a); tauto.
Qed.

Lemma avl_refresh_t t : avl (refresh_t t) ↔ avl t.
Proof. by destruct t. Qed.

Lemma ht_of_refresh_t t : ht_of (refresh_t t) = ht_of t.
Proof. by destruct t. Qed.

Lemma updateTree_z_inorder ctx t :
  inorder (plug (updateTree_z ctx t).1 (updateTree_z ctx t).2) = inorder (plug ctx t).
Proof.
  unfold updateTree_z. simpl.
  by rewrite !inorder_plug, lefts_refresh, rights_refresh, inorder_refresh_t.
Qed.

Lemma updateTree_z_avl ctx t :
  avl (plug ctx t) → avl (plug (updateTree_z ctx t).1 (updateTree_z ctx t).2).
Proof.
  unfold updateTree_z. simpl. rewrite !avl_plug.
  by rewrite ctx_avl_refresh, ht_of_refresh_t, avl_refresh_t.
Qed.

Lemma update_at_all_lok a t :
  NoDup (addrs t) → a ∈ addrs t → lokx a t →
  ∃ t', update_at (Some a) t = Some t' ∧ all_lok t' ∧ inorder t' = inorder t ∧
        (avl t → avl t').
Proof.
  intros Hnd Ha H. unfold update_at.
  destruct (locate_is_Some a t [] Ha) as [[ctx sub] El]. rewrite El.
  apply locate_plug in El as [Hp Hr]. simpl in *. subst t.
  eexists. split; [done|].
  split; [|split; [apply updateTree_z_inorder | apply updateTree_z_avl]].
  destruct sub as [|a' l k v h s r]; [done|]. injection Hr as ->.
  apply lokx_plug_inv in H as [(Hl & Hr & _) Hs].
  rewrite addrs_plug in Hnd. simpl in Hnd.
  apply NoDup_app in Hnd as (Hn1 & Hn2 & Hn3).
  apply NoDup_app in Hn1 as (Hn4 & Hn5 & Hn6).
  apply NoDup_cons in Hn6 as [Hn6 Hn7].
  unfold updateTree_z. simpl fst. simpl snd.
  apply all_lok_refresh.
  - apply (sibs_all_lok a); [|done]. apply Hn2.
    apply elem_of_app. right. apply list_elem_of_here.
  - simpl. split_and!; [| |done].
    + apply (lokx_all_lok a); [|done]. intros Hin. apply (Hn5 _ Hin).
      apply list_elem_of_here.
    + by apply (lokx_all_lok a).
Qed.

(** On a tree whose statistics are consistent the walk changes nothing. *)
Lemma refresh_t_id t : lok1 t → refresh_t t = t.
Proof. destruct t; simpl; [done|]. by intros <-. Qed.

Lemma all_lok_plug_inv ctx : ∀ t,
  all_lok (plug ctx t) →
  all_lok t ∧ ∀ t', info_of t' = info_of t → refresh_ctx (info_of t') ctx = ctx.
Proof.
  induction ctx as [|fr ctx IH]; intros t; simpl; [by auto|].
  intros H. apply IH in H as [H1 H2].
  destruct fr as [[] a k v h s sib]; simpl in *.
  - destruct H1 as (Ht & Hs & ->). split; [done|]. intros t' ->.
    f_equal. apply (H2 (Nd a t' k v h _ sib)). done.
  - destruct H1 as (Hs & Ht & ->). split; [done|]. intros t' ->.
    f_equal. apply (H2 (Nd a sib k v h _ t')). done.
Qed.

Lemma updateTree_z_id ctx t :
  all_lok (plug ctx t) → updateTree_z ctx t = (ctx, t).
Proof.
  intros H. apply all_lok_plug_inv in H as [Ht Hc]. unfold updateTree_z.
  assert (refresh_t t = t) as ->.
  { apply refresh_t_id. destruct t; [done|]. by destruct Ht as (_ & _ & ?). }
  by rewrite Hc.
Qed.

(** ** Search order *)

(** The keys are strictly increasing in the order of the walk. *)
Definition bst (t : tree) : Prop := StronglySorted Z.lt (keys t).

Lemma keys_Nd a l k v h s r : keys (Nd a l k v h s r) = keys l ++ k :: keys r.
Proof. unfold keys. simpl. by rewrite !fmap_app. Qed.

Lemma keys_plug ctx t :
  keys (plug ctx t) = (lefts ctx).*2.*1 ++ keys t ++ (rights ctx).*2.*1.
Proof. unfold keys. by rewrite inorder_plug, !fmap_app. Qed.

Lemma bst_sublist t t' : keys t' `sublist_of` keys t → bst t → bst t'.
Proof.
  unfold bst. generalize (keys t) (keys t'). clear.
  intros l l' Hs Hl. revert l' Hs.
  induction Hl as [|x l Hl IH Hx]; intros l' Hs.
  - apply sublist_nil_r in Hs as ->. constructor.
  - apply sublist_cons_r in Hs as [Hs|(l'' & -> & Hs)]; [by apply IH|].
    constructor; [by apply IH|].
    rewrite Forall_forall in *. intros y Hy. apply Hx.
    by apply (elem_of_sublist l'' l).
Qed.

Lemma bst_inorder t t' : inorder t' = inorder t → bst t → bst t'.
Proof. unfold bst, keys. by intros ->. Qed.

(** The keys on the two sides of the place where the search for [k] ends. *)
Lemma path_bounds k ctx : ∀ t,
  bst (plug ctx t) → Forall (on_path k) ctx →
  Forall (fun x => x < k) (lefts ctx).*2.*1 ∧ Forall (fun x => k < x) (rights ctx).*2.*1.
Proof.
  induction ctx as [|[d a kf v h s sib] ctx IH]; intros t Hb Hp; simpl; [done|].
  apply Forall_cons in Hp as [[Hne Hd] Hp].
  change (bst (plug ctx (fill (Fr d a kf v h s sib) t))) in Hb.
  destruct (IH _ Hb Hp) as [Hl Hr].
  unfold bst in Hb. rewrite keys_plug in Hb.
  apply StronglySorted_app_1_r, StronglySorted_app_1_l in Hb.
  destruct d; cbn [fill] in Hb; rewrite keys_Nd in Hb; simpl in *.
  - split; [done|]. rewrite !fmap_app. simpl.
    assert (k < kf) as Hk by lia.
    apply StronglySorted_app_1_r, StronglySorted_cons in Hb as [Hb _].
    constructor; [done|]. apply Forall_app. split; [|done].
    eapply Forall_impl; [exact Hb|]. simpl. intros. lia.
  - split; [|done]. repeat rewrite fmap_app. simpl.
    assert (kf < k) as Hk by lia.
    apply Forall_app. split; [done|]. apply Forall_app. split; [|by constructor].
    apply Forall_forall. intros y Hy.
    assert (y < kf); [|lia].
    apply (StronglySorted_app_1_elem_of _ _ _ y kf Hb); [done|]. apply list_elem_of_here.
Qed.

Lemma put_z_keys x k v t :
  let z := put_z x k v t in
  let z0 := descend k [] t in
  keys (plug z.1 z.2)
  = (lefts z0.1).*2.*1 ++ (match z0.2 with Leaf => [k] | _ => keys z0.2 end)
      ++ (rights z0.1).*2.*1
  ∧ keys t = (lefts z0.1).*2.*1 ++ keys z0.2 ++ (rights z0.1).*2.*1.
Proof.
  intros z z0. subst z z0. unfold put_z.
  pose proof (descend_plug k t []) as Hp. simpl in Hp.
  pose proof (descend_found k t []) as Hf.
  destruct (descend k [] t) as [ctx sub]. simpl in *. subst t.
  destruct sub as [|a l k' v' h s r]; simpl; [by rewrite !keys_plug|].
  rewrite (Hf _ _ _ _ _ _ _ eq_refl). by rewrite !keys_plug, !keys_Nd.
Qed.

Lemma put_z_bst x k v t :
  bst t → bst (plug (put_z x k v t).1 (put_z x k v t).2).
Proof.
  intros Hb. destruct (put_z_keys x k v t) as [E1 E2].
  unfold bst in *. rewrite E1. rewrite E2 in Hb.
  destruct (descend k [] t) as [ctx sub] eqn:Ed. simpl in *.
  destruct sub; [|done].
  pose proof (descend_on_path k t [] ltac:(constructor)) as Hpath.
  pose proof (descend_plug k t []) as Hp. rewrite Ed in Hpath, Hp. simpl in *.
  destruct (path_bounds k ctx Leaf) as [Hl Hr]; [|done|].
  { rewrite Hp. unfold bst. by rewrite E2. }
  unfold keys in Hb. simpl in Hb.
  apply StronglySorted_app in Hb as (H1 & H2 & H3).
  rewrite Forall_forall in Hl, Hr.
  apply StronglySorted_app. split_and!; [|done|].
  - intros x1 x2 Hx1 [->|Hx2]%elem_of_cons; [by apply Hl|by apply H1].
  - constructor; [done|]. by apply Forall_forall.
Qed.

Lemma plug_app c1 c2 t : plug (c1 ++ c2) t = plug c2 (plug c1 t).
Proof. revert t. induction c1 as [|f c1 IH]; intros t; simpl; [done|]. by rewrite IH. Qed.

Lemma descend_min_lefts t : ∀ ctx,
  lefts (descend_min ctx t).1 = lefts ctx.
Proof.
  induction t as [|a l IHl k v h s r _]; intros ctx; simpl; [done|].
  destruct l; [done|]. by rewrite IHl.
Qed.

(** The three ways [BSTMap::eraseNode] goes. *)
Inductive erase_case (k : Z) (t : tree) : Prop :=
| erase_absent ctx :
    descend k [] t = (ctx, Leaf) →
    erase_z k t = (ctx, Leaf) →
    erase_case k t
| erase_splice ctx a l v h s r :
    descend k [] t = (ctx, Nd a l k v h s r) →
    l = Leaf ∨ r = Leaf →
    erase_z k t = (ctx, splice (Nd a l k v h s r)) →
    erase_case k t
| erase_successor ctx a l v h s r c sa ks vs hs ss sr :
    descend k [] t = (ctx, Nd a l k v h s r) →
    l ≠ Leaf → r ≠ Leaf →
    descend_min [] r = (c, Nd sa Leaf ks vs hs ss sr) →
    erase_z k t = (c ++ Fr false a ks vs h s l :: ctx, sr) →
    erase_case k t.

Lemma tree_Leaf_dec (t : tree) : t = Leaf ∨ t ≠ Leaf.
Proof. destruct t; auto. Qed.

Lemma erase_z_two k t ctx a l k0 v h s r :
  descend k [] t = (ctx, Nd a l k0 v h s r) → l ≠ Leaf → r ≠ Leaf →
  erase_z k t =
  match (descend_min [] r).2 with
  | Nd _ _ ks vs _ _ _ =>
      ((descend_min (Fr false a ks vs h s l :: ctx) r).1,
       splice (descend_min (Fr false a ks vs h s l :: ctx) r).2)
  | Leaf => (ctx, Nd a l k0 v h s r)
  end.
Proof.
  intros Hd Hl Hr. unfold erase_z. rewrite Hd. cbn [fst snd].
  destruct l; [done|]. destruct r; [done|]. done.
Qed.

Lemma erase_z_case k t : erase_case k t.
Proof.
  pose proof (descend_found k t []) as Hf.
  destruct (descend k [] t) as [ctx sub] eqn:Ed. simpl in *.
  destruct sub as [|a l k' v h s r].
  { eapply erase_absent; [done|]. unfold erase_z. by rewrite Ed. }
  rewrite (Hf _ _ _ _ _ _ _ eq_refl) in *. clear Hf.
  destruct (tree_Leaf_dec l) as [->|Hl].
  { eapply erase_splice; [done|by left|]. unfold erase_z. by rewrite Ed. }
  destruct (tree_Leaf_dec r) as [->|Hr].
  { eapply erase_splice; [done|by right|]. unfold erase_z. rewrite Ed. by destruct l. }
  destruct (descend_min_shape r [] Hr) as (sa & ks & vs & hs & ss & sr & Hs).
  destruct (descend_min [] r) as [c S] eqn:Em. simpl in Hs. subst S.
  eapply (erase_successor k t ctx a l v h s r c sa ks vs hs ss sr); [done..|].
  rewrite (erase_z_two _ _ _ _ _ _ _ _ _ _ Ed Hl Hr), Em. cbn [fst snd].
  rewrite descend_min_app, Em. done.
Qed.

Lemma keys_plug_sublist ctx t t' :
  keys t' `sublist_of` keys t → keys (plug ctx t') `sublist_of` keys (plug ctx t).
Proof.
  intros H. rewrite !keys_plug. apply sublist_app; [done|]. by apply sublist_app.
Qed.

Lemma splice_keys_sublist t : keys (splice t) `sublist_of` keys t.
Proof.
  destruct t as [|a l k v h s r]; simpl; [done|]. rewrite keys_Nd.
  destruct l; simpl.
  - by apply sublist_cons.
  - by apply sublist_inserts_r.
Qed.

Lemma descend_min_inorder r c sa ks vs hs ss sr :
  descend_min [] r = (c, Nd sa Leaf ks vs hs ss sr) →
  inorder r = (sa, (ks, vs)) :: inorder (plug c sr).
Proof.
  intros Em. pose proof (descend_min_plug r []) as Hp.
  pose proof (descend_min_lefts r []) as Hl. rewrite Em in Hp, Hl. simpl in *.
  rewrite <- Hp, !inorder_plug, Hl. done.
Qed.

Lemma erase_z_keys_sublist k t :
  keys (plug (erase_z k t).1 (erase_z k t).2) `sublist_of` keys t.
Proof.
  pose proof (descend_plug k t []) as Hp.
  destruct (erase_z_case k t) as
    [ctx Hd ->|ctx a l v h s r Hd Hlr ->|ctx a l v h s r c sa ks vs hs ss sr Hd Hl Hr Hm ->];
    rewrite Hd in Hp; simpl in *; rewrite <- Hp.
  - done.
  - apply keys_plug_sublist, (splice_keys_sublist (Nd a l k v h s r)).
  - rewrite plug_app. simpl. apply keys_plug_sublist. rewrite !keys_Nd.
    apply sublist_app; [done|].
    unfold keys. rewrite (descend_min_inorder _ _ _ _ _ _ _ _ Hm). simpl.
    by apply sublist_cons.
Qed.

Lemma erase_z_bst k t : bst t → bst (plug (erase_z k t).1 (erase_z k t).2).
Proof. apply bst_sublist, erase_z_keys_sublist. Qed.

(** ** The invariant of the map *)

Record Inv (t : tree) : Prop := mkInv {
  inv_nodup : NoDup (addrs t);
  inv_bst : bst t;
  inv_avl : avl t;
  inv_lok : all_lok t
}.

Lemma Inv_Leaf : Inv Leaf.
Proof. split; simpl; try done; constructor. Qed.

Lemma length_ctx_plug ctx t : (length ctx ≤ length (addrs (plug ctx t)))%nat.
Proof. rewrite length_addrs_plug. pose proof (length_addrs_ctx ctx). lia. Qed.

Lemma ctx_parent_in ctx a : ctx_parent ctx = Some a → a ∈ addrs_ctx ctx.
Proof.
  destruct ctx as [|fr ctx]; simpl; [done|]. intros [= ->]. apply list_elem_of_here.
Qed.

Lemma rootp_in t a : rootp t = Some a → a ∈ addrs t.
Proof.
  destruct t; simpl; [done|]. intros [= ->].
  apply elem_of_app. right. apply list_elem_of_here.
Qed.

Lemma elem_of_addrs_plug a ctx t :
  a ∈ addrs (plug ctx t) ↔ a ∈ addrs t ∨ a ∈ addrs_ctx ctx.
Proof. by rewrite addrs_plug, elem_of_app. Qed.

(** The two ways [BSTMap::putNode] goes. *)
Inductive put_case (x : addr) (k v : Z) (t : tree) : Prop :=
| put_new ctx :
    descend k [] t = (ctx, Leaf) →
    put_z x k v t = (ctx, new_leaf x k v) →
    put_case x k v t
| put_update ctx a l v0 h s r :
    descend k [] t = (ctx, Nd a l k v0 h s r) →
    put_z x k v t = (ctx, Nd a l k v h s r) →
    put_case x k v t.

Lemma put_z_case x k v t : put_case x k v t.
Proof.
  pose proof (descend_found k t []) as Hf.
  destruct (descend k [] t) as [ctx sub] eqn:Ed. simpl in *.
  destruct sub as [|a l k' v0 h s r].
  - eapply put_new; [done|]. unfold put_z. by rewrite Ed.
  - rewrite (Hf _ _ _ _ _ _ _ eq_refl) in *.
    eapply put_update; [done|]. unfold put_z. by rewrite Ed.
Qed.

(** After the structural edit: the walk of [rebalanceAncestors] from the
    parent of the hole, then the walk of [updateTree] from [w]. *)
Lemma finish_inv ctx sub w h' :
  NoDup (addrs (plug ctx sub)) →
  bst (plug ctx sub) →
  avl sub → ctx_avl h' ctx → Z.abs (ht_of sub - h') ≤ 1 →
  match w with
  | Some a => a ∈ addrs (plug ctx sub) ∧ lokx a (plug ctx sub)
  | None => ctx = [] ∧ all_lok sub
  end →
  ∃ t1 t', rebal_up (length (addrs (plug ctx sub))) (ctx, sub) = Some t1 ∧
           update_at w t1 = Some t' ∧ Inv t' ∧ inorder t' = inorder (plug ctx sub).
Proof.
  intros Hnd Hb Ha Hc Hh Hw.
  destruct (rebal_up_avl (length (addrs (plug ctx sub))) ctx sub h'
              (length_ctx_plug ctx sub) Ha Hc Hh) as (t1 & Er & Ha1).
  pose proof (rebal_up_inorder _ _ _ Er) as Hi1. simpl in Hi1.
  assert (NoDup (addrs t1)) as Hnd1 by (by apply (NoDup_inorder _ _ Hi1)).
  exists t1. destruct w as [a|].
  - destruct Hw as [Hin Hl].
    pose proof (rebal_up_lokx a _ _ _ Er Hl) as Hl1.
    assert (a ∈ addrs t1) as Hin1 by (by rewrite <- inorder_addrs, Hi1, inorder_addrs).
    destruct (update_at_all_lok a t1 Hnd1 Hin1 Hl1) as (t' & Eu & Hl' & Hi' & Ha').
    exists t'. split; [done|]. split; [done|]. split; [|by rewrite Hi'].
    split; [| |by apply Ha'|done].
    + apply (NoDup_inorder _ _ Hi' Hnd1).
    + apply (bst_inorder _ _ Hi'), (bst_inorder _ _ Hi1), Hb.
  - destruct Hw as [-> Hl]. unfold rebal_up in Er. simpl in *. injection Er as <-.
    exists sub. split; [done|]. split; [done|]. split; [|done]. by split.
Qed.

Lemma avl_new_leaf x k v : avl (new_leaf x k v).
Proof. simpl. split_and!; try done; lia. Qed.

Lemma put_t_inv k v t :
  Inv t →
  ∃ t', put_t k v t = Some t' ∧ Inv t' ∧
        inorder t' = inorder (plug (put_z (next_addr t) k v t).1
                                   (put_z (next_addr t) k v t).2).
Proof.
  intros [Hnd Hb Ha Hl]. unfold put_t.
  pose proof (put_z_NoDup k v t Hnd) as Hndz.
  pose proof (put_z_bst (next_addr t) k v t Hb) as Hbz.
  pose proof (descend_plug k t []) as Hp. simpl in Hp.
  set (x := next_addr t) in *. clearbody x.
  destruct (put_z_case x k v t) as [ctx Hd Hz|ctx a l v0 h s r Hd Hz];
    rewrite Hz in *; rewrite Hd in Hp; cbn [fst snd] in *; subst t.
  - apply avl_plug in Ha as [_ Hc].
    destruct (finish_inv ctx (new_leaf x k v) (Some x) 0 Hndz Hbz (avl_new_leaf x k v) Hc)
      as (t1 & t' & -> & Eu & Hi & Hio).
    { simpl. lia. }
    { split.
      - apply elem_of_addrs_plug. left. simpl. apply list_elem_of_here.
      - apply (lokx_plug_replace x ctx Leaf);
          [by apply all_lok_lokx| | |by intros ?%elem_of_nil].
        + simpl. split_and!; try done. left. apply list_elem_of_here.
        + left. simpl. apply list_elem_of_here. }
    exists t'. split; [exact Eu|done].
  - pose proof Ha as [Has Hc]%avl_plug.
    apply all_lok_lokx with (f := a) in Hl.
    pose proof (lokx_plug_inv a ctx _ Hl) as [(Hll & Hlr & _) _].
    assert (a ∈ addrs (Nd a l k v h s r)) as Hin.
    { simpl. apply elem_of_app. right. apply list_elem_of_here. }
    destruct (finish_inv ctx (Nd a l k v h s r) (Some a) h Hndz Hbz Has Hc)
      as (t1 & t' & -> & Eu & Hi & Hio).
    { simpl. lia. }
    { split.
      - apply elem_of_addrs_plug. by left.
      - apply (lokx_plug_replace a ctx (Nd a l k v0 h s r)); [done| |by left|done].
        simpl. split_and!; try done. by left. }
    exists t'. split; [exact Eu|done].
Qed.

Lemma lokx_remove fr ctx S S' :
  lokx (frame_addr fr) (plug (fr :: ctx) S) →
  lokx (frame_addr fr) S' →
  lokx (frame_addr fr) (plug (fr :: ctx) S').
Proof.
  intros H HS'. simpl in *.
  assert (frame_addr fr ∈ addrs (fill fr S')) as Hin.
  { rewrite addrs_fill. apply list_elem_of_here. }
  apply (lokx_plug_replace _ ctx (fill fr S)); [done| |by left|done].
  apply lokx_plug_inv in H as [H _]. apply lokx_fill in H as (_ & Hs & _).
  apply lokx_fill. split_and!; [done|done|by left].
Qed.

Lemma lokx_splice f t : lokx f t → lokx f (splice t).
Proof.
  destruct t as [|a l k v h s r]; [done|]. simpl. intros (Hl & Hr & _).
  by destruct l.
Qed.

Lemma all_lok_splice t : all_lok t → all_lok (splice t).
Proof.
  destruct t as [|a l k v h s r]; [done|]. simpl. intros (Hl & Hr & _).
  by destruct l.
Qed.

Lemma avl_splice a l k v h s r :
  avl (Nd a l k v h s r) → l = Leaf ∨ r = Leaf →
  avl (splice (Nd a l k v h s r)) ∧ Z.abs (ht_of (splice (Nd a l k v h s r)) - h) ≤ 1.
Proof.
  simpl. intros (Hl & Hr & Hb & ->) Hlr.
  pose proof (avl_ht_nonneg _ Hl). pose proof (avl_ht_nonneg _ Hr).
  destruct Hlr as [-> | ->]; simpl in *.
  - split; [done|]. lia.
  - destruct l; simpl in *; (split; [done|]); lia.
Qed.

Lemma erase_t_inv k t :
  Inv t →
  ∃ t', erase_t k t = Some t' ∧ Inv t' ∧
        inorder t' = inorder (plug (erase_z k t).1 (erase_z k t).2).
Proof.
  intros [Hnd Hb Ha Hl]. unfold erase_t.
  pose proof (erase_z_NoDup k t Hnd) as Hndz.
  pose proof (erase_z_bst k t Hb) as Hbz.
  pose proof (descend_plug k t []) as Hp.
  destruct (erase_z_case k t) as
    [ctx Hd Hz|ctx a l v h s r Hd Hlr Hz|ctx a l v h s r c sa ks vs hs ss sr Hd Hl' Hr' Hm Hz];
    rewrite Hz in *; rewrite Hd in Hp; cbn [fst snd plug] in *; subst t.
  - apply avl_plug in Ha as [_ Hc].
    destruct (finish_inv ctx Leaf (ctx_parent ctx) 0 Hndz Hbz I Hc)
      as (t1 & t' & -> & Eu & Hi & Hio).
    { simpl. lia. }
    { destruct (ctx_parent ctx) as [p|] eqn:Ep.
      - split; [|by apply all_lok_lokx].
        apply elem_of_addrs_plug. right. by apply ctx_parent_in.
      - by destruct ctx. }
    exists t'. split; [exact Eu|done].
  - pose proof Ha as [Has Hc]%avl_plug.
    destruct (avl_splice _ _ _ _ _ _ _ Has Hlr) as [Has' Hh'].
    destruct (finish_inv ctx (splice (Nd a l k v h s r)) (ctx_parent ctx) h Hndz Hbz Has' Hc Hh')
      as (t1 & t' & -> & Eu & Hi & Hio).
    { destruct ctx as [|fr ctx]; simpl ctx_parent; cbv iota.
      - split; [done|]. by apply all_lok_splice.
      - split.
        + apply elem_of_addrs_plug. right. simpl. apply list_elem_of_here.
        + apply (lokx_remove fr ctx (Nd a l k v h s r)); [by apply all_lok_lokx|].
          apply lokx_splice. apply (all_lok_lokx (frame_addr fr)) in Hl.
          by apply lokx_plug_inv in Hl as [? _]. }
    exists t'. split; [exact Eu|done].
  - pose proof (descend_min_plug r []) as Hpr. rewrite Hm in Hpr. simpl in Hpr.
    set (S := Nd sa Leaf ks vs hs ss sr) in *.
    set (C := c ++ Fr false a ks vs h s l :: ctx) in *.
    assert (plug C S = plug ctx (Nd a l ks vs h s r)) as HCS.
    { subst C. rewrite plug_app. simpl. by rewrite Hpr. }
    assert (avl (plug C S)) as HaC.
    { rewrite HCS. apply avl_plug. apply avl_plug in Ha. done. }
    apply avl_plug in HaC as [HaS HcC].
    assert (avl sr ∧ Z.abs (ht_of sr - hs) ≤ 1) as [Hasr Hhsr].
    { destruct HaS as (_ & Hsr & _ & Hhs). simpl in *.
      pose proof (avl_ht_nonneg _ Hsr). split; [done|]. lia. }
    assert (∃ fr C2, C = fr :: C2) as (fr & C2 & EC).
    { subst C. destruct c; simpl; by eauto. }
    assert (frame_addr fr ∈ addrs (Nd a l ks vs h s r)) as Hz0.
    { destruct c as [|fr' c']; simpl in EC; injection EC as <- <-.
      - simpl. apply elem_of_app. right. apply list_elem_of_here.
      - simpl. apply elem_of_app. right. apply list_elem_of_further.
        rewrite <- Hpr. apply elem_of_addrs_plug. right. simpl. apply list_elem_of_here. }
    assert (lokx (frame_addr fr) (plug C S)) as HlC.
    { rewrite HCS.
      apply (lokx_plug_replace _ ctx (Nd a l k v h s r)); [by apply all_lok_lokx| |by left|done].
      apply (all_lok_lokx (frame_addr fr)) in Hl.
      apply lokx_plug_inv in Hl as [(Hll & Hlr & _) _].
      simpl. split_and!; [done|done|by left]. }
    destruct (finish_inv C sr (ctx_parent C) hs Hndz Hbz Hasr HcC Hhsr)
      as (t1 & t' & -> & Eu & Hi & Hio).
    { rewrite EC. simpl ctx_parent. cbv iota. split.
      - apply elem_of_addrs_plug. right. simpl. apply list_elem_of_here.
      - rewrite EC in HlC. apply (lokx_remove fr C2 S); [done|].
        apply lokx_plug_inv in HlC as [(_ & Hsr & _) _]. done. }
    exists t'. split; [exact Eu|done].
Qed.

(** * Every reachable state *)

Lemma length_inorder t : length (inorder t) = length (addrs t).
Proof. by rewrite <- inorder_addrs, length_fmap. Qed.

Lemma inorder_length_addrs t t' :
  inorder t' = inorder t → length (addrs t') = length (addrs t).
Proof. intros E. by rewrite <- !length_inorder, E. Qed.

Lemma put_z_length x k v t :
  Z.of_nat (length (addrs (plug (put_z x k v t).1 (put_z x k v t).2)))
  = match (descend k [] t).2 with
    | Leaf => Z.of_nat (length (addrs t)) + 1
    | _ => Z.of_nat (length (addrs t))
    end.
Proof.
  rewrite put_z_addrs. destruct (descend k [] t).2; simpl; lia.
Qed.

Lemma erase_z_length k t :
  Z.of_nat (length (addrs (plug (erase_z k t).1 (erase_z k t).2)))
  = match (descend k [] t).2 with
    | Leaf => Z.of_nat (length (addrs t))
    | _ => Z.of_nat (length (addrs t)) - 1
    end.
Proof.
  pose proof (descend_plug k t []) as Hp. simpl in Hp.
  destruct (erase_z_case k t) as
    [ctx Hd Hz|ctx a l v h s r Hd Hlr Hz|ctx a l v h s r c sa ks vs hs ss sr Hd Hl' Hr' Hm Hz];
    rewrite Hz; rewrite Hd in *; cbn [fst snd] in *; subst t.
  - done.
  - rewrite !length_addrs_plug.
    destruct Hlr as [-> | ->]; simpl; [lia|].
    destruct l; simpl; rewrite ?length_app; simpl; rewrite ?length_app; simpl; lia.
  - pose proof (descend_min_plug r []) as Hpr. rewrite Hm in Hpr. simpl in Hpr.
    assert (length (addrs (plug ctx (Nd a l k v h s r)))
            = length (addrs (plug (c ++ Fr false a ks vs h s l :: ctx)
                                  (Nd sa Leaf ks vs hs ss sr)))) as ->.
    { rewrite plug_app. simpl. rewrite Hpr. by rewrite !length_addrs_plug. }
    rewrite !length_addrs_plug. simpl. lia.
Qed.

(** One operation takes the state of a tree with the invariants to the
    state of another such tree. *)
Lemma exec_inv o t :
  Inv t → ∃ t', exec o (st_of t) = Some (tt, st_of t') ∧ Inv t'.
Proof.
  intros Hi. destruct o as [k v|k]; simpl.
  - destruct (put_t_inv k v t Hi) as (t' & Hp & Hi' & Hio).
    exists t'. split; [|done]. unfold st_of.
    rewrite (put_spec k v t t' _ (inv_nodup t Hi) Hp). do 2 f_equal.
    rewrite (inorder_length_addrs _ _ Hio). by rewrite put_z_length.
  - destruct (erase_t_inv k t Hi) as (t' & Hp & Hi' & Hio).
    exists t'. split; [|done]. unfold st_of.
    rewrite (erase_spec k t t' _ (inv_nodup t Hi) Hp). do 2 f_equal.
    rewrite (inorder_length_addrs _ _ Hio). by rewrite erase_z_length.
Qed.

Lemma run_inv ops : ∀ t,
  Inv t → ∃ t', run ops (st_of t) = Some (st_of t') ∧ Inv t'.
Proof.
  induction ops as [|o ops IH]; intros t Hi; simpl.
  - by exists t.
  - destruct (exec_inv o t Hi) as (t1 & -> & Hi1). by apply IH.
Qed.

Lemma st_of_Leaf : st_of Leaf = empty_map.
Proof. done. Qed.

(** Every sequence of operations on the empty map succeeds, and the state
    it reaches is the state of a tree with the invariants. *)
Lemma run_snoc ops o st0 st u st' :
  run ops st0 = Some st → exec o st = Some (u, st') → run (ops ++ [o]) st0 = Some st'.
Proof.
  revert st0. induction ops as [|o' ops IH]; intros st0; simpl.
  - intros [= ->] ->. done.
  - destruct (exec o' st0) as [[? st1]|]; [|done]. apply IH.
Qed.

Lemma run_empty ops : ∃ t, run ops empty_map = Some (st_of t) ∧ Inv t.
Proof. rewrite <- st_of_Leaf. apply run_inv, Inv_Leaf. Qed.

(** * What the invariants say node by node *)

(** The height of a tree, counted on its shape. *)
Fixpoint height (t : tree) : Z :=
  match t with
  | Leaf => 0
  | Nd _ l _ _ _ _ r => 1 + Z.max (height l) (height r)
  end.

(** The nodes of a tree, each with the subtree below it. *)
Fixpoint nodes (t : tree) : list tree :=
  match t with
  | Leaf => []
  | Nd _ l _ _ _ _ r => nodes l ++ t :: nodes r
  end.

Lemma length_nodes t : length (nodes t) = length (addrs t).
Proof.
  induction t as [|a l IHl k v h s r IHr]; simpl; [done|].
  rewrite !length_app. simpl. by rewrite IHl, IHr.
Qed.

Lemma nodes_cells t : ∀ p a l k v h s r,
  Nd a l k v h s r ∈ nodes t →
  ∃ p', (a, mkNode k v (rootp l) (rootp r) p' h s) ∈ cells p t.
Proof.
  induction t as [|b tl IHl kb vb hb sb tr IHr]; intros p a l k v h s r; simpl.
  - by intros ?%elem_of_nil.
  - rewrite elem_of_app, elem_of_cons. intros [H|[H|H]].
    + destruct (IHl (Some b) _ _ _ _ _ _ _ H) as [p' Hp]. exists p'.
      apply elem_of_app. by left.
    + injection H as -> -> -> -> -> -> ->. exists p.
      apply elem_of_app. right. apply list_elem_of_here.
    + destruct (IHr (Some b) _ _ _ _ _ _ _ H) as [p' Hp]. exists p'.
      apply elem_of_app. right. by apply list_elem_of_further.
Qed.

(** The record of a node of the tree in the store. *)
Lemma nodes_lookup t a l k v h s r :
  NoDup (addrs t) → Nd a l k v h s r ∈ nodes t →
  ∃ p, heap_of t !! a = Some (mkNode k v (rootp l) (rootp r) p h s).
Proof.
  intros Hnd Hin. destruct (nodes_cells t None _ _ _ _ _ _ _ Hin) as [p Hp].
  exists p. pose proof (holds_heap_of t Hnd) as Hh. unfold holds in Hh.
  rewrite Forall_forall in Hh. exact (Hh _ Hp).
Qed.

Lemma nodes_addrs t a l k v h s r : Nd a l k v h s r ∈ nodes t → a ∈ addrs t.
Proof.
  intros Hin. destruct (nodes_cells t None _ _ _ _ _ _ _ Hin) as [p Hp].
  rewrite <- (cells_addrs None). apply list_elem_of_fmap. by eexists (_, _).
Qed.

Lemma avl_height t : avl t → ht_of t = height t.
Proof.
  induction t as [|a l IHl k v h s r IHr]; simpl; [done|].
  intros (Hl & Hr & _ & ->). rewrite <- IHl, <- IHr by done. lia.
Qed.

Lemma nodes_avl t s : s ∈ nodes t → avl t → avl s.
Proof.
  induction t as [|a l IHl k v h s' r IHr]; simpl.
  - by intros ?%elem_of_nil.
  - rewrite elem_of_app, elem_of_cons. intros [H|[->|H]] Ht; [|done|];
      destruct Ht as (Hl & Hr & Hb); auto.
Qed.

Lemma nodes_all_lok t s : s ∈ nodes t → all_lok t → all_lok s.
Proof.
  induction t as [|a l IHl k v h s' r IHr]; simpl.
  - by intros ?%elem_of_nil.
  - rewrite elem_of_app, elem_of_cons. intros [H|[->|H]] Ht; [|done|];
      destruct Ht as (Hl & Hr & Hb); auto.
Qed.

Lemma nodes_bst t s : s ∈ nodes t → bst t → bst s.
Proof.
  induction t as [|a l IHl k v h s' r IHr]; simpl.
  - by intros ?%elem_of_nil.
  - rewrite elem_of_app, elem_of_cons. intros [H|[->|H]] Hb; [|done|].
    + apply IHl; [done|]. refine (bst_sublist _ _ _ Hb). rewrite keys_Nd.
      by apply sublist_inserts_r.
    + apply IHr; [done|]. refine (bst_sublist _ _ _ Hb). rewrite keys_Nd.
      apply sublist_inserts_l. by apply sublist_cons.
Qed.

(** Search order at one node. *)
Lemma bst_node a l k v h s r :
  bst (Nd a l k v h s r) →
  (∀ x, x ∈ keys l → x < k) ∧ (∀ x, x ∈ keys r → k < x).
Proof.
  unfold bst. rewrite keys_Nd. intros H.
  apply StronglySorted_app in H as (Hlr & _ & Hr).
  apply StronglySorted_inv in Hr as [_ Hk]. rewrite Forall_forall in Hk.
  split; [|done]. intros x Hx. apply (Hlr x k Hx). apply list_elem_of_here.
Qed.

(** ** Statistics *)

Definition sum_list (xs : list Z) : Z := foldr Z.add 0 xs.

Lemma wrap_in_int z : in_int z → wrap z = z.
Proof.
  unfold in_int, int_min, int_max, wrap. intros H.
  rewrite Z.mod_small by lia. lia.
Qed.

Lemma wrap_range z : in_int (wrap z).
Proof.
  unfold in_int, int_min, int_max, wrap.
  pose proof (Z.mod_pos_bound (z + 2 ^ 31) (2 ^ 32)). lia.
Qed.

Lemma wrap_add_l a b : wrap (wrap a + b) = wrap (a + b).
Proof.
  unfold wrap.
  replace (((a + 2 ^ 31) mod 2 ^ 32 - 2 ^ 31) + b + 2 ^ 31)
    with ((a + 2 ^ 31) mod 2 ^ 32 + b) by lia.
  replace (a + b + 2 ^ 31) with ((a + 2 ^ 31) + b) by lia.
  by rewrite Zplus_mod_idemp_l.
Qed.

Lemma wrap_add_r a b : wrap (a + wrap b) = wrap (a + b).
Proof. by rewrite (Z.add_comm a), wrap_add_l, (Z.add_comm b). Qed.

(** [s] is the count, the sum as an [int], the minimum and the maximum of
    the values of [t]. *)
Definition stats_correct (s : Stats) (t : tree) : Prop :=
  getNum s = Z.of_nat (length (nodes t)) ∧
  getSum s = wrap (sum_list (vals t)) ∧
  (getMin s ∈ vals t ∧ ∀ x, x ∈ vals t → getMin s ≤ x) ∧
  (getMax s ∈ vals t ∧ ∀ x, x ∈ vals t → x ≤ getMax s).

Definition info_correct (t : tree) : Prop :=
  match t with
  | Leaf => True
  | Nd _ _ _ _ _ s _ => stats_correct s t
  end.

Lemma vals_Nd a l k v h s r : vals (Nd a l k v h s r) = vals l ++ v :: vals r.
Proof. unfold vals. simpl. by rewrite !fmap_app. Qed.

Lemma sum_list_app xs ys : sum_list (xs ++ ys) = sum_list xs + sum_list ys.
Proof. induction xs as [|x xs IH]; simpl; [done|]. rewrite IH. lia. Qed.

Lemma info_correct_num t :
  info_correct t → (if info_of t is Some s then getNum s else 0) = Z.of_nat (length (nodes t)).
Proof. destruct t; simpl; [done|]. by intros (? & _). Qed.

Lemma info_correct_sum t :
  info_correct t → (if info_of t is Some s then getSum s else 0) = wrap (sum_list (vals t)).
Proof. destruct t; simpl; [done|]. by intros (_ & ? & _). Qed.

Lemma info_correct_min t v :
  info_correct t →
  let m := if info_of t is Some s then getMin s else v in
  (m = v ∨ m ∈ vals t) ∧ ∀ x, x ∈ vals t → m ≤ x.
Proof.
  destruct t; simpl.
  - intros _. split; [by left|]. by intros x ?%elem_of_nil.
  - intros (_ & _ & [? ?] & _). split; [by right|done].
Qed.

Lemma info_correct_max t v :
  info_correct t →
  let m := if info_of t is Some s then getMax s else v in
  (m = v ∨ m ∈ vals t) ∧ ∀ x, x ∈ vals t → x ≤ m.
Proof.
  destruct t; simpl.
  - intros _. split; [by left|]. by intros x ?%elem_of_nil.
  - intros (_ & _ & _ & [? ?]). split; [by right|done].
Qed.

(** Statistics that agree with [updateStats] at every node are the true
    statistics of every subtree. *)
Lemma all_lok_correct t : all_lok t → info_correct t.
Proof.
  induction t as [|a l IHl k v h s r IHr]; [done|].
  intros (Hl & Hr & Hs). specialize (IHl Hl). specialize (IHr Hr).
  simpl in Hs. subst s. unfold info_correct, stats_correct.
  rewrite vals_Nd. cbn [nodes getNum getSum getMin getMax TreeMapStats.updateStats].
  pose proof (info_correct_num l IHl) as Hnl. pose proof (info_correct_num r IHr) as Hnr.
  pose proof (info_correct_sum l IHl) as Hsl. pose proof (info_correct_sum r IHr) as Hsr.
  destruct (info_correct_min l v IHl) as [Hml Hml'].
  destruct (info_correct_min r v IHr) as [Hmr Hmr'].
  destruct (info_correct_max l v IHl) as [HMl HMl'].
  destruct (info_correct_max r v IHr) as [HMr HMr'].
  split_and!.
  - rewrite Hnl, Hnr, length_app. simpl. lia.
  - rewrite Hsl, Hsr, sum_list_app. cbn [sum_list foldr]. unfold add_int.
    rewrite (wrap_add_r v), wrap_add_r, wrap_add_l. f_equal. unfold sum_list. lia.
  - set (ml := if info_of l is Some s then getMin s else v) in *.
    set (mr := if info_of r is Some s then getMin s else v) in *.
    rewrite elem_of_app, elem_of_cons.
    destruct (Z.min_spec v (Z.min ml mr)) as [[_ ->]|[_ ->]]; [by auto|].
    destruct (Z.min_spec ml mr) as [[_ ->]|[_ ->]].
    + destruct Hml as [->|?]; by auto.
    + destruct Hmr as [->|?]; by auto.
  - intros x. rewrite elem_of_app, elem_of_cons. intros [Hx|[->|Hx]].
    + specialize (Hml' x Hx). lia.
    + lia.
    + specialize (Hmr' x Hx). lia.
  - set (ml := if info_of l is Some s then getMax s else v) in *.
    set (mr := if info_of r is Some s then getMax s else v) in *.
    rewrite elem_of_app, elem_of_cons.
    destruct (Z.max_spec v (Z.max ml mr)) as [[_ ->]|[_ ->]]; [|by auto].
    destruct (Z.max_spec ml mr) as [[_ ->]|[_ ->]].
    + destruct HMr as [->|?]; by auto.
    + destruct HMl as [->|?]; by auto.
  - intros x. rewrite elem_of_app, elem_of_cons. intros [Hx|[->|Hx]].
    + specialize (HMl' x Hx). lia.
    + lia.
    + specialize (HMr' x Hx). lia.
Qed.

(** * Operations that leave the shape alone *)

Lemma reset_t_id t : avl t → reset_t t = t.
Proof. destruct t; simpl; [done|]. by intros (_ & _ & _ & <-). Qed.

Lemma balanced_t_avl t : avl t → balanced_t t = true.
Proof. destruct t; simpl; [done|]. intros (_ & _ & ? & _). lia. Qed.

(** At a balanced node with the right stored height the walk of
    [rebalanceAncestors] stops at once. *)
Lemma rebal_id j ctx t : avl t → rebal (S j) ctx t = Some (plug ctx t).
Proof.
  intros Ha. destruct t as [|a l k v h s r]; [done|].
  cbn [rebal]. unfold step_z. rewrite (balanced_t_avl _ Ha), (reset_t_id _ Ha).
  by rewrite Z.eqb_refl.
Qed.

Lemma rebal_up_id j ctx sub :
  avl (plug ctx sub) → (length ctx ≤ j)%nat → rebal_up j (ctx, sub) = Some (plug ctx sub).
Proof.
  intros Ha Hj. unfold rebal_up. destruct ctx as [|f ctx]; [done|]. cbn [fst snd length] in *.
  destruct j as [|j]; [lia|].
  change (plug (f :: ctx) sub) with (plug ctx (fill f sub)) in *.
  apply rebal_id. by apply avl_plug in Ha as [? _].
Qed.

Lemma locate_None a t : ∀ ctx, a ∉ addrs t → locate a ctx t = None.
Proof.
  induction t as [|b l IHl k v h s r IHr]; intros ctx; simpl; [done|].
  rewrite elem_of_app, elem_of_cons. intros Hn.
  destruct (decide (a = b)) as [->|_]; [exfalso; by auto|].
  rewrite IHl by auto. apply IHr. by auto.
Qed.

(** In a tree without repeated addresses [locate] finds the one position
    of an address. *)
Lemma locate_plug_eq a ctx : ∀ t c0,
  rootp t = Some a → NoDup (addrs (plug ctx t)) →
  locate a c0 (plug ctx t) = Some (ctx ++ c0, t).
Proof.
  induction ctx as [|f ctx IH] using rev_ind; intros t c0 Hr Hnd.
  - destruct t as [|b l k v h s r]; [done|]. injection Hr as ->.
    simpl. by rewrite decide_True.
  - rewrite plug_app in *. cbn [plug] in *.
    assert (a ∈ addrs (plug ctx t)) as Hin.
    { apply elem_of_addrs_plug. left. by apply rootp_in. }
    rewrite <- app_assoc. cbn [app].
    destruct f as [[] b k v h s sib]; cbn [fill locate] in *;
      apply NoDup_app in Hnd as (Hn1 & Hn2 & Hn3);
      apply NoDup_cons in Hn3 as [Hn3 Hn4].
    + rewrite decide_False.
      2:{ intros ->. apply (Hn2 _ Hin). apply list_elem_of_here. }
      by rewrite IH.
    + rewrite decide_False.
      2:{ intros ->. done. }
      rewrite locate_None.
      2:{ intros Hs. apply (Hn2 _ Hs). by apply list_elem_of_further. }
      by rewrite IH.
Qed.

Lemma update_at_id w t : all_lok t → (∀ a, w = Some a → a ∈ addrs t) →
  NoDup (addrs t) → update_at w t = Some t.
Proof.
  intros Hl Hw Hnd. destruct w as [a|]; [|done]. unfold update_at.
  destruct (locate_is_Some a t [] (Hw a eq_refl)) as [[ctx sub] El]. rewrite El.
  apply locate_plug in El as [Hp _]. simpl in Hp. subst t. cbn [fst snd].
  by rewrite (updateTree_z_id _ _ Hl).
Qed.

(** [erase] of a key the search does not find gives the tree back. *)
Lemma erase_t_absent k t ctx :
  Inv t → descend k [] t = (ctx, Leaf) → erase_t k t = Some t.
Proof.
  intros [Hnd Hb Ha Hl] Hd. unfold erase_t, erase_z. rewrite Hd. cbn [fst snd].
  pose proof (descend_plug k t []) as Hp. rewrite Hd in Hp. simpl in Hp.
  rewrite Hp. rewrite <- Hp at 2. rewrite rebal_up_id.
  - rewrite Hp. apply update_at_id; [done| |done].
    intros a Ea. rewrite <- Hp. apply elem_of_addrs_plug. right. by apply ctx_parent_in.
  - by rewrite Hp.
  - rewrite <- Hp. apply length_ctx_plug.
Qed.

Lemma descend_absent k t : k ∉ keys t → (descend k [] t).2 = Leaf.
Proof.
  intros Hk. pose proof (descend_plug k t []) as Hp. simpl in Hp.
  pose proof (descend_found k t []) as Hf.
  destruct (descend k [] t) as [ctx sub]. cbn [fst snd] in *.
  destruct sub as [|a l k' v h s r]; [done|].
  rewrite (Hf _ _ _ _ _ _ _ eq_refl) in Hp. exfalso. apply Hk.
  rewrite <- Hp, keys_plug, keys_Nd. rewrite !elem_of_app, elem_of_cons. by auto.
Qed.

Lemma erase_absent_inv k t :
  Inv t → k ∉ keys t → TreeMapStats.erase k (st_of t) = Some (tt, st_of t).
Proof.
  intros Hi Hk. pose proof (descend_absent k t Hk) as Hd.
  destruct (descend k [] t) as [ctx sub] eqn:Ed. simpl in Hd. subst sub.
  unfold st_of. rewrite (erase_spec k t t _ (inv_nodup t Hi) (erase_t_absent k t ctx Hi Ed)).
  by rewrite Ed.
Qed.

(** * From the records of the store to the nodes of the tree *)

Lemma cells_nodes t : ∀ p a nd,
  (a, nd) ∈ cells p t →
  ∃ l k v h s r p', Nd a l k v h s r ∈ nodes t ∧
                    nd = mkNode k v (rootp l) (rootp r) p' h s.
Proof.
  induction t as [|b tl IHl kb vb hb sb tr IHr]; intros p a nd; simpl.
  - by intros ?%elem_of_nil.
  - rewrite elem_of_app, elem_of_cons. intros [H|[H|H]].
    + destruct (IHl _ _ _ H) as (l & k & v & h & s & r & p' & Hin & ->).
      exists l, k, v, h, s, r, p'. split; [|done]. apply elem_of_app. by left.
    + injection H as -> ->. exists tl, kb, vb, hb, sb, tr, p. split; [|done].
      apply elem_of_app. right. apply list_elem_of_here.
    + destruct (IHr _ _ _ H) as (l & k & v & h & s & r & p' & Hin & ->).
      exists l, k, v, h, s, r, p'. split; [|done].
      apply elem_of_app. right. by apply list_elem_of_further.
Qed.

(** Every record of the store is a node of the tree. *)
Lemma lookup_nodes t a nd :
  heap_of t !! a = Some nd →
  ∃ l k v h s r p, Nd a l k v h s r ∈ nodes t ∧
                   nd = mkNode k v (rootp l) (rootp r) p h s.
Proof.
  intros H. apply elem_of_list_to_map_2 in H. by apply cells_nodes in H.
Qed.

Lemma nodes_inorder t a l k v h s r :
  Nd a l k v h s r ∈ nodes t → (a, (k, v)) ∈ inorder t.
Proof.
  induction t as [|b tl IHl kb vb hb sb tr IHr]; simpl.
  - by intros ?%elem_of_nil.
  - rewrite !elem_of_app, !elem_of_cons. intros [H|[H|H]]; [by auto| |by auto].
    injection H as -> -> -> -> -> -> ->. by auto.
Qed.

Lemma inorder_nodes t a k v :
  (a, (k, v)) ∈ inorder t → ∃ l h s r, Nd a l k v h s r ∈ nodes t.
Proof.
  induction t as [|b tl IHl kb vb hb sb tr IHr]; simpl.
  - by intros ?%elem_of_nil.
  - rewrite elem_of_app, elem_of_cons. intros [H|[H|H]].
    + destruct (IHl H) as (l & h & s & r & Hin). exists l, h, s, r.
      apply elem_of_app. by left.
    + injection H as -> -> ->. exists tl, hb, sb, tr.
      apply elem_of_app. right. apply list_elem_of_here.
    + destruct (IHr H) as (l & h & s & r & Hin). exists l, h, s, r.
      apply elem_of_app. right. by apply list_elem_of_further.
Qed.

Lemma keys_nodes t k : k ∈ keys t → ∃ a l v h s r, Nd a l k v h s r ∈ nodes t.
Proof.
  unfold keys. intros H.
  apply list_elem_of_fmap in H as ([k' v] & -> & H).
  apply list_elem_of_fmap in H as ([a kv] & E & H). simpl in E. subst kv. simpl.
  destruct (inorder_nodes _ _ _ _ H) as (l & h & s & r & Hin). by eauto 10.
Qed.

Lemma nodes_keys t a l k v h s r : Nd a l k v h s r ∈ nodes t → k ∈ keys t.
Proof.
  intros H%nodes_inorder. unfold keys.
  apply list_elem_of_fmap. exists (k, v). split; [done|].
  apply list_elem_of_fmap. by exists (a, (k, v)).
Qed.

(** A key of the tree is the key of a record of the store. *)
Lemma keys_lookup t k :
  NoDup (addrs t) → k ∈ keys t → ∃ a nd, heap_of t !! a = Some nd ∧ key nd = k.
Proof.
  intros Hnd (a & l & v & h & s & r & Hin)%keys_nodes.
  destruct (nodes_lookup _ _ _ _ _ _ _ _ Hnd Hin) as [p Hp]. by eauto.
Qed.

(** The state a run reaches determines the run's tree. *)
Lemma run_reaches ops st :
  run ops empty_map = Some st → ∃ t, st = st_of t ∧ Inv t.
Proof.
  intros Hrun. destruct (run_empty ops) as (t & Ht & Hi).
  exists t. split; [congruence|done].
Qed.

(** The search finds every node of a tree in search order. *)
Lemma descend_node t a l k v h s r : ∀ c0,
  bst t → Nd a l k v h s r ∈ nodes t →
  ∃ ctx, descend k c0 t = (ctx, Nd a l k v h s r).
Proof.
  induction t as [|b tl IHl kb vb hb sb tr IHr]; intros c0 Hb; simpl.
  - by intros ?%elem_of_nil.
  - destruct (bst_node _ _ _ _ _ _ _ Hb) as [Hlt Hgt].
    rewrite elem_of_app, elem_of_cons. intros [H|[H|H]].
    + pose proof (Hlt _ (nodes_keys _ _ _ _ _ _ _ _ H)).
      destruct (kb =? k) eqn:E; [lia|]. destruct (kb >? k) eqn:E'; [|lia].
      apply IHl; [|done]. refine (bst_sublist _ _ _ Hb). rewrite keys_Nd.
      by apply sublist_inserts_r.
    + injection H as -> -> -> -> -> -> ->. rewrite Z.eqb_refl. by eauto.
    + pose proof (Hgt _ (nodes_keys _ _ _ _ _ _ _ _ H)).
      destruct (kb =? k) eqn:E; [lia|]. destruct (kb >? k) eqn:E'; [lia|].
      apply IHr; [|done]. refine (bst_sublist _ _ _ Hb). rewrite keys_Nd.
      apply sublist_inserts_l. by apply sublist_cons.
Qed.

Lemma lookup_inorder t b nb :
  heap_of t !! b = Some nb → (b, (key nb, value nb)) ∈ inorder t.
Proof.
  intros (l & k & v & h & s & r & p & Hin & ->)%lookup_nodes.
  by apply nodes_inorder in Hin.
Qed.

Lemma inorder_lookup t b k v :
  NoDup (addrs t) → (b, (k, v)) ∈ inorder t →
  ∃ nb, heap_of t !! b = Some nb ∧ key nb = k ∧ value nb = v.
Proof.
  intros Hnd (l & h & s & r & Hin)%inorder_nodes.
  destruct (nodes_lookup _ _ _ _ _ _ _ _ Hnd Hin) as [p Hp]. by eauto.
Qed.

(** ** The links of the records *)

(** A record without its value and statistics: what is left is the key,
    the three pointers and the stored height. *)
Definition strip (nd : Node) : Node :=
  mkNode (key nd) 0 (left nd) (right nd) (parent nd) (ht nd) (mkStats 0 0 0 0).

Definition links (t : tree) : gmap addr Node := strip <$> heap_of t.

Definition scells (p : ptr) (t : tree) : list (addr * Node) :=
  prod_map id strip <$> cells p t.

Lemma links_scells t : links t = list_to_map (scells None t).
Proof. unfold links, heap_of, scells. by rewrite list_to_map_fmap. Qed.

Lemma scells_Nd p a l k v h s r :
  scells p (Nd a l k v h s r)
  = scells (Some a) l
      ++ (a, mkNode k 0 (rootp l) (rootp r) p h (mkStats 0 0 0 0)) :: scells (Some a) r.
Proof. unfold scells. simpl. by rewrite fmap_app. Qed.

Lemma scells_plug ctx : ∀ c t1 t2,
  rootp t1 = rootp t2 → (∀ p, scells p t1 = scells p t2) →
  ∀ p, scells p (plug (refresh_ctx c ctx) t1) = scells p (plug ctx t2).
Proof.
  induction ctx as [|[d b k v h s sib] ctx IH]; intros c t1 t2 Hr Hs p; simpl; [done|].
  apply IH.
  - by destruct d.
  - intros q. destruct d; simpl; rewrite !scells_Nd, ?Hr, ?Hs; done.
Qed.

Lemma links_lookup t t' b nb :
  links t' = links t → heap_of t !! b = Some nb →
  ∃ nb', heap_of t' !! b = Some nb' ∧ key nb' = key nb ∧ left nb' = left nb ∧
         right nb' = right nb ∧ parent nb' = parent nb ∧ ht nb' = ht nb.
Proof.
  intros E Hb. assert (links t' !! b = Some (strip nb)) as H.
  { rewrite E. unfold links. by rewrite lookup_fmap, Hb. }
  unfold links in H. rewrite lookup_fmap in H.
  destruct (heap_of t' !! b) as [nb'|]; [|done]. simpl in H.
  exists nb'. split; [done|]. unfold strip in H.
  injection H as H1 H2 H3 H4 H5. done.
Qed.

Lemma links_dom t t' : links t' = links t → dom (heap_of t') = dom (heap_of t).
Proof.
  intros E. unfold links in E.
  by rewrite <- (dom_fmap_L strip (heap_of t')), E, dom_fmap_L.
Qed.

(** ** [put] of a key of the tree *)

Lemma rootp_plug_refresh ctx : ∀ c t1 t2,
  rootp t1 = rootp t2 → rootp (plug (refresh_ctx c ctx) t1) = rootp (plug ctx t2).
Proof.
  induction ctx as [|[d b k v h s sib] ctx IH]; intros c t1 t2 Hr; simpl; [done|].
  apply IH. by destruct d.
Qed.

Lemma put_t_present k v t ctx a l v0 h s r :
  Inv t → descend k [] t = (ctx, Nd a l k v0 h s r) →
  put_t k v t = Some (plug (updateTree_z ctx (Nd a l k v h s r)).1
                           (updateTree_z ctx (Nd a l k v h s r)).2).
Proof.
  intros [Hnd Hb Ha Hl] Hd. unfold put_t, put_z. rewrite Hd. cbn [fst snd].
  pose proof (descend_plug k t []) as Hp. rewrite Hd in Hp. simpl in Hp. subst t.
  assert (NoDup (addrs (plug ctx (Nd a l k v h s r)))) as Hnd'.
  { by rewrite (addrs_plug_eq ctx _ (Nd a l k v0 h s r)). }
  rewrite rebal_up_id.
  - cbn [rootp]. unfold update_at.
    rewrite (locate_plug_eq a ctx (Nd a l k v h s r) []); [|done|done].
    by rewrite app_nil_r.
  - apply avl_plug. by apply avl_plug in Ha.
  - apply length_ctx_plug.
Qed.

(** [put] of a key that has a node changes the value of that node and no
    key, pointer or stored height of any node. *)
Lemma put_existing_inv t k v a nd :
  Inv t → heap_of t !! a = Some nd → key nd = k →
  ∃ st', TreeMapStats.put k v (st_of t) = Some (tt, st') ∧
         root st' = root (st_of t) ∧ n st' = n (st_of t) ∧
         dom (heap st') = dom (heap (st_of t)) ∧
         ∀ b nb, heap (st_of t) !! b = Some nb →
           ∃ nb', heap st' !! b = Some nb' ∧
                  key nb' = key nb ∧ left nb' = left nb ∧ right nb' = right nb ∧
                  parent nb' = parent nb ∧ ht nb' = ht nb ∧
                  value nb' = if decide (b = a) then v else value nb.
Proof.
  intros Hi Ha Hk. pose proof Hi as [Hnd Hb Hav Hl].
  destruct (lookup_nodes _ _ _ Ha) as (l & k' & v0 & h & s & r & p & Hin & ->).
  simpl in Hk. subst k'.
  destruct (descend_node _ _ _ _ _ _ _ _ [] Hb Hin) as [ctx Hd].
  pose proof (put_t_present k v t ctx a l v0 h s r Hi Hd) as Hput.
  set (t' := plug _ _) in Hput.
  pose proof (descend_plug k t []) as Hp. rewrite Hd in Hp. simpl in Hp.
  assert (inorder t' = inorder (plug ctx (Nd a l k v h s r))) as Hio.
  { apply updateTree_z_inorder. }
  assert (NoDup (addrs t')) as Hnd'.
  { apply (NoDup_inorder _ _ Hio). rewrite (addrs_plug_eq ctx _ (Nd a l k v0 h s r)) by done.
    by rewrite Hp. }
  assert (links t' = links t) as Hlk.
  { rewrite !links_scells. f_equal. rewrite <- Hp. subst t'.
    unfold updateTree_z. cbn [fst snd refresh_t]. apply scells_plug; [done|].
    intros q. by rewrite !scells_Nd. }
  exists (stt t' (Z.of_nat (length (addrs t)))). unfold st_of.
  rewrite (put_spec k v t t' _ Hnd Hput), Hd. cbn [snd heap root n stt].
  split_and!; [done| |done|by apply links_dom|].
  { rewrite <- Hp. subst t'. unfold updateTree_z. cbn [fst snd refresh_t].
    by apply rootp_plug_refresh. }
  intros b nb Hb'.
  destruct (links_lookup _ _ _ _ Hlk Hb') as (nb' & Hb'' & ? & ? & ? & ? & ?).
  exists nb'. split_and!; try done.
  assert (∃ x, heap_of t' !! b = Some x ∧
               value x = if decide (b = a) then v else value nb) as (x & Hx & Hv).
  { destruct (decide (b = a)) as [->|Hne].
    - destruct (inorder_lookup t' a k v Hnd') as (x & Hx & _ & Hv); [|by eauto].
      rewrite Hio, inorder_plug. simpl.
      rewrite !elem_of_app, elem_of_cons. by auto.
    - destruct (inorder_lookup t' b (key nb) (value nb) Hnd') as (x & Hx & _ & Hv); [|by eauto].
      apply lookup_inorder in Hb'. rewrite <- Hp in Hb'.
      rewrite Hio. rewrite !inorder_plug in *. simpl in *.
      rewrite !elem_of_app, !elem_of_cons in *.
      destruct Hb' as [?|[[?|[E|?]]|?]]; [by auto|by auto| |by auto|by auto].
      by injection E as -> _ _. }
  rewrite Hb'' in Hx. injection Hx as <-. done.
Qed.

(** ** [erase] of the key of a node with two children *)

Lemma nodes_fill f t x : x ∈ nodes t → x ∈ nodes (fill f t).
Proof.
  destruct f as [[] b k v h s sib]; simpl; rewrite elem_of_app, elem_of_cons; by auto.
Qed.

Lemma nodes_plug ctx : ∀ t x, x ∈ nodes t → x ∈ nodes (plug ctx t).
Proof.
  induction ctx as [|f ctx IH]; intros t x Hx; simpl; [done|].
  by apply IH, nodes_fill.
Qed.

Lemma nodes_self a l k v h s r : Nd a l k v h s r ∈ nodes (Nd a l k v h s r).
Proof. simpl. apply elem_of_app. right. apply list_elem_of_here. Qed.

(** The entries before and after the erased key, in key order. *)
Lemma erase_t_two t a l k v h s r :
  Inv t → Nd a l k v h s r ∈ nodes t → l ≠ Leaf → r ≠ Leaf →
  ∃ t' sa ks vs hs ss sr P Q,
    Nd sa Leaf ks vs hs ss sr ∈ nodes t ∧
    BSTMap.successor (Some a) (st_of t) = Some (Some sa, st_of t) ∧
    erase_t k t = Some t' ∧ Inv t' ∧
    (descend k [] t).2 = Nd a l k v h s r ∧
    inorder t = P ++ (a, (k, v)) :: (sa, (ks, vs)) :: Q ∧
    inorder t' = P ++ (a, (ks, vs)) :: Q.
Proof.
  intros Hi Hin Hl Hr. pose proof Hi as [Hnd Hb Hav Hlk].
  destruct (descend_node _ _ _ _ _ _ _ _ [] Hb Hin) as [ctx Hd].
  pose proof (descend_plug k t []) as Hp. rewrite Hd in Hp. simpl in Hp.
  destruct (erase_t_inv k t Hi) as (t' & Het & Hi' & Hio).
  destruct (erase_z_case k t) as
    [ctx' Hd' Hz|ctx' a' l' v' h' s' r' Hd' Hlr Hz
    |ctx' a' l' v' h' s' r' c sa ks vs hs ss sr Hd' Hl' Hr' Hm Hz];
    rewrite Hd in Hd'; [done| |].
  { injection Hd' as <- <- <- <- <- <- <-. by destruct Hlr. }
  injection Hd' as <- <- <- <- <- <- <-.
  rewrite Hz in Hio. cbn [fst snd] in Hio.
  pose proof (descend_min_plug r []) as Hpr. rewrite Hm in Hpr. simpl in Hpr.
  pose proof (descend_min_inorder _ _ _ _ _ _ _ _ Hm) as Hir.
  exists t', sa, ks, vs, hs, ss, sr, (lefts ctx ++ inorder l),
    (inorder (plug c sr) ++ rights ctx).
  split_and!; try done.
  - rewrite <- Hp. apply nodes_plug. simpl. apply elem_of_app. right.
    apply list_elem_of_further. rewrite <- Hpr. apply nodes_plug, nodes_self.
  - unfold st_of. rewrite <- Hp. rewrite successor_spec; [|done|by rewrite Hp].
    by rewrite descend_min_snd, Hm.
  - by rewrite Hd.
  - rewrite <- Hp, inorder_plug. simpl. rewrite Hir.
    by repeat (rewrite <- app_assoc; simpl).
  - rewrite Hio, plug_app, inorder_plug. simpl.
    by repeat (rewrite <- app_assoc; simpl).
Qed.

Lemma rootp_Leaf t : rootp t ≠ None → t ≠ Leaf.
Proof. by destruct t. Qed.

(** [erase] of the key of a node with two children moves the key and the
    value of the next node in key order into that node and removes the
    next node, which has no left child. *)
Lemma erase_two_inv t k a nd :
  Inv t → heap_of t !! a = Some nd → key nd = k →
  left nd ≠ None → right nd ≠ None →
  ∃ st' sa ns nd',
    BSTMap.successor (Some a) (st_of t) = Some (Some sa, st_of t) ∧
    heap (st_of t) !! sa = Some ns ∧ left ns = None ∧
    k < key ns ∧
    (∀ b nb, heap (st_of t) !! b = Some nb → k < key nb → key ns ≤ key nb) ∧
    TreeMapStats.erase k (st_of t) = Some (tt, st') ∧
    heap st' !! a = Some nd' ∧ key nd' = key ns ∧ value nd' = value ns ∧
    heap st' !! sa = None ∧
    dom (heap st') = dom (heap (st_of t)) ∖ {[sa]} ∧
    n st' = n (st_of t) - 1 ∧
    (∀ b nb, heap (st_of t) !! b = Some nb → b ≠ a → b ≠ sa →
       ∃ nb', heap st' !! b = Some nb' ∧ key nb' = key nb ∧ value nb' = value nb).
Proof.
  intros Hi Ha Hk Hl Hr. pose proof Hi as [Hnd Hb Hav Hlk].
  destruct (lookup_nodes _ _ _ Ha) as (l & k' & v & h & s & r & p & Hin & ->).
  simpl in Hk, Hl, Hr. subst k'. apply rootp_Leaf in Hl, Hr.
  destruct (erase_t_two t a l k v h s r Hi Hin Hl Hr)
    as (t' & sa & ks & vs & hs & ss & sr & P & Q & Hs & Hsucc & Het & Hi' & Hd & Hio & Hio').
  destruct (nodes_lookup _ _ _ _ _ _ _ _ Hnd Hs) as [ps Hps].
  pose proof (inv_nodup _ Hi') as Hnd'.
  assert (addrs t = P.*1 ++ a :: sa :: Q.*1) as Hat.
  { by rewrite <- inorder_addrs, Hio, fmap_app. }
  assert (addrs t' = P.*1 ++ a :: Q.*1) as Hat'.
  { by rewrite <- inorder_addrs, Hio', fmap_app. }
  assert (keys t = P.*2.*1 ++ k :: ks :: Q.*2.*1) as Hkt.
  { unfold keys. by rewrite Hio, !fmap_app. }
  assert (sa ∉ addrs t') as Hsa.
  { rewrite Hat in Hnd. rewrite Hat'.
    apply NoDup_app in Hnd as (_ & Hn1 & Hn2).
    apply NoDup_cons in Hn2 as [Hn2 Hn3]. apply NoDup_cons in Hn3 as [Hn3 _].
    rewrite elem_of_app, elem_of_cons. intros [H|[->|H]].
    - apply (Hn1 _ H). apply list_elem_of_further, list_elem_of_here.
    - apply Hn2. apply list_elem_of_here.
    - done. }
  destruct (inorder_lookup t' a ks vs Hnd') as (nd' & Hnd'' & Hk' & Hv').
  { rewrite Hio'. rewrite elem_of_app, elem_of_cons. by auto. }
  exists (stt t' (Z.of_nat (length (addrs t)) - 1)), sa,
    (mkNode ks vs None (rootp sr) ps hs ss), nd'.
  unfold st_of in *. rewrite (erase_spec k t t' _ Hnd Het), Hd.
  cbn [heap root n stt].
  unfold bst in Hb. rewrite Hkt in Hb.
  apply StronglySorted_app in Hb as (Hb1 & _ & Hb2).
  apply StronglySorted_inv in Hb2 as [Hb2 Hb3].
  apply StronglySorted_inv in Hb2 as [_ Hb4].
  rewrite Forall_forall in Hb3, Hb4.
  split_and!; try done.
  - simpl. apply Hb3. apply list_elem_of_here.
  - intros b nb Hbb Hlt. simpl.
    assert (key nb ∈ keys t) as Hkin.
    { apply lookup_inorder in Hbb. unfold keys.
      apply list_elem_of_fmap. exists (key nb, value nb). split; [done|].
      apply list_elem_of_fmap. by exists (b, (key nb, value nb)). }
    rewrite Hkt in Hkin. rewrite elem_of_app, !elem_of_cons in Hkin.
    destruct Hkin as [H|[H|[H|H]]].
    + specialize (Hb1 _ k H). pose proof (Hb1 ltac:(apply list_elem_of_here)). lia.
    + lia.
    + lia.
    + specialize (Hb4 _ H). lia.
  - apply not_elem_of_dom. rewrite dom_heap_of. by rewrite elem_of_list_to_set.
  - rewrite !dom_heap_of. apply set_eq. intros x.
    rewrite elem_of_difference, !elem_of_list_to_set, elem_of_singleton.
    rewrite Hat' in Hsa. rewrite Hat, Hat'.
    rewrite !elem_of_app, !elem_of_cons in *. split.
    + intros H. split; [tauto|]. intros ->. tauto.
    + tauto.
  - intros b nb Hbb Hba Hbs.
    destruct (inorder_lookup t' b (key nb) (value nb) Hnd') as (x & Hx & ? & ?); [|by eauto].
    apply lookup_inorder in Hbb. rewrite Hio in Hbb. rewrite Hio'.
    rewrite !elem_of_app, !elem_of_cons in *.
    destruct Hbb as [?|[E|[E|?]]]; [by auto| | |by auto].
    + by injection E as -> _ _.
    + by injection E as -> _ _.
Qed.

(** * The restructuring in the words of the specification *)

(** The side of the taller child of a node, [true] for the left child; on a
    tie the side [tie]. *)
Definition taller_side (tie : bool) (t : tree) : bool :=
  match t with
  | Leaf => tie
  | Nd _ l _ _ _ _ r =>
      if ht_of l >? ht_of r then true
      else if ht_of r >? ht_of l then false
      else tie
  end.

Definition child (d : bool) (t : tree) : tree :=
  match t with
  | Leaf => Leaf
  | Nd _ l _ _ _ _ r => if d then l else r
  end.

(** [x], [y] and [z] are in one line: left-left or right-right. *)
Definition collinear (y_left x_left : bool) : bool := Bool.eqb y_left x_left.

(** A node over two subtrees, with the height and the statistics that the
    children give. *)
Definition node (a : addr) (l : tree) (k v : Z) (r : tree) : tree :=
  Nd a l k v (Z.max (ht_of l) (ht_of r) + 1)
     (TreeMapStats.updateStats v (info_of l) (info_of r)) r.

(** The left child [y] of [z] promoted above [z]: [z(y(A, B), C)] becomes
    [y(A, z(B, C))]. *)
Definition promote_left (t : tree) : tree :=
  match t with
  | Nd z (Nd y A ky vy _ _ B) kz vz _ _ C => node y A ky vy (node z B kz vz C)
  | _ => t
  end.

(** The right child [y] of [z] promoted above [z]: [z(A, y(B, C))] becomes
    [y(z(A, B), C)]. *)
Definition promote_right (t : tree) : tree :=
  match t with
  | Nd z A kz vz _ _ (Nd y B ky vy _ _ C) => node y (node z A kz vz B) ky vy C
  | _ => t
  end.

(** With [y] the taller child of [z] and [x] the taller child of [y]: when
    the three are in one line [y] is promoted above [z]; else [x] is
    promoted above [y] and then above [z]. *)
Definition restructure (t : tree) : tree :=
  match t with
  | Leaf => Leaf
  | Nd z L kz vz hz sz R =>
      let y_left := taller_side true t in
      let x_left := taller_side y_left (child y_left t) in
      if collinear y_left x_left then
        if y_left then promote_left t else promote_right t
      else
        if y_left then promote_left (Nd z (promote_right L) kz vz hz sz R)
        else promote_right (Nd z L kz vz hz sz (promote_left R))
  end.

Lemma taller_side_tallest b a l k v h s r :
  taller_side b (Nd a l k v h s r) = tallest_left b (Nd a l k v h s r).
Proof.
  simpl. destruct (ht_of l >? ht_of r) eqn:E1; [done|].
  destruct (ht_of r >? ht_of l) eqn:E2; destruct (ht_of l =? ht_of r) eqn:E3; simpl;
    try done; lia.
Qed.

(** [rebalance] at a node whose subtrees differ in height by 2 builds the
    restructured subtree and refreshes the statistics above it. *)
Lemma rebalance_z_restructure ctx z L kz vz hz sz R :
  let t := Nd z L kz vz hz sz R in
  let y_left := taller_side true t in
  let ty := child y_left t in
  let x_left := taller_side y_left ty in
  let tx := child x_left ty in
  avl L → avl R → Z.abs (ht_of L - ht_of R) = 2 →
  ty ≠ Leaf ∧ tx ≠ Leaf ∧
  rootp (restructure t) = (if collinear y_left x_left then rootp ty else rootp tx) ∧
  inorder (restructure t) = inorder t ∧
  rebalance_z ctx t = Some (refresh_ctx (info_of (restructure t)) ctx, restructure t).
Proof.
  intros t y_left ty x_left tx HL HR Hd. subst tx x_left ty y_left t.
  pose proof (avl_ht_nonneg _ HL). pose proof (avl_ht_nonneg _ HR).
  unfold restructure, rebalance_z, collinear. rewrite taller_side_tallest.
  destruct (tallest_left true (Nd z L kz vz hz sz R)) eqn:Ez; cbn [child].
  - destruct L as [|y A ky vy hy sy B]; [cbn [tallest_left ht_of Z.abs] in *; lia|].
    rewrite taller_side_tallest.
    destruct (tallest_left true (Nd y A ky vy hy sy B)) eqn:Ey; cbn [child Bool.eqb].
    + destruct HL as (HA & HB & ? & ->).
      pose proof (avl_ht_nonneg _ HA). pose proof (avl_ht_nonneg _ HB).
      split_and!; [done| |done| |done].
      * intros ->. cbn [tallest_left ht_of] in *. lia.
      * simpl. by repeat (rewrite <- app_assoc; simpl).
    + destruct HL as (HA & HB & ? & ->).
      pose proof (avl_ht_nonneg _ HA). pose proof (avl_ht_nonneg _ HB).
      destruct B as [|x B1 kx vx hx sx B2]; [cbn [tallest_left ht_of Z.abs] in *; lia|].
      split_and!; [done|done|done| |].
      * simpl. by repeat (rewrite <- app_assoc; simpl).
      * unfold srotL, srotR, updateTree_z, node. cbn. by rewrite refresh_ctx_idem.
  - destruct R as [|y B ky vy hy sy C]; [cbn [tallest_left ht_of Z.abs] in *; lia|].
    rewrite taller_side_tallest.
    destruct (tallest_left false (Nd y B ky vy hy sy C)) eqn:Ey; cbn [child Bool.eqb].
    + destruct HR as (HB & HC & ? & ->).
      pose proof (avl_ht_nonneg _ HB). pose proof (avl_ht_nonneg _ HC).
      destruct B as [|x B1 kx vx hx sx B2]; [cbn [tallest_left ht_of Z.abs] in *; lia|].
      split_and!; [done|done|done| |].
      * simpl. by repeat (rewrite <- app_assoc; simpl).
      * unfold srotL, srotR, updateTree_z, node. cbn. by rewrite refresh_ctx_idem.
    + destruct HR as (HB & HC & ? & ->).
      pose proof (avl_ht_nonneg _ HB). pose proof (avl_ht_nonneg _ HC).
      split_and!; [done| |done| |done].
      * intros ->. cbn [tallest_left ht_of] in *. lia.
      * simpl. by repeat (rewrite <- app_assoc; simpl).
Qed.

(** * Example trees *)

(** The tree that [put(1,1)], [put(2,2)], [put(3,3)] build. *)
Definition tree_123 : tree :=
  Nd 2%positive (Nd 1%positive Leaf 1 1 1 (mkStats 1 1 1 1) Leaf) 2 2 2 (mkStats 3 6 1 3)
     (Nd 3%positive Leaf 3 3 1 (mkStats 1 3 3 3) Leaf).

(** The same entries before the rotation at the node with key 1. *)
Definition chain_123 : tree :=
  Nd 1%positive Leaf 1 1 2 (mkStats 2 3 1 2)
     (Nd 2%positive Leaf 2 2 2 (mkStats 2 5 2 3)
         (Nd 3%positive Leaf 3 3 1 (mkStats 1 3 3 3) Leaf)).

(** * The nodes reachable from the root *)

(** [reach st a]: the node at [a] is the root, or the left or right child
    of a reachable node. *)
Inductive reach (st : State) : addr → Prop :=
| reach_root a : root st = Some a → reach st a
| reach_child b nb a :
    reach st b → heap st !! b = Some nb →
    left nb = Some a ∨ right nb = Some a → reach st a.

Lemma nodes_sub t a l k v h s r x :
  Nd a l k v h s r ∈ nodes t → x ∈ nodes l ∨ x ∈ nodes r → x ∈ nodes t.
Proof.
  induction t as [|b tl IHl kb vb hb sb tr IHr]; simpl.
  - by intros ?%elem_of_nil.
  - rewrite !elem_of_app, !elem_of_cons. intros [H|[H|H]] Hx.
    + left. by apply IHl.
    + injection H as -> -> -> -> -> -> ->. destruct Hx; by auto.
    + right. right. by apply IHr.
Qed.

Lemma nodes_rootp t a : rootp t = Some a → ∃ l k v h s r, t = Nd a l k v h s r.
Proof. destruct t; simpl; [done|]. intros [= ->]. by eauto 10. Qed.

Lemma addrs_nodes t a : a ∈ addrs t → ∃ l k v h s r, Nd a l k v h s r ∈ nodes t.
Proof.
  rewrite <- inorder_addrs. intros ([a' [k v]] & -> & H)%list_elem_of_fmap. simpl.
  destruct (inorder_nodes _ _ _ _ H) as (l & h & s & r & Hin). by eauto 10.
Qed.

(** Below a reachable node of the tree every node is reachable. *)
Lemma reach_below t : NoDup (addrs t) → ∀ t' x,
  t' ∈ nodes t → (∀ a, rootp t' = Some a → reach (st_of t) a) →
  x ∈ nodes t' → ∀ a, rootp x = Some a → reach (st_of t) a.
Proof.
  intros Hnd. induction t' as [|b l IHl k v h s r IHr]; intros x Ht' Hr Hx a Ha; simpl in Hx.
  - by apply elem_of_nil in Hx.
  - destruct (nodes_lookup _ _ _ _ _ _ _ _ Hnd Ht') as [p Hp].
    assert (reach (st_of t) b) as Hb by (by apply Hr).
    rewrite elem_of_app, elem_of_cons in Hx. destruct Hx as [Hx|[->|Hx]].
    + destruct l as [|c ll kl vl hl sl lr]; [by apply elem_of_nil in Hx|].
      apply (IHl x); [| |done|done].
      * apply (nodes_sub _ _ _ _ _ _ _ _ _ Ht'). left. apply nodes_self.
      * intros c' [= <-]. apply (reach_child _ b _ c Hb Hp). by left.
    + by apply Hr.
    + destruct r as [|c rl kr vr hr sr rr]; [by apply elem_of_nil in Hx|].
      apply (IHr x); [| |done|done].
      * apply (nodes_sub _ _ _ _ _ _ _ _ _ Ht'). right. apply nodes_self.
      * intros c' [= <-]. apply (reach_child _ b _ c Hb Hp). by right.
Qed.

(** The reachable nodes of the state of a tree are the nodes of the tree. *)
Lemma reach_nodes t a :
  NoDup (addrs t) →
  reach (st_of t) a ↔ ∃ l k v h s r, Nd a l k v h s r ∈ nodes t.
Proof.
  intros Hnd. split.
  - intros H. apply addrs_nodes. induction H as [a Hr|b nb a Hb IH Hl Hc].
    + by apply rootp_in.
    + simpl in Hl. apply lookup_nodes in Hl as (l & k & v & h & s & r & p & Hin & ->).
      simpl in Hc. destruct Hc as [Hc|Hc];
        apply nodes_rootp in Hc as (l' & k' & v' & h' & s' & r' & ->).
      * apply (nodes_addrs t a l' k' v' h' s' r').
        apply (nodes_sub _ _ _ _ _ _ _ _ _ Hin). left. apply nodes_self.
      * apply (nodes_addrs t a l' k' v' h' s' r').
        apply (nodes_sub _ _ _ _ _ _ _ _ _ Hin). right. apply nodes_self.
  - intros (l & k & v & h & s & r & Hin).
    destruct t as [|b tl kb vb hb sb tr]; [by apply elem_of_nil in Hin|].
    refine (reach_below _ Hnd _ _ (nodes_self _ _ _ _ _ _ _) _ Hin a eq_refl).
    intros c Hc. by apply reach_root.
Qed.

(** They are the records of the store. *)
Lemma reach_dom t a :
  NoDup (addrs t) → reach (st_of t) a ↔ a ∈ dom (heap (st_of t)).
Proof.
  intros Hnd. rewrite (reach_nodes t a Hnd). simpl.
  rewrite dom_heap_of, elem_of_list_to_set. split.
  - intros (l & k & v & h & s & r & Hin). by eapply nodes_addrs.
  - apply addrs_nodes.
Qed.

(** * The map as a finite function *)

(** The node the search for [k] ends in, when its key is [k]. *)
Definition found (k : Z) (t : tree) : ptr :=
  match (descend k [] t).2 with
  | Nd a _ _ _ _ _ _ => Some a
  | Leaf => None
  end.

Lemma find_spec k t m :
  NoDup (addrs t) → BSTMap.find k (stt t m) = Some (found k t, stt t m).
Proof.
  intros Hnd. unfold BSTMap.find, found.
  rewrite (bind_run _ _ _ _ _ (findNode_spec k t m Hnd)).
  pose proof (descend_plug k t []) as Hp. simpl in Hp.
  pose proof (descend_found k t []) as Hf.
  pose proof (descend_on_path k t [] (Forall_nil_2 _)) as Ho.
  destruct (descend k [] t) as [ctx sub]. cbn [fst snd] in *. subst t.
  destruct sub as [|a l k' v h s r]; unfold last_visited; cbn [fst snd].
  - destruct ctx as [|[d p kp vp hp sp sib] ctx']; [done|]. cbn [ctx_parent frame_addr].
    apply Forall_cons in Ho as [[Hne _] _].
    destruct d; cbn [plug fill] in *.
    + rewrite (bind_run _ _ _ _ _ (get_spec ctx' p Leaf sib kp vp hp sp m Hnd key)).
      cbn [key]. by rewrite (proj2 (Z.eqb_neq kp k) Hne).
    + rewrite (bind_run _ _ _ _ _ (get_spec ctx' p sib Leaf kp vp hp sp m Hnd key)).
      cbn [key]. by rewrite (proj2 (Z.eqb_neq kp k) Hne).
  - rewrite (bind_run _ _ _ _ _ (get_spec ctx a l r k' v h s m Hnd key)).
    cbn [key]. rewrite (Hf _ _ _ _ _ _ _ eq_refl). by rewrite Z.eqb_refl.
Qed.

(** The entries of a tree as a finite map from keys to values. *)
Definition content (t : tree) : gmap Z Z := list_to_map (inorder t).*2.

Lemma keys_fst t : ((inorder t).*2).*1 = keys t.
Proof. done. Qed.

Lemma bst_NoDup_keys t : bst t → NoDup (keys t).
Proof.
  unfold bst. induction 1 as [|x xs Hs IH Hx]; constructor; [|done].
  intros Hin. rewrite Forall_forall in Hx. specialize (Hx _ Hin). lia.
Qed.

Lemma content_lookup t a l k v h s r :
  bst t → Nd a l k v h s r ∈ nodes t → content t !! k = Some v.
Proof.
  intros Hb Hin. unfold content. apply elem_of_list_to_map.
  - rewrite keys_fst. by apply bst_NoDup_keys.
  - apply nodes_inorder in Hin. apply list_elem_of_fmap. by exists (a, (k, v)).
Qed.

Lemma content_lookup_None t k : k ∉ keys t → content t !! k = None.
Proof. intros Hk. unfold content. apply not_elem_of_list_to_map. by rewrite keys_fst. Qed.

(** ** The entries before and after an operation *)

Lemma inorder_new_leaf x k v : inorder (new_leaf x k v) = [(x, (k, v))].
Proof. done. Qed.

Lemma inorder_splice a l k v h s r :
  l = Leaf ∨ r = Leaf → inorder (splice (Nd a l k v h s r)) = inorder l ++ inorder r.
Proof.
  intros [-> | ->]; simpl; [done|]. destruct l; simpl; [done|]. by rewrite app_nil_r.
Qed.

(** [BSTMap::putNode] adds the entry for [k] at its place in key order, or
    replaces the value of the entry it finds. *)
Lemma put_z_inorder x k v t :
  let z := put_z x k v t in
  ∃ P Q b, inorder (plug z.1 z.2) = P ++ (b, (k, v)) :: Q ∧
    ((inorder t = P ++ Q ∧ b = x ∧ (descend k [] t).2 = Leaf) ∨
     (∃ v0, inorder t = P ++ (b, (k, v0)) :: Q ∧ (descend k [] t).2 ≠ Leaf)).
Proof.
  pose proof (descend_plug k t []) as Hp. simpl in Hp.
  destruct (put_z_case x k v t) as [ctx Hd Hz|ctx a l v0 h s r Hd Hz];
    cbv zeta; rewrite Hz; rewrite Hd in *; cbn [fst snd] in *; subst t.
  - exists (lefts ctx), (rights ctx), x. rewrite !inorder_plug. simpl. by auto.
  - exists (lefts ctx ++ inorder l), (inorder r ++ rights ctx), a.
    rewrite !inorder_plug. simpl. repeat (rewrite <- app_assoc; simpl).
    split; [done|]. right. exists v0. simpl. repeat (rewrite <- app_assoc; simpl).
    by split.
Qed.

(** [BSTMap::eraseNode] drops the entry for [k] from the entries in key
    order; with two children the node of [k] takes over the next entry. *)
Lemma erase_z_inorder k t :
  let z := erase_z k t in
  (inorder (plug z.1 z.2) = inorder t ∧ (descend k [] t).2 = Leaf) ∨
  (∃ P Q a v, inorder t = P ++ (a, (k, v)) :: Q ∧ inorder (plug z.1 z.2) = P ++ Q ∧
              ∃ l h s r, (descend k [] t).2 = Nd a l k v h s r ∧ (l = Leaf ∨ r = Leaf)) ∨
  (∃ P Q a v sa ks vs,
      inorder t = P ++ (a, (k, v)) :: (sa, (ks, vs)) :: Q ∧
      inorder (plug z.1 z.2) = P ++ (a, (ks, vs)) :: Q ∧
      ∃ l h s r, (descend k [] t).2 = Nd a l k v h s r ∧ l ≠ Leaf ∧ r ≠ Leaf).
Proof.
  pose proof (descend_plug k t []) as Hp. simpl in Hp.
  destruct (erase_z_case k t) as
    [ctx Hd Hz|ctx a l v h s r Hd Hlr Hz|ctx a l v h s r c sa ks vs hs ss sr Hd Hl' Hr' Hm Hz];
    cbv zeta; rewrite Hz; rewrite Hd in *; cbn [fst snd] in *; subst t.
  - by left.
  - right. left. exists (lefts ctx ++ inorder l), (inorder r ++ rights ctx), a, v.
    rewrite !inorder_plug, (inorder_splice _ _ _ _ _ _ _ Hlr). simpl.
    repeat (rewrite <- app_assoc; simpl). split_and!; [done|done|by eauto 10].
  - right. right.
    pose proof (descend_min_inorder _ _ _ _ _ _ _ _ Hm) as Hir.
    exists (lefts ctx ++ inorder l), (inorder (plug c sr) ++ rights ctx), a, v, sa, ks, vs.
    rewrite plug_app, !inorder_plug. simpl. rewrite Hir, ?inorder_plug.
    repeat (rewrite <- app_assoc; simpl). split_and!; [done|done|by eauto 10].
Qed.

Lemma list_to_map_middle (P Q : list (Z * Z)) k v :
  NoDup (P ++ (k, v) :: Q).*1 →
  (list_to_map (P ++ (k, v) :: Q) : gmap Z Z) = <[k:=v]> (list_to_map (P ++ Q)).
Proof.
  intros Hnd. rewrite (list_to_map_proper _ ((k, v) :: P ++ Q) Hnd); [done|].
  by rewrite Permutation_middle.
Qed.

Lemma list_to_map_middle_None (P Q : list (Z * Z)) k v :
  NoDup (P ++ (k, v) :: Q).*1 → (list_to_map (P ++ Q) : gmap Z Z) !! k = None.
Proof.
  intros Hnd. apply not_elem_of_list_to_map_1.
  rewrite fmap_app, fmap_cons in Hnd. simpl in Hnd.
  apply NoDup_app in Hnd as (_ & Hn1 & Hn2). apply NoDup_cons in Hn2 as [Hn2 _].
  rewrite fmap_app, elem_of_app. intros [H|H]; [|done].
  apply (Hn1 _ H). apply list_elem_of_here.
Qed.

Lemma descend_Leaf_absent k t : bst t → (descend k [] t).2 = Leaf → k ∉ keys t.
Proof.
  intros Hb Hd (a & l & v & h & s & r & Hin)%keys_nodes.
  destruct (descend_node _ _ _ _ _ _ _ _ [] Hb Hin) as [ctx' Hd']. by rewrite Hd' in Hd.
Qed.

(** ** The operations on the finite function *)

Definition apply_op (o : op) (m : gmap Z Z) : gmap Z Z :=
  match o with
  | Put k v => <[k:=v]> m
  | Erase k => delete k m
  end.

Definition model (ops : list op) : gmap Z Z → gmap Z Z :=
  fold_left (fun m o => apply_op o m) ops.

Lemma content_inorder t t' : inorder t' = inorder t → content t' = content t.
Proof. unfold content. by intros ->. Qed.

Lemma put_t_content k v t t' :
  bst t → bst t' →
  inorder t' = inorder (plug (put_z (next_addr t) k v t).1 (put_z (next_addr t) k v t).2) →
  content t' = <[k:=v]> (content t).
Proof.
  intros Hb Hb' Hio. apply bst_NoDup_keys in Hb, Hb'. rewrite <- keys_fst in Hb, Hb'.
  destruct (put_z_inorder (next_addr t) k v t) as (P & Q & b & Hz & Ht). cbv zeta in Hz.
  rewrite Hz in Hio. unfold content. rewrite Hio in *.
  rewrite fmap_app, fmap_cons in *. cbn [snd] in *.
  rewrite (list_to_map_middle _ _ _ _ Hb').
  destruct Ht as [(Ht & _ & _)|(v0 & Ht & _)]; rewrite Ht in *.
  - by rewrite fmap_app.
  - rewrite fmap_app, fmap_cons in *. cbn [snd] in *.
    rewrite (list_to_map_middle _ _ _ _ Hb). by rewrite insert_insert_eq.
Qed.

Lemma erase_t_content k t t' :
  bst t →
  inorder t' = inorder (plug (erase_z k t).1 (erase_z k t).2) →
  content t' = delete k (content t).
Proof.
  intros Hb Hio. pose proof (bst_NoDup_keys _ Hb) as Hnd. rewrite <- keys_fst in Hnd.
  unfold content. rewrite Hio.
  destruct (erase_z_inorder k t) as [[-> Hd]|[(P & Q & a & v & Ht & -> & _)
                                           |(P & Q & a & v & sa & ks & vs & Ht & -> & _)]].
  - symmetry. apply delete_id. apply not_elem_of_list_to_map_1. rewrite keys_fst.
    by apply descend_Leaf_absent.
  - assert ((inorder t).*2 = P.*2 ++ (k, v) :: Q.*2) as Ht2 by (by rewrite Ht, fmap_app).
    rewrite Ht2 in *. rewrite fmap_app.
    rewrite (list_to_map_middle _ _ _ _ Hnd).
    rewrite delete_insert_id; [done|].
    by apply (list_to_map_middle_None _ _ k v).
  - assert ((inorder t).*2 = P.*2 ++ (k, v) :: ((ks, vs) :: Q.*2)) as Ht2
      by (by rewrite Ht, fmap_app).
    rewrite Ht2 in *. rewrite fmap_app, fmap_cons. cbn [snd].
    rewrite (list_to_map_middle _ _ _ _ Hnd).
    rewrite delete_insert_id; [done|].
    by apply (list_to_map_middle_None _ _ k v).
Qed.

(** One operation on the state of a tree is the operation on its entries. *)
Lemma exec_model o t :
  Inv t → ∃ t', exec o (st_of t) = Some (tt, st_of t') ∧ Inv t' ∧
                content t' = apply_op o (content t).
Proof.
  intros Hi. destruct o as [k v|k]; simpl.
  - destruct (put_t_inv k v t Hi) as (t' & Hp & Hi' & Hio).
    exists t'. split; [|split; [done|]].
    + unfold st_of. rewrite (put_spec k v t t' _ (inv_nodup t Hi) Hp). do 2 f_equal.
      rewrite (inorder_length_addrs _ _ Hio). by rewrite put_z_length.
    + apply put_t_content; [apply Hi|apply Hi'|done].
  - destruct (erase_t_inv k t Hi) as (t' & Hp & Hi' & Hio).
    exists t'. split; [|split; [done|]].
    + unfold st_of. rewrite (erase_spec k t t' _ (inv_nodup t Hi) Hp). do 2 f_equal.
      rewrite (inorder_length_addrs _ _ Hio). by rewrite erase_z_length.
    + apply erase_t_content; [apply Hi|done].
Qed.

Lemma run_model ops : ∀ t,
  Inv t → ∃ t', run ops (st_of t) = Some (st_of t') ∧ Inv t' ∧
                content t' = model ops (content t).
Proof.
  induction ops as [|o ops IH]; intros t Hi; simpl.
  - by exists t.
  - destruct (exec_model o t Hi) as (t1 & -> & Hi1 & Hc).
    destruct (IH t1 Hi1) as (t' & Hr & Hi' & Hc'). exists t'.
    split; [done|]. split; [done|]. by rewrite Hc', Hc.
Qed.

Lemma size_content t : bst t → size (content t) = length (addrs t).
Proof.
  intros Hb. unfold content.
  rewrite <- (length_inorder t), <- (length_fmap snd (inorder t)).
  rewrite <- length_map_to_list. apply Permutation_length, map_to_list_to_map.
  rewrite keys_fst. by apply bst_NoDup_keys.
Qed.

(** * Walking to the neighbours in key order *)

Definition frame_dir (f : frame) : bool := match f with Fr d _ _ _ _ _ _ => d end.

(** [youngestAncestorType]: the walk up from the hole skips the frames that
    hold the hole on the side [check_left] names and stops at the first
    frame that holds it on the other side. *)
Fixpoint climb (check_left : bool) (ctx : list frame) : ptr :=
  match ctx with
  | [] => None
  | f :: ctx' =>
      if Bool.eqb (frame_dir f) check_left then climb check_left ctx'
      else Some (frame_addr f)
  end.

Lemma youngestAncestorType_loop_spec m b : ∀ ctx t fuel,
  t ≠ Leaf →
  NoDup (addrs (plug ctx t)) →
  (length ctx < fuel)%nat →
  BSTMap.youngestAncestorType_loop fuel b (rootp t) (ctx_parent ctx) (stt (plug ctx t) m)
  = Some (climb b ctx, stt (plug ctx t) m).
Proof.
  induction ctx as [|[d p kp vp hp sp sib] ctx IH]; intros t fuel Ht Hnd Hfuel;
    (destruct fuel as [|fuel]; [simpl in Hfuel; lia|]); [done|].
  simpl in Hfuel. cbn [BSTMap.youngestAncestorType_loop ctx_parent frame_addr climb frame_dir].
  destruct t as [|a l k v h s r]; [done|]. cbn [rootp].
  pose proof Hnd as Hnd'. cbn [plug] in Hnd'. rewrite addrs_plug in Hnd'.
  destruct d; cbn [plug fill] in *; simpl in Hnd'; nd_decomp Hnd'.
  - pose proof (fun T => @get_spec ctx p (Nd a l k v h s r) sib kp vp hp sp m Hnd T) as Hg.
    destruct b; cbn [Bool.eqb].
    + run_spec (Hg _ left). cbn [rootp]. rewrite ptr_eqb_refl.
      run_spec (Hg _ parent).
      apply (IH (Nd p (Nd a l k v h s r) kp vp hp sp sib)); [done|done|lia].
    + run_spec (Hg _ right). rewrite (ptr_eqb_ne (rootp sib) (Some a)) by solve_ne. done.
  - pose proof (fun T => @get_spec ctx p sib (Nd a l k v h s r) kp vp hp sp m Hnd T) as Hg.
    destruct b; cbn [Bool.eqb].
    + run_spec (Hg _ left). rewrite (ptr_eqb_ne (rootp sib) (Some a)) by solve_ne. done.
    + run_spec (Hg _ right). cbn [rootp]. rewrite ptr_eqb_refl.
      run_spec (Hg _ parent).
      apply (IH (Nd p sib kp vp hp sp (Nd a l k v h s r))); [done|done|lia].
Qed.

Lemma youngestAncestorType_spec ctx a l k v h s r m b :
  let t := Nd a l k v h s r in
  NoDup (addrs (plug ctx t)) →
  BSTMap.youngestAncestorType (Some a) b (stt (plug ctx t) m)
  = Some (climb b ctx, stt (plug ctx t) m).
Proof.
  intros t Hnd. subst t. unfold BSTMap.youngestAncestorType.
  run_spec (get_spec ctx a l r k v h s m Hnd parent).
  etrans; [apply (run_with_fuel _ _ _ Hnd)|].
  apply (youngestAncestorType_loop_spec m b ctx (Nd a l k v h s r)); [done|done|].
  pose proof (length_ctx_plug ctx (Nd a l k v h s r)). lia.
Qed.

(** The mirror image of [descend_min]: down the right spine. *)
Fixpoint descend_max (ctx : list frame) (t : tree) : list frame * tree :=
  match t with
  | Leaf => (ctx, Leaf)
  | Nd a l k v h s r =>
      match r with
      | Leaf => (ctx, t)
      | Nd _ _ _ _ _ _ _ => descend_max (Fr false a k v h s l :: ctx) r
      end
  end.

Lemma youngestDescendantType_loop_right m t : ∀ ctx fuel,
  t ≠ Leaf →
  NoDup (addrs (plug ctx t)) →
  (length (addrs t) < fuel)%nat →
  BSTMap.youngestDescendantType_loop fuel false (rootp t) (stt (plug ctx t) m)
  = Some (rootp (descend_max ctx t).2, stt (plug ctx t) m).
Proof.
  induction t as [|a l _ k v h s r IHr]; intros ctx fuel Ht Hnd Hfuel; [done|].
  destruct fuel as [|fuel]; [lia|].
  simpl in Hfuel. rewrite length_app in Hfuel. simpl in Hfuel.
  simpl.
  run_spec (get_spec ctx a l r k v h s m Hnd right).
  destruct r as [|a' l' k' v' h' s' r']; [done|].
  apply (IHr (Fr false a k v h s l :: ctx)); [done|done|lia].
Qed.

Lemma descend_max_plug t : ∀ ctx,
  plug (descend_max ctx t).1 (descend_max ctx t).2 = plug ctx t.
Proof.
  induction t as [|a l _ k v h s r IHr]; intros ctx; simpl; [done|].
  destruct r; [done|]. by rewrite IHr.
Qed.

Lemma descend_max_rights t : ∀ ctx, rights (descend_max ctx t).1 = rights ctx.
Proof.
  induction t as [|a l _ k v h s r IHr]; intros ctx; simpl; [done|].
  destruct r; [done|]. by rewrite IHr.
Qed.

Lemma descend_max_shape t ctx :
  t ≠ Leaf → ∃ a l k v h s, (descend_max ctx t).2 = Nd a l k v h s Leaf.
Proof.
  revert ctx. induction t as [|a l _ k v h s r IHr]; intros ctx Ht; [done|]. simpl.
  destruct r as [|a' l' k' v' h' s' r']; [by eauto 10|].
  by apply IHr.
Qed.

(** The last entry of a tree is the one [descend_max] ends in. *)
Lemma descend_max_inorder t :
  t ≠ Leaf →
  ∃ X a l k v h s, (descend_max [] t).2 = Nd a l k v h s Leaf ∧
                   inorder t = X ++ [(a, (k, v))].
Proof.
  intros Ht. destruct (descend_max_shape t [] Ht) as (a & l & k & v & h & s & E).
  pose proof (descend_max_plug t []) as Hp. pose proof (descend_max_rights t []) as Hr.
  destruct (descend_max [] t) as [c sub]. cbn [fst snd] in *. subst sub. simpl in Hp, Hr.
  exists (lefts c ++ inorder l), a, l, k, v, h, s. split; [done|].
  rewrite <- Hp, inorder_plug, Hr. simpl. by rewrite app_nil_r, <- app_assoc.
Qed.

Lemma descend_max_snd t : ∀ ctx, (descend_max ctx t).2 = (descend_max [] t).2.
Proof.
  induction t as [|a l _ k v h s r IHr]; intros ctx; simpl; [done|].
  destruct r; [done|]. by rewrite (IHr (_ :: ctx)), (IHr [_]).
Qed.

Lemma successor_noright_spec ctx a l k v h s m :
  let t := Nd a l k v h s Leaf in
  NoDup (addrs (plug ctx t)) →
  BSTMap.successor (Some a) (stt (plug ctx t) m)
  = Some (climb true ctx, stt (plug ctx t) m).
Proof.
  intros t Hnd. subst t. unfold BSTMap.successor.
  run_spec (get_spec ctx a l Leaf k v h s m Hnd right). cbn [rootp].
  by apply youngestAncestorType_spec.
Qed.

Lemma predecessor_noleft_spec ctx a r k v h s m :
  let t := Nd a Leaf k v h s r in
  NoDup (addrs (plug ctx t)) →
  BSTMap.predecessor (Some a) (stt (plug ctx t) m)
  = Some (climb false ctx, stt (plug ctx t) m).
Proof.
  intros t Hnd. subst t. unfold BSTMap.predecessor.
  run_spec (get_spec ctx a Leaf r k v h s m Hnd left). cbn [rootp].
  by apply youngestAncestorType_spec.
Qed.

Lemma predecessor_left_spec ctx a l k v h s r m :
  let t := Nd a l k v h s r in
  l ≠ Leaf →
  NoDup (addrs (plug ctx t)) →
  BSTMap.predecessor (Some a) (stt (plug ctx t) m)
  = Some (rootp (descend_max [] l).2, stt (plug ctx t) m).
Proof.
  intros t Hl Hnd. subst t. unfold BSTMap.predecessor.
  run_spec (get_spec ctx a l r k v h s m Hnd left).
  destruct l as [|a' l' k' v' h' s' r']; [done|].
  unfold BSTMap.youngestDescendantType. cbn [rootp].
  etrans; [apply (run_with_fuel _ _ _ Hnd)|].
  rewrite <- (descend_max_snd _ (Fr true a k v h s r :: ctx)).
  apply (youngestDescendantType_loop_right m (Nd a' l' k' v' h' s' r')
           (Fr true a k v h s r :: ctx)); [done|done|].
  rewrite length_addrs_plug. simpl. repeat (rewrite length_app; simpl). lia.
Qed.

Lemma climb_lefts ctx :
  match climb true ctx with
  | Some x => ∃ X kx vx, lefts ctx = X ++ [(x, (kx, vx))]
  | None => lefts ctx = []
  end.
Proof.
  induction ctx as [|[[] p kp vp hp sp sib] ctx IH]; simpl; [done|done|].
  exists (lefts ctx ++ inorder sib), kp, vp. by rewrite <- app_assoc.
Qed.

Lemma climb_rights ctx :
  match climb false ctx with
  | Some x => ∃ Y kx vx, rights ctx = (x, (kx, vx)) :: Y
  | None => rights ctx = []
  end.
Proof.
  induction ctx as [|[[] p kp vp hp sp sib] ctx IH]; simpl; [done| |done].
  by exists (inorder sib ++ rights ctx), kp, vp.
Qed.

(** In a tree in search order the entries before an entry have smaller
    keys and the entries after it have larger keys. *)
Lemma bst_split t A B x kx vx :
  bst t → inorder t = A ++ (x, (kx, vx)) :: B →
  (∀ e, e ∈ A → e.2.1 < kx) ∧ (∀ e, e ∈ B → kx < e.2.1).
Proof.
  unfold bst, keys. intros Hb E. rewrite E in Hb.
  rewrite !fmap_app, !fmap_cons in Hb. simpl in Hb.
  apply StronglySorted_app in Hb as (H1 & _ & H2).
  apply StronglySorted_inv in H2 as [_ H2]. rewrite Forall_forall in H2.
  split.
  - intros e He. apply (H1 e.2.1 kx); [|apply list_elem_of_here].
    apply list_elem_of_fmap. exists e.2. split; [done|].
    apply list_elem_of_fmap. by exists e.
  - intros e He. apply H2.
    apply list_elem_of_fmap. exists e.2. split; [done|].
    apply list_elem_of_fmap. by exists e.
Qed.

(** The position of a record of the store in the tree. *)
Lemma lookup_position t w nd :
  Inv t → heap_of t !! w = Some nd →
  ∃ ctx l k v h s r p,
    t = plug ctx (Nd w l k v h s r) ∧ nd = mkNode k v (rootp l) (rootp r) p h s.
Proof.
  intros [Hnd Hb _ _] Hw.
  destruct (lookup_nodes _ _ _ Hw) as (l & k & v & h & s & r & p & Hin & ->).
  destruct (descend_node _ _ _ _ _ _ _ _ [] Hb Hin) as [ctx Hd].
  pose proof (descend_plug k t []) as Hp. rewrite Hd in Hp. simpl in Hp.
  by exists ctx, l, k, v, h, s, r, p.
Qed.

Lemma elem_of_inorder_plug e ctx t :
  e ∈ inorder (plug ctx t) ↔ e ∈ lefts ctx ∨ e ∈ inorder t ∨ e ∈ rights ctx.
Proof. by rewrite inorder_plug, !elem_of_app. Qed.

(** [successor] of a node with a right child: the first entry after the
    node in key order. *)
Lemma successor_right_inv t w nd :
  Inv t → heap_of t !! w = Some nd → right nd ≠ None →
  ∃ x nx, BSTMap.successor (Some w) (st_of t) = Some (Some x, st_of t) ∧
          heap_of t !! x = Some nx ∧ key nd < key nx ∧
          ∀ b nb, heap_of t !! b = Some nb → key nd < key nb → key nx ≤ key nb.
Proof.
  intros Hi Hw Hr. pose proof Hi as [Hnd Hb _ _].
  destruct (lookup_position t w nd Hi Hw) as (ctx & l & k & v & h & s & r & p & -> & ->).
  simpl in Hr. apply rootp_Leaf in Hr.
  destruct (descend_min_shape r [] Hr) as (sa & ks & vs & hs & ss & sr & Hs).
  destruct (descend_min [] r) as [c sub] eqn:Em. simpl in Hs. subst sub.
  pose proof (descend_min_inorder _ _ _ _ _ _ _ _ Em) as Hir.
  assert (inorder (plug ctx (Nd w l k v h s r))
          = (lefts ctx ++ inorder l) ++ (w, (k, v))
              :: ((sa, (ks, vs)) :: inorder (plug c sr) ++ rights ctx)) as Hio.
  { rewrite inorder_plug. simpl. rewrite Hir. by repeat (rewrite <- app_assoc; simpl). }
  destruct (inorder_lookup _ sa ks vs Hnd) as (nx & Hx & Hkx & _).
  { rewrite Hio, elem_of_app, !elem_of_cons. by auto. }
  exists sa, nx. unfold st_of. rewrite successor_spec by done.
  rewrite descend_min_snd, Em. cbn [snd rootp key].
  destruct (bst_split _ _ _ _ _ _ Hb Hio) as [H1 H2].
  assert (inorder (plug ctx (Nd w l k v h s r))
          = (lefts ctx ++ inorder l ++ [(w, (k, v))]) ++ (sa, (ks, vs))
              :: (inorder (plug c sr) ++ rights ctx)) as Hio2.
  { rewrite Hio. by repeat (rewrite <- app_assoc; simpl). }
  destruct (bst_split _ _ _ _ _ _ Hb Hio2) as [H3 H4].
  split_and!; [done|done| |].
  - rewrite Hkx. apply (H2 (sa, (ks, vs))). apply list_elem_of_here.
  - intros b nb Hb' Hlt. apply lookup_inorder in Hb'. rewrite Hio in Hb'.
    rewrite Hkx. rewrite elem_of_app, !elem_of_cons in Hb'.
    destruct Hb' as [He|[He|[He|He]]].
    + specialize (H1 _ He). simpl in H1. lia.
    + injection He as _ E _. lia.
    + injection He as _ E _. lia.
    + specialize (H4 _ He). simpl in H4. lia.
Qed.

(** [successor] of a node without a right child: the walk up stops at the
    first ancestor that holds the node in its right subtree, the last entry
    before the subtree of the node in key order. *)
Lemma successor_noright_inv t w nd :
  Inv t → heap_of t !! w = Some nd → right nd = None →
  ∃ res, BSTMap.successor (Some w) (st_of t) = Some (res, st_of t) ∧
    match res with
    | Some x =>
        ∃ nx, heap_of t !! x = Some nx ∧ key nx < key nd ∧
              (left nd = None →
               ∀ b nb, heap_of t !! b = Some nb → key nb < key nd → key nb ≤ key nx)
    | None =>
        left nd = None → ∀ b nb, heap_of t !! b = Some nb → key nd ≤ key nb
    end.
Proof.
  intros Hi Hw Hr. pose proof Hi as [Hnd Hb _ _].
  destruct (lookup_position t w nd Hi Hw) as (ctx & l & k & v & h & s & r & p & -> & ->).
  simpl in Hr. destruct r; [|done]. clear Hr.
  exists (climb true ctx). unfold st_of. rewrite successor_noright_spec by done.
  split; [done|]. cbn [key left].
  pose proof (climb_lefts ctx) as Hc. destruct (climb true ctx) as [x|].
  - destruct Hc as (X & kx & vx & Hc).
    assert (inorder (plug ctx (Nd w l k v h s Leaf))
            = X ++ (x, (kx, vx)) :: (inorder l ++ (w, (k, v)) :: rights ctx)) as Hio.
    { rewrite inorder_plug, Hc. simpl. by repeat (rewrite <- app_assoc; simpl). }
    destruct (inorder_lookup _ x kx vx Hnd) as (nx & Hx & Hkx & _).
    { rewrite Hio, elem_of_app, !elem_of_cons. by auto. }
    destruct (bst_split _ _ _ _ _ _ Hb Hio) as [H1 H2].
    exists nx. rewrite Hkx. split_and!; [done| |].
    + apply (H2 (w, (k, v))). rewrite elem_of_app, elem_of_cons. by auto.
    + intros Hl. destruct l; [|done]. simpl in Hio. clear Hl.
      assert (inorder (plug ctx (Nd w Leaf k v h s Leaf))
              = (X ++ [(x, (kx, vx))]) ++ (w, (k, v)) :: rights ctx) as Hio2.
      { rewrite Hio. by rewrite <- app_assoc. }
      destruct (bst_split _ _ _ _ _ _ Hb Hio2) as [H3 H4].
      intros b nb Hb' Hlt. apply lookup_inorder in Hb'. rewrite Hio in Hb'.
      rewrite elem_of_app, !elem_of_cons in Hb'.
      destruct Hb' as [He|[He|[He|He]]].
      * specialize (H1 _ He). simpl in H1. lia.
      * injection He as _ E _. lia.
      * injection He as _ E _. lia.
      * specialize (H4 _ He). simpl in H4. lia.
  - intros Hl. destruct l; [|done].
    assert (inorder (plug ctx (Nd w Leaf k v h s Leaf))
            = [] ++ (w, (k, v)) :: rights ctx) as Hio.
    { rewrite inorder_plug, Hc. done. }
    destruct (bst_split _ _ _ _ _ _ Hb Hio) as [_ H2].
    intros b nb Hb'. apply lookup_inorder in Hb'. rewrite Hio in Hb'.
    simpl in Hb'. rewrite elem_of_cons in Hb'. destruct Hb' as [He|He].
    + injection He as _ E _. lia.
    + specialize (H2 _ He). simpl in H2. lia.
Qed.

(** [predecessor] of a node with a left child: the last entry before the
    node in key order. *)
Lemma predecessor_left_inv t w nd :
  Inv t → heap_of t !! w = Some nd → left nd ≠ None →
  ∃ x nx, BSTMap.predecessor (Some w) (st_of t) = Some (Some x, st_of t) ∧
          heap_of t !! x = Some nx ∧ key nx < key nd ∧
          ∀ b nb, heap_of t !! b = Some nb → key nb < key nd → key nb ≤ key nx.
Proof.
  intros Hi Hw Hl. pose proof Hi as [Hnd Hb _ _].
  destruct (lookup_position t w nd Hi Hw) as (ctx & l & k & v & h & s & r & p & -> & ->).
  simpl in Hl. apply rootp_Leaf in Hl.
  destruct (descend_max_inorder l Hl) as (X & x & xl & kx & vx & hx & sx & Em & Hil).
  assert (inorder (plug ctx (Nd w l k v h s r))
          = (lefts ctx ++ X) ++ (x, (kx, vx))
              :: ((w, (k, v)) :: inorder r ++ rights ctx)) as Hio.
  { rewrite inorder_plug. simpl. rewrite Hil. by repeat (rewrite <- app_assoc; simpl). }
  assert (inorder (plug ctx (Nd w l k v h s r))
          = (lefts ctx ++ X ++ [(x, (kx, vx))]) ++ (w, (k, v))
              :: (inorder r ++ rights ctx)) as Hio2.
  { rewrite Hio. by repeat (rewrite <- app_assoc; simpl). }
  destruct (inorder_lookup _ x kx vx Hnd) as (nx & Hx & Hkx & _).
  { rewrite Hio, elem_of_app, !elem_of_cons. by auto. }
  exists x, nx. unfold st_of. rewrite predecessor_left_spec by done.
  rewrite Em. cbn [rootp key].
  destruct (bst_split _ _ _ _ _ _ Hb Hio) as [H1 H2].
  destruct (bst_split _ _ _ _ _ _ Hb Hio2) as [H3 H4].
  split_and!; [done|done| |].
  - rewrite Hkx. apply (H2 (w, (k, v))). apply list_elem_of_here.
  - intros b nb Hb' Hlt. apply lookup_inorder in Hb'. rewrite Hio in Hb'.
    rewrite Hkx. rewrite elem_of_app, !elem_of_cons in Hb'.
    destruct Hb' as [He|[He|[He|He]]].
    + specialize (H1 _ He). simpl in H1. lia.
    + injection He as _ E _. lia.
    + injection He as _ E _. lia.
    + specialize (H4 _ He). simpl in H4. lia.
Qed.

(** [predecessor] of a node without a left child: the walk up stops at the
    first ancestor that holds the node in its left subtree, the first entry
    after the subtree of the node in key order. *)
Lemma predecessor_noleft_inv t w nd :
  Inv t → heap_of t !! w = Some nd → left nd = None →
  ∃ res, BSTMap.predecessor (Some w) (st_of t) = Some (res, st_of t) ∧
    match res with
    | Some x =>
        ∃ nx, heap_of t !! x = Some nx ∧ key nd < key nx ∧
              (right nd = None →
               ∀ b nb, heap_of t !! b = Some nb → key nd < key nb → key nx ≤ key nb)
    | None =>
        right nd = None → ∀ b nb, heap_of t !! b = Some nb → key nb ≤ key nd
    end.
Proof.
  intros Hi Hw Hl. pose proof Hi as [Hnd Hb _ _].
  destruct (lookup_position t w nd Hi Hw) as (ctx & l & k & v & h & s & r & p & -> & ->).
  simpl in Hl. destruct l; [|done]. clear Hl.
  exists (climb false ctx). unfold st_of. rewrite predecessor_noleft_spec by done.
  split; [done|]. cbn [key right].
  pose proof (climb_rights ctx) as Hc. destruct (climb false ctx) as [x|].
  - destruct Hc as (Y & kx & vx & Hc).
    assert (inorder (plug ctx (Nd w Leaf k v h s r))
            = (lefts ctx ++ (w, (k, v)) :: inorder r) ++ (x, (kx, vx)) :: Y) as Hio.
    { rewrite inorder_plug, Hc. simpl. by repeat (rewrite <- app_assoc; simpl). }
    destruct (inorder_lookup _ x kx vx Hnd) as (nx & Hx & Hkx & _).
    { rewrite Hio, elem_of_app, !elem_of_cons. by auto. }
    destruct (bst_split _ _ _ _ _ _ Hb Hio) as [H1 H2].
    exists nx. rewrite Hkx. split_and!; [done| |].
    + apply (H1 (w, (k, v))). rewrite elem_of_app, elem_of_cons. by auto.
    + intros Hr. destruct r; [|done]. simpl in Hio. clear Hr.
      assert (inorder (plug ctx (Nd w Leaf k v h s Leaf))
              = lefts ctx ++ (w, (k, v)) :: ((x, (kx, vx)) :: Y)) as Hio2.
      { rewrite Hio. by rewrite <- app_assoc. }
      destruct (bst_split _ _ _ _ _ _ Hb Hio2) as [H3 H4].
      intros b nb Hb' Hlt. apply lookup_inorder in Hb'. rewrite Hio2 in Hb'.
      rewrite elem_of_app, !elem_of_cons in Hb'.
      destruct Hb' as [He|[He|[He|He]]].
      * specialize (H3 _ He). simpl in H3. lia.
      * injection He as _ E _. lia.
      * injection He as _ E _. lia.
      * specialize (H2 _ He). simpl in H2. lia.
  - intros Hr. destruct r; [|done].
    assert (inorder (plug ctx (Nd w Leaf k v h s Leaf))
            = lefts ctx ++ (w, (k, v)) :: []) as Hio.
    { rewrite inorder_plug, Hc. done. }
    destruct (bst_split _ _ _ _ _ _ Hb Hio) as [H1 _].
    intros b nb Hb'. apply lookup_inorder in Hb'. rewrite Hio in Hb'.
    rewrite elem_of_app, elem_of_cons in Hb'. destruct Hb' as [He|[He|He]].
    + specialize (H1 _ He). simpl in H1. lia.
    + injection He as _ E _. lia.
    + by apply elem_of_nil in He.
Qed.

(** * Operations that change nothing *)

(** On the state of a tree with the invariants the walk of [updateTree]
    from any node recomputes the statistics that are already there. *)
Lemma updateTree_id_inv t w :
  Inv t → (∀ a, w = Some a → a ∈ dom (heap_of t)) →
  TreeMapStats.updateTree w (st_of t) = Some (tt, st_of t).
Proof.
  intros [Hnd _ _ Hl] Hw. destruct w as [a|]; [|done].
  apply (update_at_spec (Some a) t t _ Hnd). apply update_at_id; [done| |done].
  intros b [= <-]. specialize (Hw a eq_refl).
  by rewrite dom_heap_of, elem_of_list_to_set in Hw.
Qed.

Lemma content_node t k v :
  content t !! k = Some v → ∃ a l h s r, Nd a l k v h s r ∈ nodes t.
Proof.
  unfold content. intros H%elem_of_list_to_map_2.
  apply list_elem_of_fmap in H as ([a [k' v']] & E & H). simpl in E. injection E as <- <-.
  destruct (inorder_nodes _ _ _ _ H) as (l & h & s & r & Hin). by eauto 10.
Qed.

(** [put] of a key with the value it already has gives the state back. *)
Lemma put_same_inv t k v :
  Inv t → content t !! k = Some v →
  TreeMapStats.put k v (st_of t) = Some (tt, st_of t).
Proof.
  intros Hi Hc. pose proof Hi as [Hnd Hb _ Hl].
  destruct (content_node _ _ _ Hc) as (a & l & h & s & r & Hin).
  destruct (descend_node _ _ _ _ _ _ _ _ [] Hb Hin) as [ctx Hd].
  pose proof (descend_plug k t []) as Hp. rewrite Hd in Hp. simpl in Hp.
  pose proof (put_t_present k v t ctx a l v h s r Hi Hd) as Hput.
  rewrite updateTree_z_id in Hput by (by rewrite Hp). cbn [fst snd] in Hput.
  rewrite Hp in Hput. unfold st_of.
  rewrite (put_spec k v t t _ Hnd Hput). by rewrite Hd.
Qed.

Lemma empty_spec t m :
  BSTMap.empty (stt t m) = Some (if rootp t is Some _ then false else true, stt t m).
Proof. done. Qed.

(** * The height of a balanced tree *)

Lemma half_succ h : 0 ≤ h → (h + 2 + 1) / 2 = (h + 1) / 2 + 1.
Proof. intros Hh. replace (h + 2 + 1) with (1 * 2 + (h + 1)) by lia. rewrite Z.div_add_l by lia. lia. Qed.

Lemma half_mono a b : a ≤ b → (a + 1) / 2 ≤ (b + 1) / 2.
Proof. intros H. apply Z.div_le_mono; lia. Qed.

(** A balanced tree with stored height [h] has at least [2 ^ ⌈h/2⌉ - 1]
    nodes. *)
Lemma avl_size_bound t :
  avl t → 2 ^ ((ht_of t + 1) / 2) ≤ Z.of_nat (length (nodes t)) + 1.
Proof.
  induction t as [|a l IHl k v h s r IHr]; [by vm_compute|].
  intros (Hl & Hr & Hb & ->). specialize (IHl Hl). specialize (IHr Hr).
  pose proof (avl_ht_nonneg _ Hl) as Hnl. pose proof (avl_ht_nonneg _ Hr) as Hnr.
  cbn [ht_of nodes]. rewrite length_app. cbn [length].
  set (hl := ht_of l) in *. set (hr := ht_of r) in *.
  set (nl := length (nodes l)) in *. set (nr := length (nodes r)) in *.
  destruct (decide (Z.max hl hr = 0)) as [E|E].
  - rewrite E. change ((0 + 1 + 1) / 2) with 1. lia.
  - set (g := Z.max hl hr - 1).
    assert (0 ≤ g) as Hg by lia.
    replace (Z.max hl hr + 1 + 1) with (g + 2 + 1) by lia.
    rewrite (half_succ g Hg).
    rewrite Z.pow_add_r by (first [apply Z.div_pos; lia | lia]). change (2 ^ 1) with 2.
    assert (2 ^ ((g + 1) / 2) ≤ 2 ^ ((hl + 1) / 2)) as H1.
    { apply Z.pow_le_mono_r; [lia|]. apply half_mono. lia. }
    assert (2 ^ ((g + 1) / 2) ≤ 2 ^ ((hr + 1) / 2)) as H2.
    { apply Z.pow_le_mono_r; [lia|]. apply half_mono. lia. }
    lia.
Qed.

(** * What [rebalance] leaves behind *)

(** The statistics of the restructured subtree are consistent at every
    node: the rotation recomputes them at [z], then from [y] upwards. *)
Lemma rebalance_z_all_lok ctx z L kz vz hz sz R res :
  all_lok L → all_lok R →
  rebalance_z ctx (Nd z L kz vz hz sz R) = Some res → all_lok res.2.
Proof.
  intros HL HR. unfold rebalance_z.
  destruct (tallest_left true _).
  - destruct L as [|y A ky vy hy sy B]; [done|]. destruct HL as (HA & HB & _).
    destruct (tallest_left true _).
    + intros [= <-]. unfold srotR, updateTree_z. cbn. by split_and!.
    + destruct B as [|x B1 kx vx hx sx B2]; [done|]. destruct HB as (HB1 & HB2 & _).
      unfold srotL, srotR, updateTree_z. cbn. intros [= <-]. cbn. by split_and!.
  - destruct R as [|y B ky vy hy sy C]; [done|]. destruct HR as (HB & HC & _).
    destruct (tallest_left false _).
    + destruct B as [|x B1 kx vx hx sx B2]; [done|]. destruct HB as (HB1 & HB2 & _).
      unfold srotL, srotR, updateTree_z. cbn. intros [= <-]. cbn. by split_and!.
    + intros [= <-]. unfold srotL, updateTree_z. cbn. by split_and!.
Qed.

Lemma rebalance_z_addrs ctx t res :
  rebalance_z ctx t = Some res → addrs res.2 ≡ₚ addrs t.
Proof.
  intros H. destruct (rebalance_z_result _ _ _ H) as (_ & _ & Hio).
  by rewrite <- !inorder_addrs, Hio.
Qed.

(** * The records an operation adds and frees *)

Lemma lookup_None_addrs t x : x ∉ addrs t → heap_of t !! x = None.
Proof. intros H. apply not_elem_of_dom. by rewrite dom_heap_of, elem_of_list_to_set. Qed.

Lemma addrs_inorder_eq t P : inorder t = P → addrs t = P.*1.
Proof. intros <-. by rewrite inorder_addrs. Qed.

(** [put] of a key that no node has adds one record, at an address the
    store did not use, with the key and the value; every other record
    keeps its key and its value. *)
Lemma put_new_inv t k v :
  Inv t → k ∉ keys t →
  ∃ st' x nx,
    TreeMapStats.put k v (st_of t) = Some (tt, st') ∧
    heap_of t !! x = None ∧
    heap st' !! x = Some nx ∧ key nx = k ∧ value nx = v ∧
    dom (heap st') = {[x]} ∪ dom (heap_of t) ∧
    n st' = n (st_of t) + 1 ∧
    ∀ b nb, heap_of t !! b = Some nb →
      ∃ nb', heap st' !! b = Some nb' ∧ key nb' = key nb ∧ value nb' = value nb.
Proof.
  intros Hi Hk. pose proof Hi as [Hnd Hb _ _].
  destruct (put_t_inv k v t Hi) as (t' & Hp & Hi' & Hio).
  pose proof (inv_nodup _ Hi') as Hnd'.
  pose proof (descend_absent k t Hk) as Hd.
  destruct (put_z_inorder (next_addr t) k v t) as (P & Q & b & Hz & Ht). cbv zeta in Hz.
  rewrite Hz in Hio. destruct Ht as [(Ht & -> & _)|(v0 & _ & Hne)]; [|done].
  destruct (inorder_lookup t' (next_addr t) k v Hnd') as (nx & Hx & Hkx & Hvx).
  { rewrite Hio, elem_of_app, elem_of_cons. by auto. }
  exists (stt t' (Z.of_nat (length (addrs t)) + 1)), (next_addr t), nx.
  unfold st_of. rewrite (put_spec k v t t' _ Hnd Hp), Hd. cbn [heap n stt].
  split_and!; try done.
  - apply lookup_None_addrs, next_addr_fresh.
  - rewrite !dom_heap_of, (addrs_inorder_eq _ _ Hio), (addrs_inorder_eq _ _ Ht).
    apply set_eq. intros y. rewrite elem_of_union, elem_of_singleton, !elem_of_list_to_set.
    rewrite !fmap_app, fmap_cons, !elem_of_app, elem_of_cons. simpl. tauto.
  - intros c nc Hc. apply lookup_inorder in Hc. rewrite Ht in Hc.
    destruct (inorder_lookup t' c (key nc) (value nc) Hnd') as (x & Hx' & ? & ?); [|by eauto].
    rewrite Hio. rewrite elem_of_app in Hc. rewrite elem_of_app, elem_of_cons. tauto.
Qed.

(** [erase] of the key of a node frees one record: the node itself when it
    has at most one child.  Afterwards no record has the key. *)
Lemma erase_present_inv t k a nd :
  Inv t → heap_of t !! a = Some nd → key nd = k →
  ∃ st' b,
    TreeMapStats.erase k (st_of t) = Some (tt, st') ∧
    is_Some (heap_of t !! b) ∧ heap st' !! b = None ∧
    dom (heap st') = dom (heap_of t) ∖ {[b]} ∧
    n st' = n (st_of t) - 1 ∧
    (left nd = None ∨ right nd = None → b = a) ∧
    ∀ c nc, heap st' !! c = Some nc → key nc ≠ k.
Proof.
  intros Hi Ha Hk. pose proof Hi as [Hnd Hb _ _].
  destruct (lookup_nodes _ _ _ Ha) as (l & k' & v & h & s & r & p & Hin & ->).
  simpl in Hk. subst k'.
  destruct (descend_node _ _ _ _ _ _ _ _ [] Hb Hin) as [ctx Hd].
  destruct (erase_t_inv k t Hi) as (t' & Het & Hi' & Hio).
  pose proof (inv_nodup _ Hi') as Hnd'.
  pose proof (erase_t_content k t t' Hb Hio) as Hc.
  assert (∀ c nc, heap_of t' !! c = Some nc → key nc ≠ k) as Hgone.
  { intros c nc Hc' E. apply lookup_inorder in Hc'.
    assert (k ∈ keys t') as Hin'.
    { rewrite <- E. unfold keys. apply list_elem_of_fmap. exists (key nc, value nc).
      split; [done|]. apply list_elem_of_fmap. by exists (c, (key nc, value nc)). }
    rewrite <- keys_fst in Hin'. apply (proj2 (not_elem_of_list_to_map _ k)) in Hin'; [done|].
    fold (content t'). rewrite Hc. apply lookup_delete_eq. }
  assert (∀ b, b ∈ addrs t → (∀ y, y ∈ addrs t' ↔ y ∈ addrs t ∧ y ≠ b) →
            is_Some (heap_of t !! b) ∧ heap_of t' !! b = None ∧
            dom (heap_of t') = dom (heap_of t) ∖ {[b]}) as Hdom.
  { intros b Hb' Hiff. split_and!.
    - apply elem_of_dom. by rewrite dom_heap_of, elem_of_list_to_set.
    - apply lookup_None_addrs. intros Hy. apply Hiff in Hy. by destruct Hy.
    - rewrite !dom_heap_of. apply set_eq. intros y.
      rewrite elem_of_difference, elem_of_singleton, !elem_of_list_to_set. apply Hiff. }
  destruct (erase_z_inorder k t) as [[_ Hd']|[(P & Q & a' & v' & Ht & Ht' & l' & h' & s' & r' & Hd' & Hlr)
     |(P & Q & a' & v' & sa & ks & vs & Ht & Ht' & l' & h' & s' & r' & Hd' & Hl' & Hr')]];
    rewrite Hd in Hd'; cbn [snd] in Hd'; [done|injection Hd' as <- <- <- <- <- <-..];
    rewrite Ht' in Hio;
    pose proof (addrs_inorder_eq _ _ Ht) as Hat; pose proof (addrs_inorder_eq _ _ Hio) as Hat';
    rewrite ?fmap_app, ?fmap_cons in Hat; rewrite ?fmap_app, ?fmap_cons in Hat';
    cbn [fst] in Hat, Hat';
    rewrite Hat in Hnd;
    apply NoDup_app in Hnd as (_ & Hn1 & Hn2); apply NoDup_cons in Hn2 as [Hn2 Hn3].
  - destruct (Hdom a) as (H1 & H2 & H3).
    { rewrite Hat, elem_of_app, elem_of_cons. by auto. }
    { intros y. rewrite Hat, Hat', !elem_of_app, elem_of_cons. split.
      - intros [Hy|Hy]; (split; [by auto|]); intros ->; [|done].
        apply (Hn1 _ Hy). apply list_elem_of_here.
      - intros [[Hy|[Hy|Hy]] Hne]; by auto. }
    exists (stt t' (Z.of_nat (length (addrs t)) - 1)), a.
    unfold st_of. rewrite (erase_spec k t t' _ (inv_nodup _ Hi) Het), Hd. cbn [heap n stt snd].
    by split_and!.
  - apply NoDup_cons in Hn3 as [Hn3 Hn4].
    destruct (Hdom sa) as (H1 & H2 & H3).
    { rewrite Hat, elem_of_app, !elem_of_cons. by auto. }
    { intros y. rewrite Hat, Hat', !elem_of_app, !elem_of_cons. split.
      - intros [Hy|[Hy|Hy]]; (split; [by auto|]); intros E; subst y.
        + apply (Hn1 _ Hy). apply list_elem_of_further, list_elem_of_here.
        + apply Hn2. rewrite E. apply list_elem_of_here.
        + done.
      - intros [[Hy|[Hy|[Hy|Hy]]] Hne]; by auto. }
    exists (stt t' (Z.of_nat (length (addrs t)) - 1)), sa.
    unfold st_of. rewrite (erase_spec k t t' _ (inv_nodup _ Hi) Het), Hd. cbn [heap n stt snd].
    split_and!; try done.
    simpl. intros [E|E]; [by destruct l|by destruct r].
Qed.

(** * The destructor *)

(** One turn of the loop of [deleteAll] at a node without children, below
    its parent. *)
Lemma deleteAll_leaf_step f ctx a k v h s m fuel :
  NoDup (addrs (plug (f :: ctx) (Nd a Leaf k v h s Leaf))) →
  BSTMap.deleteAll_loop (S fuel) (Some a)
    (stt (plug (f :: ctx) (Nd a Leaf k v h s Leaf)) m)
  = BSTMap.deleteAll_loop fuel (Some (frame_addr f)) (stt (plug (f :: ctx) Leaf) (m - 1)).
Proof.
  intros Hnd0.
  assert (NoDup (addrs (plug (f :: ctx) Leaf))) as Hnd1.
  { refine (NoDup_plug_sublist (f :: ctx) _ _ _ Hnd0). apply sublist_nil_l. }
  start_focus Hnd0 Hh Hctx Hdom Hnd h0.
  cbn [BSTMap.deleteAll_loop].
  destruct f as [[] p kp vp hp sp sib];
    split_holds Hh; split_holds Hctx; destruct_and?; nd_decomp Hnd;
    repeat mstep; f_equal;
    (apply stt_plug_intro;
     [ solve_nd Hnd1 | split_holds_goal | split_holds_goal | solve_dom Hdom
     | by apply rootp_plug ]).
Qed.

(** The last turn: the root without children. *)
Lemma deleteAll_root_step a k v h s m fuel :
  BSTMap.deleteAll_loop (S (S fuel)) (Some a) (stt (Nd a Leaf k v h s Leaf) m)
  = Some (tt, mkState ∅ (Some a) (m - 1)).
Proof.
  unfold stt, heap_of. cbn [cells rootp app BSTMap.deleteAll_loop list_to_map foldr curry].
  repeat mstep. cbn [BSTMap.deleteAll_loop]. unfold ret. do 3 f_equal.
  apply delete_insert_id. apply lookup_empty.
Qed.

(** The turns of the loop below a node: two for every node but the first. *)
Definition turns (t : tree) : nat := 2 * length (addrs t) - 1.

Lemma turns_Nd a l k v h s r :
  turns (Nd a l k v h s r)
  = ((if l is Leaf then 0 else S (turns l)) + (if r is Leaf then 0 else S (turns r)) + 1)%nat.
Proof.
  unfold turns. simpl. rewrite length_app. simpl.
  destruct l, r; simpl; rewrite ?length_app; simpl; lia.
Qed.

(** From a node below a parent the loop deletes the subtree of the node
    and comes back to the parent. *)
Lemma deleteAll_subtree t : ∀ ctx fuel m,
  t ≠ Leaf → ctx ≠ [] →
  NoDup (addrs (plug ctx t)) →
  BSTMap.deleteAll_loop (turns t + fuel) (rootp t) (stt (plug ctx t) m)
  = BSTMap.deleteAll_loop fuel (ctx_parent ctx)
      (stt (plug ctx Leaf) (m - Z.of_nat (length (addrs t)))).
Proof.
  induction t as [|a l IHl k v h s r IHr]; intros ctx fuel m Ht Hctx Hnd; [done|].
  destruct ctx as [|f ctx]; [done|]. clear Ht Hctx.
  (* the node once its left subtree is gone *)
  assert (∀ fuel m,
    NoDup (addrs (plug (f :: ctx) (Nd a Leaf k v h s r))) →
    BSTMap.deleteAll_loop ((if r is Leaf then 0 else S (turns r)) + 1 + fuel) (Some a)
      (stt (plug (f :: ctx) (Nd a Leaf k v h s r)) m)
    = BSTMap.deleteAll_loop fuel (Some (frame_addr f))
        (stt (plug (f :: ctx) Leaf) (m - Z.of_nat (length (addrs r)) - 1))) as HQ.
  { intros fuel' m' Hnd'. destruct r as [|ra rl rk rv rh rs rr].
    - cbn [length addrs Nat.add]. rewrite (deleteAll_leaf_step f ctx a k v h s m' fuel' Hnd').
      do 2 f_equal. lia.
    - replace (S (turns (Nd ra rl rk rv rh rs rr)) + 1 + fuel')%nat
        with (S (turns (Nd ra rl rk rv rh rs rr) + (S fuel'))) by lia.
      cbn [BSTMap.deleteAll_loop].
      run_spec (get_spec (f :: ctx) a Leaf (Nd ra rl rk rv rh rs rr) k v h s m' Hnd' left).
      run_spec (get_spec (f :: ctx) a Leaf (Nd ra rl rk rv rh rs rr) k v h s m' Hnd' right).
      cbn [rootp].
      change (Some ra) with (rootp (Nd ra rl rk rv rh rs rr)).
      change (plug (f :: ctx) (Nd a Leaf k v h s (Nd ra rl rk rv rh rs rr)))
        with (plug (Fr false a k v h s Leaf :: f :: ctx) (Nd ra rl rk rv rh rs rr)) in *.
      rewrite (IHr (Fr false a k v h s Leaf :: f :: ctx) (S fuel') m'); [|done|done|done].
      cbn [ctx_parent frame_addr].
      change (plug (Fr false a k v h s Leaf :: f :: ctx) Leaf)
        with (plug (f :: ctx) (Nd a Leaf k v h s Leaf)).
      rewrite deleteAll_leaf_step; [done|].
      refine (NoDup_plug_sublist (f :: ctx) (Nd a Leaf k v h s (Nd ra rl rk rv rh rs rr))
                (Nd a Leaf k v h s Leaf) _ Hnd').
      simpl. apply sublist_skip, sublist_nil_l. }
  rewrite turns_Nd. cbn [rootp]. destruct l as [|la ll lk lv lh ls lr].
  - rewrite Nat.add_0_l, (HQ fuel m Hnd). do 2 f_equal.
    simpl. lia.
  - replace (S (turns (Nd la ll lk lv lh ls lr))
             + (if r is Leaf then 0 else S (turns r)) + 1 + fuel)%nat
      with (S (turns (Nd la ll lk lv lh ls lr)
               + ((if r is Leaf then 0 else S (turns r)) + 1 + fuel))) by lia.
    cbn [BSTMap.deleteAll_loop].
    run_spec (get_spec (f :: ctx) a (Nd la ll lk lv lh ls lr) r k v h s m Hnd left).
    run_spec (get_spec (f :: ctx) a (Nd la ll lk lv lh ls lr) r k v h s m Hnd right).
    cbn [rootp].
    replace (match rootp r with Some _ => Some la | None => Some la end) with (Some la)
      by (by destruct (rootp r)).
    assert (∀ (X : M unit), match rootp r with Some _ => X | None => X end = X) as Hm
      by (intros X; by destruct (rootp r)).
    rewrite ?Hm.
    change (Some la) with (rootp (Nd la ll lk lv lh ls lr)).
    change (plug (f :: ctx) (Nd a (Nd la ll lk lv lh ls lr) k v h s r))
      with (plug (Fr true a k v h s r :: f :: ctx) (Nd la ll lk lv lh ls lr)) in *.
    rewrite (IHl (Fr true a k v h s r :: f :: ctx) _ m); [|done|done|done].
    cbn [ctx_parent frame_addr].
    change (plug (Fr true a k v h s r :: f :: ctx) Leaf)
      with (plug (f :: ctx) (Nd a Leaf k v h s r)).
    rewrite HQ.
    + do 2 f_equal. simpl. repeat (rewrite length_app; simpl). lia.
    + refine (NoDup_plug_sublist (f :: ctx) (Nd a (Nd la ll lk lv lh ls lr) k v h s r)
                (Nd a Leaf k v h s r) _ Hnd).
      simpl. by apply sublist_inserts_l.
Qed.

Lemma deleteAll_root_right a k v h s r m fuel :
  NoDup (addrs (Nd a Leaf k v h s r)) →
  BSTMap.deleteAll_loop ((if r is Leaf then 0 else S (turns r)) + S (S fuel)) (Some a)
    (stt (Nd a Leaf k v h s r) m)
  = Some (tt, mkState ∅ (Some a) (m - Z.of_nat (length (addrs r)) - 1)).
Proof.
  intros Hnd. destruct r as [|ra rl rk rv rh rs rr].
  - rewrite Nat.add_0_l, deleteAll_root_step. do 3 f_equal. simpl. lia.
  - replace (S (turns (Nd ra rl rk rv rh rs rr)) + S (S fuel))%nat
      with (S (turns (Nd ra rl rk rv rh rs rr) + S (S fuel))) by lia.
    cbn [BSTMap.deleteAll_loop].
    run_spec (get_spec [] a Leaf (Nd ra rl rk rv rh rs rr) k v h s m Hnd left).
    run_spec (get_spec [] a Leaf (Nd ra rl rk rv rh rs rr) k v h s m Hnd right).
    cbn [rootp plug].
    change (Some ra) with (rootp (Nd ra rl rk rv rh rs rr)).
    change (Nd a Leaf k v h s (Nd ra rl rk rv rh rs rr))
      with (plug [Fr false a k v h s Leaf] (Nd ra rl rk rv rh rs rr)).
    rewrite (deleteAll_subtree _ [Fr false a k v h s Leaf] (S (S fuel)) m); [|done|done|done].
    cbn [ctx_parent frame_addr plug fill]. by rewrite deleteAll_root_step.
Qed.

(** [deleteAll] frees every node and counts [n] down by the number of
    nodes; it does not reset [root]. *)
Lemma deleteAll_spec t m :
  NoDup (addrs t) →
  BSTMap.deleteAll (stt t m)
  = Some (tt, mkState ∅ (rootp t) (m - Z.of_nat (length (addrs t)))).
Proof.
  intros Hnd. unfold BSTMap.deleteAll. unfold stt at 1. rewrite bind_get_root.
  cbn [heap]. rewrite size_heap_of by done. fold (stt t m).
  destruct t as [|a l k v h s r].
  - cbn. unfold ret, stt. do 3 f_equal. lia.
  - cbn [rootp]. destruct l as [|la ll lk lv lh ls lr].
    + replace (S (2 * length (addrs (Nd a Leaf k v h s r))))
        with ((if r is Leaf then 0 else S (turns r)) + S (S 1))%nat.
      2:{ unfold turns. destruct r; simpl; rewrite ?length_app; simpl; lia. }
      rewrite deleteAll_root_right by done. do 3 f_equal. simpl. lia.
    + replace (S (2 * length (addrs (Nd a (Nd la ll lk lv lh ls lr) k v h s r))))
        with (S (turns (Nd la ll lk lv lh ls lr)
                 + ((if r is Leaf then 0 else S (turns r)) + S (S 1))))%nat.
      2:{ unfold turns. destruct r; simpl; repeat (rewrite length_app; simpl); lia. }
      cbn [BSTMap.deleteAll_loop].
      run_spec (get_spec [] a (Nd la ll lk lv lh ls lr) r k v h s m Hnd left).
      run_spec (get_spec [] a (Nd la ll lk lv lh ls lr) r k v h s m Hnd right).
      cbn [rootp plug].
      assert (∀ (X : M unit), match rootp r with Some _ => X | None => X end = X) as Hm
        by (intros X; by destruct (rootp r)).
      rewrite ?Hm.
      change (Some la) with (rootp (Nd la ll lk lv lh ls lr)).
      change (Nd a (Nd la ll lk lv lh ls lr) k v h s r)
        with (plug [Fr true a k v h s r] (Nd la ll lk lv lh ls lr)).
      rewrite (deleteAll_subtree _ [Fr true a k v h s r] _ m); [|done|done|done].
      cbn [ctx_parent frame_addr plug fill].
      rewrite deleteAll_root_right.
      * do 3 f_equal. simpl. repeat (rewrite length_app; simpl). lia.
      * refine (NoDup_plug_sublist [] (Nd a (Nd la ll lk lv lh ls lr) k v h s r)
                  (Nd a Leaf k v h s r) _ Hnd).
        simpl. by apply sublist_inserts_l.
Qed.

(** * The statistics of the whole map *)

Lemma sum_list_perm xs ys : xs ≡ₚ ys → sum_list xs = sum_list ys.
Proof. induction 1; simpl; lia. Qed.

(** The values of the map, in the order [map_to_list] lists the entries. *)
Definition map_values (m : gmap Z Z) : list Z := (map_to_list m).*2.

Lemma vals_content t : bst t → vals t ≡ₚ map_values (content t).
Proof.
  intros Hb. unfold vals, map_values, content.
  rewrite map_to_list_to_map; [done|]. rewrite keys_fst. by apply bst_NoDup_keys.
Qed.

Lemma elem_of_map_values (m : gmap Z Z) x : x ∈ map_values m ↔ ∃ k, m !! k = Some x.
Proof.
  unfold map_values. rewrite list_elem_of_fmap. split.
  - intros ([k y] & -> & H). exists k. by apply elem_of_map_to_list.
  - intros [k H]. exists (k, x). split; [done|]. by apply elem_of_map_to_list.
Qed.

(** The statistics stored at the root are those of all the values. *)
Lemma root_stats_content a l k v h s r :
  let t := Nd a l k v h s r in
  Inv t →
  getNum s = Z.of_nat (size (content t)) ∧
  getSum s = wrap (sum_list (map_values (content t))) ∧
  (∃ k0, content t !! k0 = Some (getMin s)) ∧
  (∃ k0, content t !! k0 = Some (getMax s)) ∧
  ∀ k0 x, content t !! k0 = Some x → getMin s ≤ x ≤ getMax s.
Proof.
  intros t [Hnd Hb _ Hl].
  destruct (all_lok_correct t Hl) as (Hn & Hs & [Hm1 Hm2] & [HM1 HM2]).
  pose proof (vals_content t Hb) as Hp.
  split_and!.
  - by rewrite Hn, length_nodes, size_content.
  - rewrite Hs. f_equal. by apply sum_list_perm.
  - apply elem_of_map_values. by rewrite <- Hp.
  - apply elem_of_map_values. by rewrite <- Hp.
  - intros k0 x Hx.
    assert (x ∈ vals t) as Hin by (rewrite Hp; apply elem_of_map_values; eauto).
    split; [by apply Hm2|by apply HM2].
Qed.

(** * The node a search ends in *)

(** [findNode] returns the node with the key or, without one, the node the
    key would hang under, on the side that is free. *)
Lemma findNode_inv t k :
  Inv t →
  ∃ p, BSTMap.findNode k (st_of t) = Some (p, st_of t) ∧
    match p with
    | Some a =>
        ∃ nd, heap_of t !! a = Some nd ∧
              (key nd = k ∨ (k < key nd ∧ left nd = None ∧ k ∉ keys t) ∨
               (key nd < k ∧ right nd = None ∧ k ∉ keys t))
    | None => t = Leaf
    end.
Proof.
  intros [Hnd Hb _ _]. unfold st_of. rewrite findNode_spec by done.
  eexists. split; [done|].
  pose proof (descend_plug k t []) as Hp. simpl in Hp.
  pose proof (descend_found k t []) as Hf.
  pose proof (descend_on_path k t [] (Forall_nil_2 _)) as Ho.
  pose proof (descend_Leaf_absent k t Hb) as Habs.
  destruct (descend k [] t) as [ctx sub]. cbn [fst snd] in *. unfold last_visited. cbn [fst snd].
  destruct sub as [|a l k' v h s r].
  - specialize (Habs eq_refl). destruct ctx as [|[d p kp vp hp sp sib] ctx]; [done|].
    cbn [ctx_parent frame_addr]. apply Forall_cons in Ho as [[Hne Hd] _].
    subst t. destruct d; cbn [plug fill] in *.
    + eexists. split; [by apply lookup_plug|]. cbn [key left right].
      right. left. split_and!; [lia|done|done].
    + eexists. split; [by apply lookup_plug|]. cbn [key left right].
      right. right. split_and!; [lia|done|done].
  - subst t. eexists. split; [by apply lookup_plug|]. left.
    cbn [key]. by apply (Hf _ _ _ _ _ _ _ eq_refl).
Qed.

(** * The states a run reaches, with their entries *)

Lemma content_Leaf : content Leaf = ∅.
Proof. done. Qed.

Lemma run_model_empty ops :
  ∃ t, run ops empty_map = Some (st_of t) ∧ Inv t ∧ content t = model ops ∅.
Proof.
  rewrite <- st_of_Leaf, <- content_Leaf. apply run_model, Inv_Leaf.
Qed.

Lemma absent_keys t k :
  NoDup (addrs t) → (∀ a nd, heap_of t !! a = Some nd → key nd ≠ k) → k ∉ keys t.
Proof.
  intros Hnd Hk Hin. destruct (keys_lookup t k Hnd Hin) as (a & nd & Hl & Hkey).
  exact (Hk a nd Hl Hkey).
Qed.

Lemma keys_absent t k :
  k ∉ keys t → ∀ a nd, heap_of t !! a = Some nd → key nd ≠ k.
Proof.
  intros Hk a nd (l & k' & v & h & s & r & p & Hin & ->)%lookup_nodes. simpl. intros ->.
  apply Hk. by eapply nodes_keys.
Qed.

Lemma content_empty_iff t : bst t → content t = ∅ ↔ t = Leaf.
Proof.
  intros Hb. split; [|by intros ->].
  intros E. apply (f_equal size) in E. rewrite size_content, map_size_empty in E by done.
  destruct t; [done|]. simpl in E. rewrite length_app in E. simpl in E. lia.
Qed.

Lemma height_root_spec t m :
  NoDup (addrs t) → AVLTreeMap.height (rootp t) (stt t m) = Some (ht_of t, stt t m).
Proof.
  intros Hnd. destruct t as [|a l k v h s r]; [done|].
  exact (height_spec [] a l r k v h s m Hnd).
Qed.

(** * Ancestors *)

(** [ancestor st b a]: the parent pointers lead from the node at [a] up to
    the node at [b]. *)
Inductive ancestor (st : State) : addr → addr → Prop :=
| ancestor_parent a nd b :
    heap st !! a = Some nd → parent nd = Some b → ancestor st b a
| ancestor_up a nd p b :
    heap st !! a = Some nd → parent nd = Some p → ancestor st b p → ancestor st b a.

(** The ancestors of the node in the hole are the nodes of the frames. *)
Lemma ancestor_ctx m b : ∀ ctx a l k v h s r,
  NoDup (addrs (plug ctx (Nd a l k v h s r))) →
  ancestor (stt (plug ctx (Nd a l k v h s r)) m) b a ↔ b ∈ frame_addr <$> ctx.
Proof.
  induction ctx as [|f ctx IH]; intros a l k v h s r Hnd.
  - pose proof (lookup_plug [] a l k v h s r Hnd) as Ha. split.
    + intros H. inversion H as [a' nd b' Hl Hp|a' nd p b' Hl Hp _]; subst;
        cbn [heap stt] in Hl; rewrite Ha in Hl; by injection Hl as <-.
    + by intros ?%elem_of_nil.
  - pose proof (lookup_plug (f :: ctx) a l k v h s r Hnd) as Ha.
    assert (∃ l' k' v' h' s' r',
              fill f (Nd a l k v h s r) = Nd (frame_addr f) l' k' v' h' s' r')
      as (l' & k' & v' & h' & s' & r' & Hf).
    { destruct f as [[] p kp vp hp sp sib]; simpl; by eauto 10. }
    cbn [plug] in *. rewrite Hf in *. specialize (IH _ _ _ _ _ _ _ Hnd).
    rewrite fmap_cons, elem_of_cons. split.
    + intros H. inversion H as [a' nd b' Hl Hp|a' nd p b' Hl Hp Hup]; subst;
        cbn [heap stt] in Hl; rewrite Ha in Hl; injection Hl as <-;
        cbn [parent ctx_parent] in Hp; injection Hp as <-.
      * by left.
      * right. by apply IH.
    + intros [->|Hin].
      * exact (ancestor_parent (stt _ m) a _ _ Ha eq_refl).
      * refine (ancestor_up (stt _ m) a _ (frame_addr f) _ Ha eq_refl _). by apply IH.
Qed.

(** The nodes of the frames are nodes of the context. *)
Lemma frame_addrs_ctx ctx b : b ∈ frame_addr <$> ctx → b ∈ addrs_ctx ctx.
Proof.
  induction ctx as [|f ctx IH]; simpl; [done|].
  rewrite !elem_of_cons, elem_of_app. intros [->|H]; by auto.
Qed.

(** The entry of a frame is before or after the hole in key order. *)
Lemma frame_entry ctx b :
  b ∈ frame_addr <$> ctx →
  ∃ kb vb, (b, (kb, vb)) ∈ lefts ctx ∨ (b, (kb, vb)) ∈ rights ctx.
Proof.
  induction ctx as [|[[] p kp vp hp sp sib] ctx IH]; simpl; [by intros ?%elem_of_nil| |];
    rewrite elem_of_cons; intros [->|H].
  - exists kp, vp. right. apply list_elem_of_here.
  - destruct (IH H) as (kb & vb & [Hl|Hr]); exists kb, vb; [by left|right].
    rewrite elem_of_cons, elem_of_app. by auto.
  - exists kp, vp. left. rewrite !elem_of_app, list_elem_of_singleton. by auto.
  - destruct (IH H) as (kb & vb & [Hl|Hr]); exists kb, vb; [left|by right].
    rewrite !elem_of_app. by auto.
Qed.

Lemma climb_frame b ctx x : climb b ctx = Some x → x ∈ frame_addr <$> ctx.
Proof.
  induction ctx as [|f ctx IH]; simpl; [done|].
  rewrite elem_of_cons. destruct (Bool.eqb (frame_dir f) b); [by auto|].
  intros [= <-]. by left.
Qed.

(** Where the hole is in key order. *)
Lemma hole_split ctx w l k v h s r :
  bst (plug ctx (Nd w l k v h s r)) →
  (∀ e, e ∈ lefts ctx → e.2.1 < k) ∧ (∀ e, e ∈ rights ctx → k < e.2.1).
Proof.
  intros Hb.
  assert (inorder (plug ctx (Nd w l k v h s r))
          = (lefts ctx ++ inorder l) ++ (w, (k, v)) :: (inorder r ++ rights ctx)) as Hio.
  { rewrite inorder_plug. simpl. by rewrite <- !app_assoc. }
  destruct (bst_split _ _ _ _ _ _ Hb Hio) as [H1 H2]. split; intros e He.
  - apply H1. rewrite elem_of_app. by left.
  - apply H2. rewrite elem_of_app. by right.
Qed.

(** [successor] of a node without a right child: the nearest ancestor with
    a smaller key. *)
Lemma successor_noright_anc t w nd :
  Inv t → heap_of t !! w = Some nd → right nd = None →
  ∃ res, BSTMap.successor (Some w) (st_of t) = Some (res, st_of t) ∧
    match res with
    | Some x =>
        ancestor (st_of t) x w ∧
        ∃ nx, heap_of t !! x = Some nx ∧
          ∀ b nb, ancestor (st_of t) b w → heap_of t !! b = Some nb →
                  key nb < key nd → key nb ≤ key nx
    | None =>
        ∀ b nb, ancestor (st_of t) b w → heap_of t !! b = Some nb → key nd < key nb
    end.
Proof.
  intros Hi Hw Hr. pose proof Hi as [Hnd Hb _ _].
  destruct (lookup_position t w nd Hi Hw) as (ctx & l & k & v & h & s & r & p & -> & ->).
  simpl in Hr. destruct r; [|done]. clear Hr.
  exists (climb true ctx). unfold st_of. rewrite successor_noright_spec by done.
  split; [done|]. cbn [key].
  destruct (hole_split _ _ _ _ _ _ _ _ Hb) as [HL HR].
  assert (∀ b nb, ancestor (stt (plug ctx (Nd w l k v h s Leaf))
                             (Z.of_nat (length (addrs (plug ctx (Nd w l k v h s Leaf)))))) b w →
            heap_of (plug ctx (Nd w l k v h s Leaf)) !! b = Some nb →
            ∃ vb, (b, (key nb, vb)) ∈ lefts ctx ∨ (b, (key nb, vb)) ∈ rights ctx) as Hanc.
  { intros b nb Ha Hl. apply ancestor_ctx in Ha; [|done].
    destruct (frame_entry _ _ Ha) as (kb & vb & He). exists vb.
    destruct (inorder_lookup _ b kb vb Hnd) as (x & Hx & Hkx & _).
    { rewrite inorder_plug, !elem_of_app. destruct He; by auto. }
    rewrite Hl in Hx. injection Hx as <-. by rewrite Hkx. }
  pose proof (climb_lefts ctx) as Hc.
  destruct (climb true ctx) as [x|] eqn:Ec.
  - destruct Hc as (X & kx & vx & Hc). split.
    { apply ancestor_ctx; [done|]. by apply (climb_frame true). }
    destruct (inorder_lookup _ x kx vx Hnd) as (nx & Hx & Hkx & _).
    { rewrite inorder_plug, Hc, !elem_of_app, list_elem_of_singleton. by auto. }
    exists nx. split; [done|]. intros b nb Ha Hl Hlt.
    destruct (Hanc b nb Ha Hl) as (vb & [He|He]).
    + assert (inorder (plug ctx (Nd w l k v h s Leaf))
              = X ++ (x, (kx, vx)) :: (inorder l ++ (w, (k, v)) :: rights ctx)) as Hio.
      { rewrite inorder_plug, Hc. simpl. by repeat (rewrite <- app_assoc; simpl). }
      destruct (bst_split _ _ _ _ _ _ Hb Hio) as [H1 _].
      rewrite Hc, elem_of_app, list_elem_of_singleton in He. destruct He as [He|He].
      * specialize (H1 _ He). simpl in H1. lia.
      * injection He as _ E _. lia.
    + specialize (HR _ He). simpl in HR. lia.
  - intros b nb Ha Hl. destruct (Hanc b nb Ha Hl) as (vb & [He|He]).
    + rewrite Hc in He. by apply elem_of_nil in He.
    + exact (HR _ He).
Qed.

(** [predecessor] of a node without a left child: the nearest ancestor with
    a larger key. *)
Lemma predecessor_noleft_anc t w nd :
  Inv t → heap_of t !! w = Some nd → left nd = None →
  ∃ res, BSTMap.predecessor (Some w) (st_of t) = Some (res, st_of t) ∧
    match res with
    | Some x =>
        ancestor (st_of t) x w ∧
        ∃ nx, heap_of t !! x = Some nx ∧
          ∀ b nb, ancestor (st_of t) b w → heap_of t !! b = Some nb →
                  key nd < key nb → key nx ≤ key nb
    | None =>
        ∀ b nb, ancestor (st_of t) b w → heap_of t !! b = Some nb → key nb < key nd
    end.
Proof.
  intros Hi Hw Hr. pose proof Hi as [Hnd Hb _ _].
  destruct (lookup_position t w nd Hi Hw) as (ctx & l & k & v & h & s & r & p & -> & ->).
  simpl in Hr. destruct l; [|done]. clear Hr.
  exists (climb false ctx). unfold st_of. rewrite predecessor_noleft_spec by done.
  split; [done|]. cbn [key].
  destruct (hole_split _ _ _ _ _ _ _ _ Hb) as [HL HR].
  assert (∀ b nb, ancestor (stt (plug ctx (Nd w Leaf k v h s r))
                             (Z.of_nat (length (addrs (plug ctx (Nd w Leaf k v h s r)))))) b w →
            heap_of (plug ctx (Nd w Leaf k v h s r)) !! b = Some nb →
            ∃ vb, (b, (key nb, vb)) ∈ lefts ctx ∨ (b, (key nb, vb)) ∈ rights ctx) as Hanc.
  { intros b nb Ha Hl. apply ancestor_ctx in Ha; [|done].
    destruct (frame_entry _ _ Ha) as (kb & vb & He). exists vb.
    destruct (inorder_lookup _ b kb vb Hnd) as (x & Hx & Hkx & _).
    { rewrite inorder_plug, !elem_of_app. destruct He; by auto. }
    rewrite Hl in Hx. injection Hx as <-. by rewrite Hkx. }
  pose proof (climb_rights ctx) as Hc.
  destruct (climb false ctx) as [x|] eqn:Ec.
  - destruct Hc as (Y & kx & vx & Hc). split.
    { apply ancestor_ctx; [done|]. by apply (climb_frame false). }
    destruct (inorder_lookup _ x kx vx Hnd) as (nx & Hx & Hkx & _).
    { rewrite inorder_plug, Hc, !elem_of_app, elem_of_cons. by auto. }
    exists nx. split; [done|]. intros b nb Ha Hl Hlt.
    destruct (Hanc b nb Ha Hl) as (vb & [He|He]).
    + specialize (HL _ He). simpl in HL. lia.
    + assert (inorder (plug ctx (Nd w Leaf k v h s r))
              = (lefts ctx ++ (w, (k, v)) :: inorder r) ++ (x, (kx, vx)) :: Y) as Hio.
      { rewrite inorder_plug, Hc. simpl. by repeat (rewrite <- app_assoc; simpl). }
      destruct (bst_split _ _ _ _ _ _ Hb Hio) as [_ H2].
      rewrite Hc, elem_of_cons in He. destruct He as [He|He].
      * injection He as _ E _. lia.
      * specialize (H2 _ He). simpl in H2. lia.
  - intros b nb Ha Hl. destruct (Hanc b nb Ha Hl) as (vb & [He|He]).
    + exact (HL _ He).
    + rewrite Hc in He. by apply elem_of_nil in He.
Qed.

(** No key lies between [k] and the key of the node [findNode(k)] returns. *)
Lemma findNode_nearest t k :
  Inv t →
  ∃ p, BSTMap.findNode k (st_of t) = Some (p, st_of t) ∧
    ∀ a, p = Some a →
      ∃ nd, heap_of t !! a = Some nd ∧
        ∀ b nb, heap_of t !! b = Some nb →
          ¬ (k < key nb < key nd) ∧ ¬ (key nd < key nb < k).
Proof.
  intros [Hnd Hb _ _]. unfold st_of. rewrite findNode_spec by done.
  eexists. split; [done|]. intros a0.
  pose proof (descend_plug k t []) as Hp. simpl in Hp.
  pose proof (descend_found k t []) as Hf.
  pose proof (descend_on_path k t [] (Forall_nil_2 _)) as Ho.
  destruct (descend k [] t) as [ctx sub]. cbn [fst snd] in *. unfold last_visited. cbn [fst snd].
  destruct sub as [|a l k' v h s r].
  - destruct ctx as [|[d p kp vp hp sp sib] ctx]; [done|].
    cbn [ctx_parent frame_addr]. intros [= <-].
    subst t. destruct (path_bounds k _ Leaf Hb Ho) as [HL HR].
    rewrite Forall_forall in HL, HR.
    pose proof Ho as [[Hne Hd] _]%Forall_cons.
    assert (∀ e, e ∈ lefts (Fr d p kp vp hp sp sib :: ctx) → e.2.1 < k) as HL'.
    { intros e He. apply HL. by do 2 apply list_elem_of_fmap_2. }
    assert (∀ e, e ∈ rights (Fr d p kp vp hp sp sib :: ctx) → k < e.2.1) as HR'.
    { intros e He. apply HR. by do 2 apply list_elem_of_fmap_2. }
    clear HL HR.
    assert (∀ b nb, heap_of (plug (Fr d p kp vp hp sp sib :: ctx) Leaf) !! b = Some nb →
              ¬ (k < key nb < kp) ∧ ¬ (kp < key nb < k)) as Hadj.
    { intros b nb Hl. apply lookup_inorder in Hl.
      pose proof (inorder_plug (Fr d p kp vp hp sp sib :: ctx) Leaf) as Hio.
      rewrite Hio in Hl. cbn [inorder app] in Hl, Hio. rewrite elem_of_app in Hl.
      destruct d; cbn [lefts rights] in *.
      - assert (k < kp) by lia.
        destruct (bst_split _ _ _ _ _ _ Hb Hio) as [_ H2].
        destruct Hl as [He|He].
        + specialize (HL' _ He). simpl in HL'. lia.
        + apply elem_of_cons in He as [He|He].
          * injection He as _ E _. lia.
          * specialize (H2 _ He). simpl in H2. lia.
      - assert (kp < k) by lia.
        assert (inorder (plug ctx (Nd p sib kp vp hp sp Leaf))
                = (lefts ctx ++ inorder sib) ++ (p, (kp, vp)) :: rights ctx) as Hio2.
        { etrans; [exact Hio|]. by repeat (rewrite <- app_assoc; simpl). }
        destruct (bst_split _ _ _ _ _ _ Hb Hio2) as [H1 _].
        destruct Hl as [He|He].
        + rewrite !elem_of_app, list_elem_of_singleton in He.
          destruct He as [He|[He|He]].
          * assert (key nb < kp); [|lia].
            apply (H1 (b, (key nb, value nb))). rewrite elem_of_app. by left.
          * assert (key nb < kp); [|lia].
            apply (H1 (b, (key nb, value nb))). rewrite elem_of_app. by right.
          * injection He as _ E _. lia.
        + specialize (HR' _ He). simpl in HR'. lia. }
    destruct d; cbn [plug fill] in *.
    + eexists. split; [by apply lookup_plug|]. cbn [key]. exact Hadj.
    + eexists. split; [by apply lookup_plug|]. cbn [key]. exact Hadj.
  - intros [= <-]. subst t. eexists. split; [by apply lookup_plug|].
    cbn [key]. rewrite (Hf _ _ _ _ _ _ _ eq_refl). intros b nb _. lia.
Qed.

(** ** What [put] of a key of the tree leaves alone *)

Lemma cells_plug_elem e ctx : ∀ t,
  e ∈ cells None (plug ctx t) ↔
  e ∈ cells (ctx_parent ctx) t ∨ e ∈ cells_ctx ctx (rootp t).
Proof.
  induction ctx as [|[d a k v hh s sib] ctx IH]; intros t; simpl.
  - rewrite elem_of_nil. tauto.
  - rewrite IH. destruct d; simpl;
      rewrite ?elem_of_app, ?elem_of_cons, ?elem_of_app; tauto.
Qed.

Definition num_of (c : option Stats) : Z := if c is Some s then getNum s else 0.

(** The walk of [updateTree] keeps the records beside the path, and the
    counts on the path when the count below the path is the same. *)
Lemma cells_ctx_refresh b nb : ∀ ctx t c p,
  all_lok (plug ctx t) → num_of c = num_of (info_of t) →
  (b, nb) ∈ cells_ctx ctx p →
  ∃ nb', (b, nb') ∈ cells_ctx (refresh_ctx c ctx) p ∧
         getNum (info nb') = getNum (info nb) ∧
         (b ∉ frame_addr <$> ctx → nb' = nb).
Proof.
  induction ctx as [|[d a k v h s sib] ctx IH]; intros t c p Hl Hc; simpl;
    [by intros ?%elem_of_nil|].
  change (all_lok (plug ctx (fill (Fr d a k v h s sib) t))) in Hl.
  pose proof (all_lok_plug_inv _ _ Hl) as [Hf _].
  rewrite ctx_parent_refresh.
  rewrite !elem_of_cons, !elem_of_app. intros [E|[Hs|Hr]].
  - injection E as -> ->. eexists. split; [by left|]. cbn [info]. split.
    + destruct d; simpl in Hf; destruct Hf as (_ & _ & ->); cbn [getNum TreeMapStats.updateStats];
        fold (num_of c); fold (num_of (info_of t)); by rewrite Hc.
    + intros Hn. exfalso. apply Hn. apply list_elem_of_here.
  - exists nb. split; [|done]. rewrite elem_of_cons, elem_of_app. by auto.
  - destruct (IH (fill (Fr d a k v h s sib) t)
                (Some (TreeMapStats.updateStats v (if d then c else info_of sib)
                                                  (if d then info_of sib else c)))
                (Some a) Hl) as (nb' & Hin & Hn & He); [|done|].
    + rewrite info_of_fill. cbn [num_of frame_info].
      destruct d; simpl in Hf; destruct Hf as (_ & _ & ->); cbn [getNum TreeMapStats.updateStats];
        fold (num_of c); fold (num_of (info_of t)); by rewrite Hc.
    + exists nb'. split; [rewrite elem_of_cons, elem_of_app; by auto|]. split; [done|].
      intros Hn'. apply He. intros Hin'. apply Hn'. by apply list_elem_of_further.
Qed.

Lemma put_existing_frame t k v a nd :
  Inv t → heap_of t !! a = Some nd → key nd = k →
  ∃ st', TreeMapStats.put k v (st_of t) = Some (tt, st') ∧
    ∀ b nb, heap_of t !! b = Some nb →
      ∃ nb', heap st' !! b = Some nb' ∧
             getNum (info nb') = getNum (info nb) ∧
             (b ≠ a → ¬ ancestor (st_of t) b a → nb' = nb).
Proof.
  intros Hi Ha Hk. pose proof Hi as [Hnd Hb Hav Hl].
  destruct (lookup_nodes _ _ _ Ha) as (l & k' & v0 & h & s & r & p & Hin & ->).
  simpl in Hk. subst k'.
  destruct (descend_node _ _ _ _ _ _ _ _ [] Hb Hin) as [ctx Hd].
  pose proof (put_t_present k v t ctx a l v0 h s r Hi Hd) as Hput.
  set (t' := plug _ _) in Hput.
  pose proof (descend_plug k t []) as Hp. rewrite Hd in Hp. simpl in Hp.
  assert (inorder t' = inorder (plug ctx (Nd a l k v h s r))) as Hio.
  { apply updateTree_z_inorder. }
  assert (NoDup (addrs t')) as Hnd'.
  { apply (NoDup_inorder _ _ Hio). rewrite (addrs_plug_eq ctx _ (Nd a l k v0 h s r)) by done.
    by rewrite Hp. }
  exists (stt t' (Z.of_nat (length (addrs t)))). unfold st_of.
  rewrite (put_spec k v t t' _ Hnd Hput), Hd. cbn [snd heap root n stt].
  split; [done|]. intros b nb Hb'.
  assert (∀ x, (b, x) ∈ cells None t' → heap_of t' !! b = Some x) as Hto.
  { intros x Hx. apply elem_of_list_to_map_1; [by rewrite cells_addrs|done]. }
  apply elem_of_list_to_map_2 in Hb'. rewrite <- Hp in Hb', Hl.
  pose proof (all_lok_plug_inv _ _ Hl) as [(_ & _ & Hs) _]. simpl in Hs.
  subst t'. unfold updateTree_z in *. cbn [fst snd refresh_t info_of] in *.
  set (s' := TreeMapStats.updateStats v (info_of l) (info_of r)) in *.
  apply cells_plug_elem in Hb' as [Hb'|Hb'].
  - cbn [cells] in Hb'. rewrite elem_of_app, elem_of_cons in Hb'.
    destruct Hb' as [Hb'|[E|Hb']].
    + exists nb. split; [|done]. apply Hto, cells_plug_elem. left.
      cbn [cells]. rewrite elem_of_app. by left.
    + injection E as -> ->. eexists. split.
      * apply Hto, cells_plug_elem. left. cbn [cells].
        rewrite elem_of_app, elem_of_cons. right. left. reflexivity.
      * cbn [info]. split; [by rewrite Hs|done].
    + exists nb. split; [|done]. apply Hto, cells_plug_elem. left.
      cbn [cells]. rewrite elem_of_app, elem_of_cons. by auto.
  - cbn [rootp] in Hb'.
    destruct (cells_ctx_refresh b nb ctx _ (Some s') (Some a) Hl) as (nb' & Hin' & Hn & He);
      [by rewrite Hs|done|].
    exists nb'. split; [|split; [done|]].
    + apply Hto, cells_plug_elem. right. exact Hin'.
    + intros _ Hanc. apply He. intros Hf. apply Hanc.
      rewrite <- Hp. apply ancestor_ctx; [by rewrite Hp|done].
Qed.

(** * The properties of the map *)

(** C1: after every sequence of [put] and [erase] from the empty map, the
    map is the state of a tree [t] whose nodes are the nodes reachable from
    the root.  At every node the heights of the two subtrees differ by at
    most one, and the stored height is one more than the larger of the
    children's stored heights, an absent child counting 0.  The sequence is
    arbitrary, so this holds after each of its operations.  The walk of
    [rebalanceAncestors] in the model stops at the first node whose height
    the fix leaves unchanged, as in the source. *)
Theorem balance_and_heights_after_run (ops : list op) :
  ∃ t, run ops empty_map = Some (st_of t) ∧
       (∀ a, reach (st_of t) a ↔ ∃ l k v h s r, Nd a l k v h s r ∈ nodes t) ∧
       ∀ a l k v h s r, Nd a l k v h s r ∈ nodes t →
         (∃ p, heap (st_of t) !! a = Some (mkNode k v (rootp l) (rootp r) p h s)) ∧
         Z.abs (height l - height r) ≤ 1 ∧
         h = 1 + Z.max (ht_of l) (ht_of r).
Proof.
  destruct (run_empty ops) as (t & Hrun & [Hnd _ Ha _]).
  exists t. split; [done|]. split; [intros a; by apply reach_nodes|].
  intros a l k v h s r Hin.
  split; [by apply nodes_lookup|].
  pose proof (nodes_avl _ _ Hin Ha) as (Hl & Hr & Hb & ->).
  rewrite <- (avl_height l Hl), <- (avl_height r Hr). split; [done|lia].
Qed.

(** C2: after every sequence of [put] and [erase] from the empty map, the
    map is the state of a tree [t] whose nodes are the nodes reachable from
    the root, and the stored statistics of every node are those of its
    subtree: the count is the number of nodes, the minimum and maximum are
    values of the subtree that bound all its values, and the sum is the sum
    of the values as an [int], that is reduced to 32 bits; it is the sum of
    the values whenever that sum is in the range of [int].  The sequences
    include those whose rebalancing rotates. *)
Theorem statistics_after_run (ops : list op) :
  ∃ t, run ops empty_map = Some (st_of t) ∧
       (∀ a, reach (st_of t) a ↔ ∃ l k v h s r, Nd a l k v h s r ∈ nodes t) ∧
       ∀ a l k v h s r, Nd a l k v h s r ∈ nodes t →
         (∃ p, heap (st_of t) !! a = Some (mkNode k v (rootp l) (rootp r) p h s)) ∧
         getNum s = Z.of_nat (length (nodes (Nd a l k v h s r))) ∧
         getSum s = wrap (sum_list (vals (Nd a l k v h s r))) ∧
         (in_int (sum_list (vals (Nd a l k v h s r))) →
          getSum s = sum_list (vals (Nd a l k v h s r))) ∧
         (getMin s ∈ vals (Nd a l k v h s r) ∧
          ∀ x, x ∈ vals (Nd a l k v h s r) → getMin s ≤ x) ∧
         (getMax s ∈ vals (Nd a l k v h s r) ∧
          ∀ x, x ∈ vals (Nd a l k v h s r) → x ≤ getMax s).
Proof.
  destruct (run_empty ops) as (t & Hrun & [Hnd _ _ Hl]).
  exists t. split; [done|]. split; [intros a; by apply reach_nodes|].
  intros a l k v h s r Hin.
  split; [by apply nodes_lookup|].
  destruct (all_lok_correct _ (nodes_all_lok _ _ Hin Hl)) as (Hn & Hs & Hm & HM).
  split; [done|]. split; [done|]. split; [|done].
  intros Hr. by rewrite Hs, wrap_in_int.
Qed.

(** The sum of the values is not always the stored sum: after
    [put(1, 2147483647)] and [put(2, 1)] the node with key 1 is the root,
    the values of the map add up to 2147483648 and the sum stored at the
    root is -2147483648.  So no tree of this state has at every node the
    sum of the values of the subtree. *)
Lemma statistics_sum_counterexample :
  (∃ st a nd, run [Put 1 2147483647; Put 2 1] empty_map = Some st ∧
              root st = Some a ∧ heap st !! a = Some nd ∧
              key nd = 1 ∧ getSum (info nd) = -2147483648) ∧
  ¬ ∃ t, run [Put 1 2147483647; Put 2 1] empty_map = Some (st_of t) ∧
         ∀ a l k v h s r, Nd a l k v h s r ∈ nodes t →
           (∃ p, heap (st_of t) !! a = Some (mkNode k v (rootp l) (rootp r) p h s)) ∧
           getSum s = sum_list (vals (Nd a l k v h s r)).
Proof.
  set (t0 := Nd 1%positive Leaf 1 2147483647 2 (mkStats 2 (-2147483648) 1 2147483647)
               (Nd 2%positive Leaf 2 1 1 (mkStats 1 1 1 1) Leaf)).
  assert (run [Put 1 2147483647; Put 2 1] empty_map = Some (st_of t0)) as Hc.
  { vm_compute. reflexivity. }
  assert (heap_of t0 !! 1%positive
          = Some (mkNode 1 2147483647 None (Some 2%positive) None 2
                         (mkStats 2 (-2147483648) 1 2147483647))) as H1.
  { vm_compute. reflexivity. }
  assert (heap_of t0 !! 2%positive
          = Some (mkNode 2 1 None None (Some 1%positive) 1 (mkStats 1 1 1 1))) as H2.
  { vm_compute. reflexivity. }
  split.
  - exists (st_of t0), 1%positive. eexists. split; [exact Hc|].
    split; [reflexivity|]. split; [exact H1|]. split; reflexivity.
  - intros (t & Hrun & H). rewrite Hc in Hrun.
    unfold st_of, stt in Hrun. injection Hrun as Hheap Hroot _.
    rewrite Hheap in H1, H2.
    destruct t as [|a l k v h s r]; [done|].
    cbn [rootp] in Hroot. injection Hroot as <-.
    destruct (H _ _ _ _ _ _ _ (nodes_self 1%positive l k v h s r)) as [[p Hp] Hs].
    pose proof (eq_trans (eq_sym H1) Hp) as E.
    injection E as <- <- Hl Hr _ <- <-.
    destruct l; [|done]. destruct r as [|a2 l2 k2 v2 h2 s2 r2]; [done|].
    cbn [rootp] in Hr. injection Hr as <-.
    destruct (H 2%positive l2 k2 v2 h2 s2 r2) as [[p2 Hp2] _].
    { apply (nodes_sub _ _ _ _ _ _ _ _ _ (nodes_self _ _ _ _ _ _ _)).
      right. apply nodes_self. }
    pose proof (eq_trans (eq_sym H2) Hp2) as E.
    injection E as <- <- Hl2 Hr2 _ <- <-.
    destruct l2; [|done]. destruct r2; [|done].
    vm_compute in Hs. done.
Qed.

(** C3: after every sequence of [put] and [erase] from the empty map, the
    map is the state of a tree [t] whose nodes are the nodes reachable from
    the root, and at every node the keys of the left subtree are below the
    key of the node and the keys of the right subtree are above it. *)
Theorem search_order_after_run (ops : list op) :
  ∃ t, run ops empty_map = Some (st_of t) ∧
       (∀ a, reach (st_of t) a ↔ ∃ l k v h s r, Nd a l k v h s r ∈ nodes t) ∧
       ∀ a l k v h s r, Nd a l k v h s r ∈ nodes t →
         (∃ p, heap (st_of t) !! a = Some (mkNode k v (rootp l) (rootp r) p h s)) ∧
         (∀ x, x ∈ keys l → x < k) ∧ (∀ x, x ∈ keys r → k < x).
Proof.
  destruct (run_empty ops) as (t & Hrun & [Hnd Hb _ _]).
  exists t. split; [done|]. split; [intros a; by apply reach_nodes|].
  intros a l k v h s r Hin.
  split; [by apply nodes_lookup|].
  exact (bst_node _ _ _ _ _ _ _ (nodes_bst _ _ Hin Hb)).
Qed.

(** C4: after every sequence of [put] and [erase] from the empty map, the
    nodes reachable from the root are the records of the store, [size()]
    returns their number, and that number is the count stored at the root,
    or 0 when there is no root. *)
Theorem size_after_run (ops : list op) :
  ∃ st, run ops empty_map = Some st ∧
        (∀ a, reach st a ↔ a ∈ dom (heap st)) ∧
        BSTMap.size st = Some (Z.of_nat (size (dom (heap st))), st) ∧
        match root st with
        | Some a => ∃ nd, heap st !! a = Some nd ∧
                          getNum (info nd) = Z.of_nat (size (dom (heap st)))
        | None => size (dom (heap st)) = 0%nat
        end.
Proof.
  destruct (run_empty ops) as (t & Hrun & [Hnd _ _ Hl]).
  exists (st_of t). split; [done|]. split; [intros a; by apply reach_dom|].
  assert (size (dom (heap (st_of t))) = length (nodes t)) as ->.
  { simpl. by rewrite size_dom, size_heap_of, length_nodes. }
  split.
  - by rewrite length_nodes.
  - destruct t as [|a l k v h s r]; [done|]. cbn [root st_of stt rootp].
    destruct (nodes_lookup _ _ _ _ _ _ _ _ Hnd (nodes_self a l k v h s r)) as [p Hp].
    eexists. split; [exact Hp|]. cbn [info].
    exact (info_correct_num _ (all_lok_correct _ Hl)).
Qed.

(** C5: in a state that a sequence of [put] and [erase] reaches from the
    empty map, [erase] of a key that no node has succeeds and gives back the
    same state: the store, the root and the size are unchanged.  The model
    of [erase] runs the walks of [rebalanceAncestors] and [updateTree] from
    the last node of the search, as the source does. *)
Theorem erase_absent_key (ops : list op) (st : State) (k : Z) :
  run ops empty_map = Some st →
  (∀ a nd, heap st !! a = Some nd → key nd ≠ k) →
  TreeMapStats.erase k st = Some (tt, st).
Proof.
  intros (t & -> & Hi)%run_reaches Hk. apply erase_absent_inv; [done|].
  intros Hin. destruct (keys_lookup t k (inv_nodup _ Hi) Hin) as (a & nd & Hl & Hkey).
  exact (Hk a nd Hl Hkey).
Qed.

(** An instance: [erase(5)] on the map with the keys 1, 2, 3. *)
Lemma erase_absent_key_witness :
  TreeMapStats.erase 5 (st_of tree_123) = Some (tt, st_of tree_123).
Proof.
  apply (erase_absent_key [Put 1 1; Put 2 2; Put 3 3]).
  - vm_compute. reflexivity.
  - change (map_Forall (λ _ nd, key nd ≠ 5) (heap (st_of tree_123))).
    apply (bool_decide_unpack _). vm_compute. exact I.
Defined.

(** C6: in a state that a sequence of [put] and [erase] reaches from the
    empty map, let the node [a] with key [k] have two children.  Then
    [successor(a)] is a node [sa] whose key is the least key above [k] and
    that has no left child, and [erase(k)] succeeds: afterwards [a] holds
    the key and the value of [sa], the record of [sa] is gone from the
    store and no other record is, the size is one less, and every other
    node keeps its key and value. *)
Theorem erase_two_children (ops : list op) (st : State) (k : Z) (a : addr) (nd : Node) :
  run ops empty_map = Some st →
  heap st !! a = Some nd → key nd = k →
  left nd ≠ None → right nd ≠ None →
  ∃ st' sa ns nd',
    BSTMap.successor (Some a) st = Some (Some sa, st) ∧
    heap st !! sa = Some ns ∧ left ns = None ∧
    k < key ns ∧
    (∀ b nb, heap st !! b = Some nb → k < key nb → key ns ≤ key nb) ∧
    TreeMapStats.erase k st = Some (tt, st') ∧
    heap st' !! a = Some nd' ∧ key nd' = key ns ∧ value nd' = value ns ∧
    heap st' !! sa = None ∧
    dom (heap st') = dom (heap st) ∖ {[sa]} ∧
    n st' = n st - 1 ∧
    (∀ b nb, heap st !! b = Some nb → b ≠ a → b ≠ sa →
       ∃ nb', heap st' !! b = Some nb' ∧ key nb' = key nb ∧ value nb' = value nb).
Proof.
  intros (t & -> & Hi)%run_reaches. by apply erase_two_inv.
Qed.

(** An instance: [erase(2)] on the map with the keys 1, 2, 3, where the
    node with key 2 has both children. *)
Lemma erase_two_children_witness :
  ∃ st' sa, TreeMapStats.erase 2 (st_of tree_123) = Some (tt, st') ∧
            heap st' !! sa = None ∧ n st' = 2.
Proof.
  destruct (erase_two_children [Put 1 1; Put 2 2; Put 3 3] (st_of tree_123) 2 2%positive
              (mkNode 2 2 (Some 1%positive) (Some 3%positive) None 2 (mkStats 3 6 1 3)))
    as (st' & sa & ns & nd' & _ & _ & _ & _ & _ & He & _ & _ & _ & Hs & _ & Hn & _).
  - vm_compute. reflexivity.
  - vm_compute. reflexivity.
  - reflexivity.
  - discriminate.
  - discriminate.
  - exists st', sa. split; [exact He|]. split; [exact Hs|exact Hn].
Defined.

(** C7: in a state that a sequence of [put] and [erase] reaches from the
    empty map, [put(k, v)] for the key [k] of a node [a] succeeds and leaves
    the root, the size and the set of records as they were; every record
    keeps its key, its three pointers, its stored height and its stored
    count, and its value too unless it is [a], whose value becomes [v].
    A record that is neither [a] nor an ancestor of [a] is unchanged, so
    the sum, the minimum and the maximum change at most at [a] and at its
    ancestors; the state is the one the sequence with this [put] at its
    end reaches, so that they are the statistics of the new values. *)
Theorem put_existing_key (ops : list op) (st : State) (k v : Z) (a : addr) (nd : Node) :
  run ops empty_map = Some st →
  heap st !! a = Some nd → key nd = k →
  ∃ st', TreeMapStats.put k v st = Some (tt, st') ∧
         run (ops ++ [Put k v]) empty_map = Some st' ∧
         root st' = root st ∧ n st' = n st ∧
         dom (heap st') = dom (heap st) ∧
         ∀ b nb, heap st !! b = Some nb →
           ∃ nb', heap st' !! b = Some nb' ∧
                  key nb' = key nb ∧ left nb' = left nb ∧ right nb' = right nb ∧
                  parent nb' = parent nb ∧ ht nb' = ht nb ∧
                  value nb' = (if decide (b = a) then v else value nb) ∧
                  getNum (info nb') = getNum (info nb) ∧
                  (b ≠ a → ¬ ancestor st b a → nb' = nb).
Proof.
  intros Hrun Ha Hk. pose proof Hrun as (t & -> & Hi)%run_reaches.
  destruct (put_existing_inv t k v a nd Hi Ha Hk) as (st' & Hput & Hr & Hn & Hd & Hall).
  destruct (put_existing_frame t k v a nd Hi Ha Hk) as (st2 & Hput2 & Hfr).
  rewrite Hput in Hput2. injection Hput2 as <-.
  exists st'. split_and!; [done| |done|done|done|].
  { exact (run_snoc ops (Put k v) _ _ _ _ Hrun Hput). }
  intros b nb Hb.
  destruct (Hall b nb Hb) as (nb' & Hb' & H1 & H2 & H3 & H4 & H5 & H6).
  destruct (Hfr b nb Hb) as (nb2 & Hb2 & H7 & H8).
  rewrite Hb' in Hb2. injection Hb2 as <-.
  exists nb'. by split_and!.
Qed.

(** An instance: [put(2,7)] on the map with the keys 1, 2, 3. *)
Lemma put_existing_key_witness :
  ∃ st', TreeMapStats.put 2 7 (st_of tree_123) = Some (tt, st') ∧
         root st' = Some 2%positive ∧ n st' = 3.
Proof.
  destruct (put_existing_key [Put 1 1; Put 2 2; Put 3 3] (st_of tree_123) 2 7 2%positive
              (mkNode 2 2 (Some 1%positive) (Some 3%positive) None 2 (mkStats 3 6 1 3)))
    as (st' & Hp & _ & Hr & Hn & _).
  - vm_compute. reflexivity.
  - vm_compute. reflexivity.
  - reflexivity.
  - exists st'. split; [exact Hp|]. split; [exact Hr|exact Hn].
Defined.

(** C8: at a node [z] whose children have stored heights that differ by 2,
    [rebalance(z)] takes for [y] the taller child of [z], the left one on a
    tie, and for [x] the taller child of [y], on a tie the left one unless
    [y] is the right child of [z] and then the right one.  Both exist.
    The call succeeds and puts the restructured subtree in the place of
    [z]: when [x], [y], [z] are in one line, [y] is promoted above [z];
    else [x] is promoted above [y] and then above [z], so above both.  The
    promoted nodes get the heights and the statistics their children give,
    the ancestors get their statistics again, the node returned is the new
    root of the subtree, [y] or [x], and the entries keep their key
    order. *)
Theorem rebalance_choice ctx z L kz vz hz sz R m :
  let t := Nd z L kz vz hz sz R in
  let y_left := taller_side true t in
  let ty := child y_left t in
  let x_left := taller_side y_left ty in
  let tx := child x_left ty in
  NoDup (addrs (plug ctx t)) → avl L → avl R → Z.abs (ht_of L - ht_of R) = 2 →
  ty ≠ Leaf ∧ tx ≠ Leaf ∧
  restructure t
  = (if collinear y_left x_left then
       if y_left then promote_left t else promote_right t
     else
       if y_left then promote_left (Nd z (promote_right L) kz vz hz sz R)
       else promote_right (Nd z L kz vz hz sz (promote_left R))) ∧
  rootp (restructure t) = (if collinear y_left x_left then rootp ty else rootp tx) ∧
  inorder (restructure t) = inorder t ∧
  TreeMapStats.rebalance (Some z) (stt (plug ctx t) m)
  = Some (rootp (restructure t),
          stt (plug (refresh_ctx (info_of (restructure t)) ctx) (restructure t)) m).
Proof.
  intros t y_left ty x_left tx Hnd HL HR Hd.
  destruct (rebalance_z_restructure ctx z L kz vz hz sz R HL HR Hd)
    as (Hy & Hx & Hroot & Hio & Hres).
  split_and!; [done|done|done|done|done|].
  exact (rebalance_spec ctx z L kz vz hz sz R m _ Hnd Hres).
Qed.

(** An instance: the keys 1, 2, 3 on a right spine; [rebalance] at the
    node with key 1 promotes the node with key 2 above it, which gives the
    tree with the key 2 at the root. *)
Lemma rebalance_choice_witness :
  TreeMapStats.rebalance (Some 1%positive) (stt chain_123 3)
  = Some (Some 2%positive, stt tree_123 3).
Proof.
  refine (proj2 (proj2 (proj2 (proj2 (proj2
    (rebalance_choice [] 1%positive Leaf 1 1 2 (mkStats 2 3 1 2)
       (Nd 2%positive Leaf 2 2 2 (mkStats 2 5 2 3)
           (Nd 3%positive Leaf 3 3 1 (mkStats 1 3 3 3) Leaf)) 3 _ _ _ _)))))).
  - apply (bool_decide_unpack _). vm_compute. exact I.
  - exact I.
  - simpl. repeat split; lia.
  - reflexivity.
Defined.

(** C9: [put(1,1)], [put(2,2)], [put(3,3)] on the empty map leave the node
    with key 2 at the root, the node with key 1 as its left child and the
    node with key 3 as its right child; [find(2)] returns the root, whose
    statistics are count 3, sum 6, minimum 1 and maximum 3. *)
Theorem scenario_put_1_2_3 :
  ∃ st a1 a2 a3 n1 n2 n3,
    run [Put 1 1; Put 2 2; Put 3 3] empty_map = Some st ∧
    root st = Some a2 ∧
    heap st !! a1 = Some n1 ∧ heap st !! a2 = Some n2 ∧ heap st !! a3 = Some n3 ∧
    key n1 = 1 ∧ key n2 = 2 ∧ key n3 = 3 ∧
    left n2 = Some a1 ∧ right n2 = Some a3 ∧
    BSTMap.find 2 st = Some (Some a2, st) ∧
    value n2 = 2 ∧ info n2 = mkStats 3 6 1 3.
Proof.
  exists (st_of tree_123), 1%positive, 2%positive, 3%positive.
  exists (mkNode 1 1 None None (Some 2%positive) 1 (mkStats 1 1 1 1)).
  exists (mkNode 2 2 (Some 1%positive) (Some 3%positive) None 2 (mkStats 3 6 1 3)).
  exists (mkNode 3 3 None None (Some 2%positive) 1 (mkStats 1 3 3 3)).
  split_and!; try reflexivity; vm_compute; reflexivity.
Qed.

(** C10: [successor] and [predecessor] of the null pointer return the null
    pointer; the call succeeds and leaves the state as it was.  So does
    [youngestAncestorType]. *)
Theorem successor_predecessor_of_null (st : State) (b : bool) :
  BSTMap.successor None st = Some (None, st) ∧
  BSTMap.predecessor None st = Some (None, st) ∧
  BSTMap.youngestAncestorType None b st = Some (None, st).
Proof. done. Qed.

(** * Further properties of the code *)

(** X1: after every sequence of [put] and [erase] from the empty map,
    [find(k)] leaves the map as it is and returns the node with key [k],
    whose value is the one the last [put(k, _)] not followed by [erase(k)]
    gave; it returns NULL when there is no such [put], and then no node has
    the key. *)
Theorem find_after_run (ops : list op) (k : Z) :
  ∃ st p, run ops empty_map = Some st ∧ BSTMap.find k st = Some (p, st) ∧
    match p with
    | Some a => ∃ nd, heap st !! a = Some nd ∧ key nd = k ∧
                      model ops ∅ !! k = Some (value nd)
    | None => model ops ∅ !! k = None ∧
              ∀ a nd, heap st !! a = Some nd → key nd ≠ k
    end.
Proof.
  destruct (run_model_empty ops) as (t & Hrun & Hi & Hc). pose proof Hi as [Hnd Hb _ _].
  exists (st_of t), (found k t). split; [done|]. split; [by apply find_spec|].
  rewrite <- Hc. unfold found.
  pose proof (descend_plug k t []) as Hp. simpl in Hp.
  pose proof (descend_found k t []) as Hf.
  pose proof (descend_Leaf_absent k t Hb) as Habs.
  destruct (descend k [] t) as [ctx sub]. cbn [fst snd] in *.
  destruct sub as [|a l k' v h s r].
  - specialize (Habs eq_refl). split; [by apply content_lookup_None|].
    by apply keys_absent.
  - rewrite (Hf _ _ _ _ _ _ _ eq_refl) in *. subst t.
    eexists. split; [by apply lookup_plug|]. split; [done|]. cbn [value].
    apply (content_lookup _ a l k v h s r Hb). apply nodes_plug, nodes_self.
Qed.

(** X2: after every sequence of [put] and [erase] from the empty map,
    [size()] is the number of keys that have an entry. *)
Theorem size_counts_keys (ops : list op) :
  ∃ st, run ops empty_map = Some st ∧
        BSTMap.size st = Some (Z.of_nat (size (model ops ∅)), st).
Proof.
  destruct (run_model_empty ops) as (t & Hrun & Hi & Hc).
  exists (st_of t). split; [done|]. rewrite <- Hc, size_content by apply Hi. done.
Qed.

(** X3: after every sequence of [put] and [erase] from the empty map,
    [empty()] returns true exactly when no key has an entry. *)
Theorem empty_iff_no_entry (ops : list op) :
  ∃ st b, run ops empty_map = Some st ∧ BSTMap.empty st = Some (b, st) ∧
          (b = true ↔ model ops ∅ = ∅).
Proof.
  destruct (run_model_empty ops) as (t & Hrun & Hi & Hc).
  exists (st_of t), (if rootp t is Some _ then false else true).
  split; [done|]. split; [done|]. rewrite <- Hc, content_empty_iff by apply Hi.
  by destruct t.
Qed.

(** X4: in a state that a sequence of [put] and [erase] reaches from the
    empty map, [put] of a key with the value its node already holds gives
    the same state back; so a second [put(k, v)] changes nothing. *)
Theorem put_same_value (ops : list op) (st : State) (k : Z) (a : addr) (nd : Node) :
  run ops empty_map = Some st →
  heap st !! a = Some nd → key nd = k →
  TreeMapStats.put k (value nd) st = Some (tt, st).
Proof.
  intros (t & -> & Hi)%run_reaches Ha Hk. apply put_same_inv; [done|].
  simpl in Ha. destruct (lookup_nodes _ _ _ Ha) as (l & k' & v & h & s & r & p & Hin & ->).
  simpl in *. subst k'. apply (content_lookup _ a l k v h s r); [apply Hi|done].
Qed.

(** An instance: [put(2,2)] on the map with the entries 1:1, 2:2, 3:3. *)
Lemma put_same_value_witness :
  TreeMapStats.put 2 2 (st_of tree_123) = Some (tt, st_of tree_123).
Proof.
  apply (put_same_value [Put 1 1; Put 2 2; Put 3 3] (st_of tree_123) 2 2%positive
           (mkNode 2 2 (Some 1%positive) (Some 3%positive) None 2 (mkStats 3 6 1 3))).
  - vm_compute. reflexivity.
  - vm_compute. reflexivity.
  - reflexivity.
Defined.

(** X5: in a state that a sequence of [put] and [erase] reaches from the
    empty map, [put(k, v)] for a key that no node has adds exactly one
    record, at an address that was free, holding [k] and [v]; the size
    grows by one and every record that was there keeps its key and its
    value. *)
Theorem put_new_key (ops : list op) (st : State) (k v : Z) :
  run ops empty_map = Some st →
  (∀ a nd, heap st !! a = Some nd → key nd ≠ k) →
  ∃ st' x nx,
    TreeMapStats.put k v st = Some (tt, st') ∧
    heap st !! x = None ∧
    heap st' !! x = Some nx ∧ key nx = k ∧ value nx = v ∧
    dom (heap st') = {[x]} ∪ dom (heap st) ∧
    n st' = n st + 1 ∧
    ∀ b nb, heap st !! b = Some nb →
      ∃ nb', heap st' !! b = Some nb' ∧ key nb' = key nb ∧ value nb' = value nb.
Proof.
  intros (t & -> & Hi)%run_reaches Hk. apply put_new_inv; [done|].
  apply absent_keys; [apply Hi|done].
Qed.

(** An instance: [put(5,9)] on the map with the keys 1, 2, 3. *)
Lemma put_new_key_witness :
  ∃ st', TreeMapStats.put 5 9 (st_of tree_123) = Some (tt, st') ∧ n st' = 4.
Proof.
  destruct (put_new_key [Put 1 1; Put 2 2; Put 3 3] (st_of tree_123) 5 9)
    as (st' & x & nx & Hp & _ & _ & _ & _ & _ & Hn & _).
  - vm_compute. reflexivity.
  - change (map_Forall (λ _ nd, key nd ≠ 5) (heap (st_of tree_123))).
    apply (bool_decide_unpack _). vm_compute. exact I.
  - exists st'. split; [exact Hp|exact Hn].
Defined.

(** X6: in a state that a sequence of [put] and [erase] reaches from the
    empty map, [erase(k)] for the key of a node frees exactly one record,
    the node itself when it has at most one child; the size shrinks by one
    and afterwards no record has the key. *)
Theorem erase_frees_one_record (ops : list op) (st : State) (k : Z) (a : addr) (nd : Node) :
  run ops empty_map = Some st →
  heap st !! a = Some nd → key nd = k →
  ∃ st' b,
    TreeMapStats.erase k st = Some (tt, st') ∧
    is_Some (heap st !! b) ∧ heap st' !! b = None ∧
    dom (heap st') = dom (heap st) ∖ {[b]} ∧
    n st' = n st - 1 ∧
    (left nd = None ∨ right nd = None → b = a) ∧
    ∀ c nc, heap st' !! c = Some nc → key nc ≠ k.
Proof.
  intros (t & -> & Hi)%run_reaches. by apply erase_present_inv.
Qed.

(** An instance: [erase(1)] on the map with the keys 1, 2, 3, where the node
    with key 1 has no child. *)
Lemma erase_frees_one_record_witness :
  ∃ st', TreeMapStats.erase 1 (st_of tree_123) = Some (tt, st') ∧
         heap st' !! 1%positive = None ∧ n st' = 2.
Proof.
  destruct (erase_frees_one_record [Put 1 1; Put 2 2; Put 3 3] (st_of tree_123) 1 1%positive
              (mkNode 1 1 None None (Some 2%positive) 1 (mkStats 1 1 1 1)))
    as (st' & b & He & _ & Hb & _ & Hn & Hba & _).
  - vm_compute. reflexivity.
  - vm_compute. reflexivity.
  - reflexivity.
  - exists st'. rewrite (Hba (or_introl eq_refl)) in Hb.
    split; [exact He|]. split; [exact Hb|exact Hn].
Defined.

(** X7: in a state that a sequence of [put] and [erase] reaches from the
    empty map, [successor(w)] of a node with a right child leaves the map
    as it is and returns the node with the least key above the key of
    [w]. *)
Theorem successor_with_right_child (ops : list op) (st : State) (w : addr) (nd : Node) :
  run ops empty_map = Some st →
  heap st !! w = Some nd → right nd ≠ None →
  ∃ x nx, BSTMap.successor (Some w) st = Some (Some x, st) ∧
          heap st !! x = Some nx ∧ key nd < key nx ∧
          ∀ b nb, heap st !! b = Some nb → key nd < key nb → key nx ≤ key nb.
Proof.
  intros (t & -> & Hi)%run_reaches. by apply successor_right_inv.
Qed.

(** An instance: the node with key 2 in the map with the keys 1, 2, 3. *)
Lemma successor_with_right_child_witness :
  ∃ x, BSTMap.successor (Some 2%positive) (st_of tree_123) = Some (Some x, st_of tree_123).
Proof.
  destruct (successor_with_right_child [Put 1 1; Put 2 2; Put 3 3] (st_of tree_123) 2%positive
              (mkNode 2 2 (Some 1%positive) (Some 3%positive) None 2 (mkStats 3 6 1 3)))
    as (x & nx & Hs & _).
  - vm_compute. reflexivity.
  - vm_compute. reflexivity.
  - discriminate.
  - exists x. exact Hs.
Defined.

(** X8: in a state that a sequence of [put] and [erase] reaches from the
    empty map, [successor(w)] of a node without a right child leaves the
    map as it is and returns the nearest ancestor with a key below the key
    of [w], which of the ancestors with a smaller key has the greatest; it
    returns NULL when every ancestor has a greater key.
    [youngestAncestorType(w, true)] climbs while it comes from a left
    child.  When [w] has no left child either, the node returned has the
    greatest key below the key of [w], and NULL means that [w] has the
    least key of the map. *)
Theorem successor_without_right_child (ops : list op) (st : State) (w : addr) (nd : Node) :
  run ops empty_map = Some st →
  heap st !! w = Some nd → right nd = None →
  ∃ res, BSTMap.successor (Some w) st = Some (res, st) ∧
    match res with
    | Some x =>
        ∃ nx, heap st !! x = Some nx ∧ ancestor st x w ∧ key nx < key nd ∧
              (∀ b nb, ancestor st b w → heap st !! b = Some nb →
                       key nb < key nd → key nb ≤ key nx) ∧
              (left nd = None →
               ∀ b nb, heap st !! b = Some nb → key nb < key nd → key nb ≤ key nx)
    | None =>
        (∀ b nb, ancestor st b w → heap st !! b = Some nb → key nd < key nb) ∧
        (left nd = None → ∀ b nb, heap st !! b = Some nb → key nd ≤ key nb)
    end.
Proof.
  intros (t & -> & Hi)%run_reaches Hw Hr.
  destruct (successor_noright_inv t w nd Hi Hw Hr) as (res & Hs & H1).
  destruct (successor_noright_anc t w nd Hi Hw Hr) as (res2 & Hs2 & H2).
  rewrite Hs in Hs2. injection Hs2 as <-.
  exists res. split; [done|]. destruct res as [x|]; [|done].
  destruct H1 as (nx & Hx & Hlt & Hall). destruct H2 as (Hanc & nx2 & Hx2 & Hgr).
  cbn [heap st_of stt] in *. rewrite Hx in Hx2. injection Hx2 as <-.
  exists nx. by split_and!.
Qed.

(** An instance: the node with key 3 in the map with the keys 1, 2, 3; the
    call returns the node with key 2. *)
Lemma successor_without_right_child_witness :
  BSTMap.successor (Some 3%positive) (st_of tree_123)
  = Some (Some 2%positive, st_of tree_123).
Proof.
  destruct (successor_without_right_child [Put 1 1; Put 2 2; Put 3 3] (st_of tree_123)
              3%positive (mkNode 3 3 None None (Some 2%positive) 1 (mkStats 1 3 3 3)))
    as (res & Hs & _).
  - vm_compute. reflexivity.
  - vm_compute. reflexivity.
  - reflexivity.
  - vm_compute. reflexivity.
Defined.

(** X9: in a state that a sequence of [put] and [erase] reaches from the
    empty map, [predecessor(w)] of a node with a left child leaves the map
    as it is and returns the node with the greatest key below the key of
    [w]. *)
Theorem predecessor_with_left_child (ops : list op) (st : State) (w : addr) (nd : Node) :
  run ops empty_map = Some st →
  heap st !! w = Some nd → left nd ≠ None →
  ∃ x nx, BSTMap.predecessor (Some w) st = Some (Some x, st) ∧
          heap st !! x = Some nx ∧ key nx < key nd ∧
          ∀ b nb, heap st !! b = Some nb → key nb < key nd → key nb ≤ key nx.
Proof.
  intros (t & -> & Hi)%run_reaches. by apply predecessor_left_inv.
Qed.

(** An instance: the node with key 2 in the map with the keys 1, 2, 3. *)
Lemma predecessor_with_left_child_witness :
  ∃ x, BSTMap.predecessor (Some 2%positive) (st_of tree_123)
       = Some (Some x, st_of tree_123).
Proof.
  destruct (predecessor_with_left_child [Put 1 1; Put 2 2; Put 3 3] (st_of tree_123) 2%positive
              (mkNode 2 2 (Some 1%positive) (Some 3%positive) None 2 (mkStats 3 6 1 3)))
    as (x & nx & Hs & _).
  - vm_compute. reflexivity.
  - vm_compute. reflexivity.
  - discriminate.
  - exists x. exact Hs.
Defined.

(** X10: in a state that a sequence of [put] and [erase] reaches from the
    empty map, [predecessor(w)] of a node without a left child leaves the
    map as it is and returns the nearest ancestor with a key above the key
    of [w], which of the ancestors with a greater key has the least; it
    returns NULL when every ancestor has a smaller key.
    [youngestAncestorType(w, false)] climbs while it comes from a right
    child.  When [w] has no right child either, the node returned has the
    least key above the key of [w], and NULL means that [w] has the
    greatest key of the map. *)
Theorem predecessor_without_left_child (ops : list op) (st : State) (w : addr) (nd : Node) :
  run ops empty_map = Some st →
  heap st !! w = Some nd → left nd = None →
  ∃ res, BSTMap.predecessor (Some w) st = Some (res, st) ∧
    match res with
    | Some x =>
        ∃ nx, heap st !! x = Some nx ∧ ancestor st x w ∧ key nd < key nx ∧
              (∀ b nb, ancestor st b w → heap st !! b = Some nb →
                       key nd < key nb → key nx ≤ key nb) ∧
              (right nd = None →
               ∀ b nb, heap st !! b = Some nb → key nd < key nb → key nx ≤ key nb)
    | None =>
        (∀ b nb, ancestor st b w → heap st !! b = Some nb → key nb < key nd) ∧
        (right nd = None → ∀ b nb, heap st !! b = Some nb → key nb ≤ key nd)
    end.
Proof.
  intros (t & -> & Hi)%run_reaches Hw Hl.
  destruct (predecessor_noleft_inv t w nd Hi Hw Hl) as (res & Hs & H1).
  destruct (predecessor_noleft_anc t w nd Hi Hw Hl) as (res2 & Hs2 & H2).
  rewrite Hs in Hs2. injection Hs2 as <-.
  exists res. split; [done|]. destruct res as [x|]; [|done].
  destruct H1 as (nx & Hx & Hlt & Hall). destruct H2 as (Hanc & nx2 & Hx2 & Hgr).
  cbn [heap st_of stt] in *. rewrite Hx in Hx2. injection Hx2 as <-.
  exists nx. by split_and!.
Qed.

(** An instance: the node with key 1 in the map with the keys 1, 2, 3; the
    call returns the node with key 2. *)
Lemma predecessor_without_left_child_witness :
  BSTMap.predecessor (Some 1%positive) (st_of tree_123)
  = Some (Some 2%positive, st_of tree_123).
Proof.
  destruct (predecessor_without_left_child [Put 1 1; Put 2 2; Put 3 3] (st_of tree_123)
              1%positive (mkNode 1 1 None None (Some 2%positive) 1 (mkStats 1 1 1 1)))
    as (res & Hs & _).
  - vm_compute. reflexivity.
  - vm_compute. reflexivity.
  - reflexivity.
  - vm_compute. reflexivity.
Defined.

(** X11: in a state that a sequence of [put] and [erase] reaches from the
    empty map, [updateTree(w)] for NULL or for any node of the map changes
    nothing: every statistic it recomputes is already stored. *)
Theorem updateTree_changes_nothing (ops : list op) (st : State) (w : ptr) :
  run ops empty_map = Some st →
  (∀ a, w = Some a → a ∈ dom (heap st)) →
  TreeMapStats.updateTree w st = Some (tt, st).
Proof.
  intros (t & -> & Hi)%run_reaches. by apply updateTree_id_inv.
Qed.

(** An instance: the walk from the node with key 1 in the map with the keys
    1, 2, 3. *)
Lemma updateTree_changes_nothing_witness :
  TreeMapStats.updateTree (Some 1%positive) (st_of tree_123) = Some (tt, st_of tree_123).
Proof.
  apply (updateTree_changes_nothing [Put 1 1; Put 2 2; Put 3 3]).
  - vm_compute. reflexivity.
  - intros a [= <-]. apply elem_of_dom. eexists. vm_compute. reflexivity.
Defined.

(** X12: after every sequence of [put] and [erase] from the empty map, the
    stored height [h] of the root, which is the height of the tree, is
    logarithmic in the size: [2 ^ ⌈h/2⌉ ≤ size() + 1]. *)
Theorem height_is_logarithmic (ops : list op) :
  ∃ st h, run ops empty_map = Some st ∧
          AVLTreeMap.height (root st) st = Some (h, st) ∧
          2 ^ ((h + 1) / 2) ≤ n st + 1.
Proof.
  destruct (run_empty ops) as (t & Hrun & [Hnd _ Ha _]).
  exists (st_of t), (ht_of t). split; [done|]. split; [by apply height_root_spec|].
  cbn [n st_of stt]. rewrite <- length_nodes. by apply avl_size_bound.
Qed.

(** X13: [rebalance(z)] at a node whose subtrees are balanced, have
    consistent statistics and differ in stored height by 2 succeeds and
    returns the root of a subtree with the same entries in key order that
    is balanced with the stored heights set, has consistent statistics at
    every node, and is as high as the higher subtree of [z] or one higher;
    above it only statistics change. *)
Theorem rebalance_postcondition ctx z L kz vz hz sz R m :
  let t := Nd z L kz vz hz sz R in
  NoDup (addrs (plug ctx t)) →
  avl L → avl R → all_lok L → all_lok R →
  Z.abs (ht_of L - ht_of R) = 2 →
  ∃ res, TreeMapStats.rebalance (Some z) (stt (plug ctx t) m)
         = Some (rootp res.2, stt (plug res.1 res.2) m) ∧
         avl res.2 ∧ all_lok res.2 ∧
         Z.max (ht_of L) (ht_of R) ≤ ht_of res.2 ≤ Z.max (ht_of L) (ht_of R) + 1 ∧
         inorder res.2 = inorder t ∧
         ∃ c, res.1 = refresh_ctx c ctx.
Proof.
  intros t Hnd HL HR HlL HlR Hd.
  destruct (rebalance_z_avl ctx z L kz vz hz sz R HL HR Hd) as (res & Hres & Ha & Hh).
  exists res. split; [by apply rebalance_spec|].
  destruct (rebalance_z_result _ _ _ Hres) as (Hc & _ & Hio).
  split; [done|]. split; [by apply (rebalance_z_all_lok ctx z L kz vz hz sz R)|].
  split; [exact Hh|]. split; [exact Hio|exact Hc].
Qed.

(** An instance: the keys 1, 2, 3 on a right spine. *)
Lemma rebalance_postcondition_witness :
  ∃ res, TreeMapStats.rebalance (Some 1%positive) (stt chain_123 3)
         = Some (rootp res.2, stt (plug res.1 res.2) 3) ∧ avl res.2.
Proof.
  destruct (rebalance_postcondition [] 1%positive Leaf 1 1 2 (mkStats 2 3 1 2)
              (Nd 2%positive Leaf 2 2 2 (mkStats 2 5 2 3)
                  (Nd 3%positive Leaf 3 3 1 (mkStats 1 3 3 3) Leaf)) 3)
    as (res & Hr & Ha & _).
  - apply (bool_decide_unpack _). vm_compute. exact I.
  - exact I.
  - simpl. repeat split; lia.
  - exact I.
  - simpl. repeat split; reflexivity.
  - reflexivity.
  - exists res. split; [exact Hr|exact Ha].
Defined.

(** X14: after every sequence of [put] and [erase] from the empty map,
    [deleteAll], the body of the destructor, succeeds: it frees every
    record once and counts [n] down to 0.  It leaves [root] as it was. *)
Theorem deleteAll_frees_everything (ops : list op) :
  ∃ st, run ops empty_map = Some st ∧
        BSTMap.deleteAll st = Some (tt, mkState ∅ (root st) 0).
Proof.
  destruct (run_empty ops) as (t & Hrun & [Hnd _ _ _]).
  exists (st_of t). split; [done|]. unfold st_of. rewrite deleteAll_spec by done.
  cbn [root stt]. do 3 f_equal. lia.
Qed.

(** X15: after every sequence of [put] and [erase] from the empty map, the
    statistics stored at the root are those of the whole map: the number
    of keys, the least and the greatest value, and the sum of the values
    as an [int], which is the sum of the values whenever that sum is in
    the range of [int].  Without a root the map has no entry. *)
Theorem root_statistics (ops : list op) :
  ∃ st, run ops empty_map = Some st ∧
    match root st with
    | Some a =>
        ∃ nd, heap st !! a = Some nd ∧
          getNum (info nd) = Z.of_nat (size (model ops ∅)) ∧
          getSum (info nd) = wrap (sum_list (map_values (model ops ∅))) ∧
          (in_int (sum_list (map_values (model ops ∅))) →
           getSum (info nd) = sum_list (map_values (model ops ∅))) ∧
          (∃ k, model ops ∅ !! k = Some (getMin (info nd))) ∧
          (∃ k, model ops ∅ !! k = Some (getMax (info nd))) ∧
          ∀ k x, model ops ∅ !! k = Some x → getMin (info nd) ≤ x ≤ getMax (info nd)
    | None => model ops ∅ = ∅
    end.
Proof.
  destruct (run_model_empty ops) as (t & Hrun & Hi & Hc).
  exists (st_of t). split; [done|]. rewrite <- Hc.
  destruct t as [|a l k v h s r]; [done|]. cbn [root st_of stt rootp].
  destruct (nodes_lookup _ _ _ _ _ _ _ _ (inv_nodup _ Hi) (nodes_self a l k v h s r)) as [p Hp].
  eexists. split; [exact Hp|]. cbn [info].
  destruct (root_stats_content a l k v h s r Hi) as (Hn & Hs & Hrest).
  split; [done|]. split; [done|]. split; [|done].
  intros Hr. by rewrite Hs, wrap_in_int.
Qed.

(** X16: after every sequence of [put] and [erase] from the empty map,
    [findNode(k)] leaves the map as it is and returns the node with key
    [k]; when no node has the key it returns the last node of the search,
    under which [put] would attach the key: its child on the side of [k]
    is NULL and no key of the map lies between [k] and its key, so it is
    the node with the least key above [k] or the one with the greatest key
    below [k].  It returns NULL only on the empty map. *)
Theorem findNode_after_run (ops : list op) (k : Z) :
  ∃ st p, run ops empty_map = Some st ∧ BSTMap.findNode k st = Some (p, st) ∧
    match p with
    | Some a =>
        ∃ nd, heap st !! a = Some nd ∧
          (key nd = k ∨
           (k < key nd ∧ left nd = None ∧ ∀ b nb, heap st !! b = Some nb → key nb ≠ k) ∨
           (key nd < k ∧ right nd = None ∧ ∀ b nb, heap st !! b = Some nb → key nb ≠ k)) ∧
          (∀ b nb, heap st !! b = Some nb →
             ¬ (k < key nb < key nd) ∧ ¬ (key nd < key nb < k))
    | None => heap st = ∅ ∧ root st = None
    end.
Proof.
  destruct (run_empty ops) as (t & Hrun & Hi).
  destruct (findNode_inv t k Hi) as (p & Hf & Hp).
  destruct (findNode_nearest t k Hi) as (p2 & Hf2 & Hp2).
  rewrite Hf in Hf2. injection Hf2 as <-.
  exists (st_of t), p. split; [done|]. split; [done|].
  destruct p as [a|]; [|by subst t].
  destruct (Hp2 a eq_refl) as (nd2 & Ha2 & Hadj).
  destruct Hp as (nd & Ha & Hcase). rewrite Ha in Ha2. injection Ha2 as <-.
  exists nd. split; [done|]. split; [|exact Hadj].
  destruct Hcase as [Hk|[(Hk & Hl & Habs)|(Hk & Hr & Habs)]]; [by left| |].
  - right. left. split_and!; [done|done|]. by apply keys_absent.
  - right. right. split_and!; [done|done|]. by apply keys_absent.
Qed.

(** X17: [singleRotation(y, z)] of a [TreeMapStats] object for [y] the
    right child of [z] turns the subtree [z(A, y(B, C))] into
    [y(z(A, B), C)] in the place of [z], under the former parent of [z] or
    at the root, with every parent pointer set.  The height of [z], then
    that of [y], is recomputed from the children; the statistics of [z],
    then of [y], then of every ancestor are recomputed.  No key or value
    changes. *)
Theorem singleRotation_right_child ctx z A kz vz hz sz y B ky vy hy sy C m :
  let hz' := Z.max (ht_of A) (ht_of B) + 1 in
  let hy' := Z.max hz' (ht_of C) + 1 in
  let sz' := TreeMapStats.updateStats vz (info_of A) (info_of B) in
  let sy' := TreeMapStats.updateStats vy (Some sz') (info_of C) in
  NoDup (addrs (plug ctx (Nd z A kz vz hz sz (Nd y B ky vy hy sy C)))) →
  TreeMapStats.singleRotation (Some y) (Some z)
    (stt (plug ctx (Nd z A kz vz hz sz (Nd y B ky vy hy sy C))) m)
  = Some (tt, stt (plug (refresh_ctx (Some sy') ctx)
                        (Nd y (Nd z A kz vz hz' sz' B) ky vy hy' sy' C)) m).
Proof.
  intros hz' hy' sz' sy' Hnd.
  by rewrite (tms_singleRotation_left ctx z A kz vz hz sz y B ky vy hy sy C m Hnd).
Qed.

(** An instance: the keys 1, 2, 3 on a right spine, rotated at the top. *)
Lemma singleRotation_right_child_witness :
  TreeMapStats.singleRotation (Some 2%positive) (Some 1%positive) (stt chain_123 3)
  = Some (tt, stt tree_123 3).
Proof.
  refine (singleRotation_right_child [] 1%positive Leaf 1 1 2 (mkStats 2 3 1 2) 2%positive
            Leaf 2 2 2 (mkStats 2 5 2 3) (Nd 3%positive Leaf 3 3 1 (mkStats 1 3 3 3) Leaf) 3 _).
  apply (bool_decide_unpack _). vm_compute. exact I.
Defined.

(** X18: the mirror image, for [y] the left child of [z]: the subtree
    [z(y(A, B), C)] becomes [y(A, z(B, C))], with the heights and the
    statistics recomputed in the same order. *)
Theorem singleRotation_left_child ctx z A ky vy hy sy y B kz vz hz sz C m :
  let hz' := Z.max (ht_of B) (ht_of C) + 1 in
  let hy' := Z.max (ht_of A) hz' + 1 in
  let sz' := TreeMapStats.updateStats vz (info_of B) (info_of C) in
  let sy' := TreeMapStats.updateStats vy (info_of A) (Some sz') in
  NoDup (addrs (plug ctx (Nd z (Nd y A ky vy hy sy B) kz vz hz sz C))) →
  TreeMapStats.singleRotation (Some y) (Some z)
    (stt (plug ctx (Nd z (Nd y A ky vy hy sy B) kz vz hz sz C)) m)
  = Some (tt, stt (plug (refresh_ctx (Some sy') ctx)
                        (Nd y A ky vy hy' sy' (Nd z B kz vz hz' sz' C))) m).
Proof.
  intros hz' hy' sz' sy' Hnd.
  by rewrite (tms_singleRotation_right ctx z A ky vy hy sy y B kz vz hz sz C m Hnd).
Qed.

(** An instance: the keys 3, 2, 1 on a left spine, rotated at the top. *)
Lemma singleRotation_left_child_witness :
  TreeMapStats.singleRotation (Some 2%positive) (Some 3%positive)
    (stt (Nd 3%positive (Nd 2%positive (Nd 1%positive Leaf 1 1 1 (mkStats 1 1 1 1) Leaf)
                            2 2 2 (mkStats 2 3 1 2) Leaf)
             3 3 2 (mkStats 2 5 2 3) Leaf) 3)
  = Some (tt, stt tree_123 3).
Proof.
  refine (singleRotation_left_child [] 3%positive
            (Nd 1%positive Leaf 1 1 1 (mkStats 1 1 1 1) Leaf) 2 2 2 (mkStats 2 3 1 2)
            2%positive Leaf 3 3 2 (mkStats 2 5 2 3) Leaf 3 _).
  apply (bool_decide_unpack _). vm_compute. exact I.
Defined.

(** X19: in a state that a sequence of [put] and [erase] reaches from the
    empty map, [rebalanceAncestors(w)] for NULL or for any node of the map
    changes nothing: the node is balanced, its stored height is right, and
    the walk stops there. *)
Theorem rebalanceAncestors_changes_nothing (ops : list op) (st : State) (w : ptr) :
  run ops empty_map = Some st →
  (∀ a, w = Some a → a ∈ dom (heap st)) →
  TreeMapStats.rebalanceAncestors w st = Some (tt, st).
Proof.
  intros (t & -> & Hi)%run_reaches Hw. pose proof Hi as [Hnd Hb Ha _].
  destruct w as [a|].
  - specialize (Hw a eq_refl). apply elem_of_dom in Hw as [nd Hw]. simpl in Hw.
    destruct (lookup_position t a nd Hi Hw) as (ctx & l & k & v & h & s & r & p & -> & _).
    unfold st_of.
    apply (rebalanceAncestors_spec (length (addrs (plug ctx (Nd a l k v h s r))))
             (Fr true a k v h s r :: ctx, l)); [done| |done].
    unfold rebal_up. cbn [fst snd fill].
    pose proof (fuel_plug ctx (Nd a l k v h s r) ltac:(done)) as Hf.
    destruct (length (addrs (plug ctx (Nd a l k v h s r)))) as [|j]; [lia|].
    apply rebal_id. by apply avl_plug in Ha as [? _].
  - unfold st_of.
    exact (rebalanceAncestors_spec 0 ([], t) t _ Hnd eq_refl (Nat.le_0_l _)).
Qed.

(** An instance: the walk from the node with key 1 in the map with the keys
    1, 2, 3. *)
Lemma rebalanceAncestors_changes_nothing_witness :
  TreeMapStats.rebalanceAncestors (Some 1%positive) (st_of tree_123)
  = Some (tt, st_of tree_123).
Proof.
  apply (rebalanceAncestors_changes_nothing [Put 1 1; Put 2 2; Put 3 3]).
  - vm_compute. reflexivity.
  - intros a [= <-]. apply elem_of_dom. eexists. vm_compute. reflexivity.
Defined.
